(** * ArbPredict: the event-matching engine

    A shallow embedding of [src/utils/enhanced-matching.ts] (keyword, token,
    edit-distance and date scoring, the weighted classifier and
    [findBestMatch]) and of [src/core/event-matcher.ts] (the [EventMatcher]
    class with its mapping cache), followed by the properties the
    specification states about them.

    Conventions of the embedding.
    - A JavaScript [number] is an exact rational ([Q]); comparisons are the
      boolean tests [Qle_bool] and [Qltb].  Rounding of IEEE doubles is not
      modelled, so nothing is stated that holds of exact sums only: the
      keyword score of the code, for one, can change in its last digit
      when the two texts are exchanged.
    - A JavaScript string is a [string] of 8-bit characters; [toLowerCase],
      [trim], [\w] and [\s] are the ASCII ones.
    - A [Date] is its [getTime()] value, an integer number of milliseconds.
    - A [Map] that the code iterates is an association list in insertion
      order; the two [Map]s of [EventMatcher] are [gmap]s.
    - The table [event_mappings] is a list of rows.  Of its schema, the
      [UNIQUE] pair that [ON CONFLICT] names and the type [DECIMAL(3,2)] of
      [match_confidence] are modelled.
    - Calls to the logger and to [console.log] have no effect on any value
      and are left out. *)

From Stdlib Require Import QArith Qminmax Qround Qabs ZArith String Ascii List DecimalString Lia Lqa.
From stdpp Require Import gmap strings list.

(** ** JavaScript primitives *)

Module JS.

(** [a > b] on numbers is [Qltb b a]; [a >= b] is [Qle_bool b a]. *)
Definition Qltb (x y : Q) : bool := negb (Qle_bool y x).

(** [x || 0] for a [Map.get] result. *)
Definition orZero (o : option Q) : Q :=
  match o with
  | Some v => v
  | None => 0%Q
  end.

Definition ofNat (n : nat) : Q := inject_Z (Z.of_nat n).

Definition isUpper (c : ascii) : bool :=
  let n := N_of_ascii c in ((65 <=? n) && (n <=? 90))%N.

Definition lowerChar (c : ascii) : ascii :=
  if isUpper c then ascii_of_N (N_of_ascii c + 32) else c.

Fixpoint toLowerCase (s : string) : string :=
  match s with
  | EmptyString => EmptyString
  | String c s' => String (lowerChar c) (toLowerCase s')
  end.

(** The class [\s]: tab, line feed, vertical tab, form feed, carriage return,
    space. *)
Definition isSpace (c : ascii) : bool :=
  let n := N_of_ascii c in (((9 <=? n) && (n <=? 13)) || (n =? 32))%N.

(** The class [\w]: letters, digits and the underscore. *)
Definition isWord (c : ascii) : bool :=
  let n := N_of_ascii c in
  (((48 <=? n) && (n <=? 57)) || ((65 <=? n) && (n <=? 90))
   || ((97 <=? n) && (n <=? 122)) || (n =? 95))%N.

Fixpoint trimStart (s : string) : string :=
  match s with
  | EmptyString => EmptyString
  | String c s' => if isSpace c then trimStart s' else s
  end.

Fixpoint trimEnd (s : string) : string :=
  match s with
  | EmptyString => EmptyString
  | String c s' =>
      match trimEnd s' with
      | EmptyString => if isSpace c then EmptyString else String c EmptyString
      | r => String c r
      end
  end.

Definition trim (s : string) : string := trimEnd (trimStart s).

(** [s.includes(sub)] *)
Fixpoint includes (s sub : string) : bool :=
  if String.prefix sub s then true
  else match s with
       | EmptyString => false
       | String _ s' => includes s' sub
       end.

(** [s.charAt(i)]: a string of one character, empty out of range. *)
Definition charAt (s : string) (i : nat) : string :=
  match String.get i s with
  | Some c => String c EmptyString
  | None => EmptyString
  end.

(** [s.replace(/[^\w\s]/g, ' ')] *)
Fixpoint replacePunctuation (s : string) : string :=
  match s with
  | EmptyString => EmptyString
  | String c s' =>
      String (if isWord c || isSpace c then c else " "%char) (replacePunctuation s')
  end.

(** [s.split(/\s+/)]: the pieces between maximal runs of white space; a
    separator at either end leaves an empty piece there.  [cur] is the piece
    being read, reversed; [inSep] tells that the last character was white
    space. *)
Fixpoint splitGo (cur : list ascii) (inSep : bool) (s : string) : list string :=
  match s with
  | EmptyString => [string_of_list_ascii (rev cur)]
  | String c s' =>
      if isSpace c then
        if inSep then splitGo cur true s'
        else string_of_list_ascii (rev cur) :: splitGo [] true s'
      else splitGo (c :: cur) false s'
  end.

Definition splitWhitespace (s : string) : list string := splitGo [] false s.

(** [Set]: elements in insertion order, an element already there is not
    added again. *)
Definition setHas (x : string) (s : list string) : bool := existsb (String.eqb x) s.

Definition setAdd (s : list string) (x : string) : list string :=
  if setHas x s then s else s ++ [x].

Definition newSet (l : list string) : list string := fold_left setAdd l [].

(** [Map<string, number>] in insertion order. *)
Fixpoint mapGet (k : string) (m : list (string * Q)) : option Q :=
  match m with
  | [] => None
  | (k', v) :: m' => if String.eqb k k' then Some v else mapGet k m'
  end.

Fixpoint mapSet (k : string) (v : Q) (m : list (string * Q)) : list (string * Q) :=
  match m with
  | [] => [(k, v)]
  | (k', v') :: m' => if String.eqb k k' then (k, v) :: m' else (k', v') :: mapSet k v m'
  end.

Definition mapKeys (m : list (string * Q)) : list string := map fst m.

(** [costs[j] = v] on an array of numbers: an index below the length
    overwrites, the index equal to the length appends.  (An index beyond the
    length would leave holes; the code below never writes there, and the
    model fills them with 0.) *)
Definition arraySet (costs : list nat) (j v : nat) : list nat :=
  if (j <? length costs)%nat then <[j:=v]> costs
  else costs ++ replicate (j - length costs) 0%nat ++ [v].

(** [costs[j]] *)
Definition arrayGet (costs : list nat) (j : nat) : nat := nth j costs 0%nat.

(** [x.toFixed(0)] for [x >= 0]: the nearest integer, the larger one of two
    equally near, in decimal. *)
Definition toFixed0 (x : Q) : string :=
  NilZero.string_of_int (Z.to_int (Qfloor (x + (1 # 2)))).

End JS.

(** ** [src/utils/enhanced-matching.ts] *)

Module Poly.
(** [PolymarketMarket], the fields the matcher reads. *)
Record t := mk {
  conditionId : string;
  title : string;
  endDate : Z;
  category : option string;
  outcomes : list string
}.
End Poly.

Module Kalshi.
(** [KalshiMarket], the fields the matcher reads. *)
Record t := mk {
  ticker : string;
  title : string;
  expirationTime : Z;
  category : option string
}.
End Kalshi.

Module Matching.
Import JS.
Local Open Scope string_scope.

(** *** 1. Semantic keyword matching *)

Record KeywordGroup := {
  canonical : string;
  synonyms : list string;
  weight : Q
}.

Definition POLITICAL_KEYWORDS : list KeywordGroup :=
  [ {| canonical := "trump";
       synonyms := ["donald trump"; "trump"; "d trump"; "president trump"; "donald j trump"; "djt"];
       weight := 1 |};
    {| canonical := "biden";
       synonyms := ["joe biden"; "biden"; "president biden"; "joseph biden"];
       weight := 1 |};
    {| canonical := "republican";
       synonyms := ["republican"; "gop"; "r candidate"; "republican nominee"; "republican candidate"];
       weight := 0.9 |};
    {| canonical := "democrat";
       synonyms := ["democrat"; "democratic"; "d candidate"; "democratic nominee"; "democratic candidate"];
       weight := 0.9 |};
    {| canonical := "presidential_election";
       synonyms := ["presidential election"; "president election"; "potus"; "presidency"; "presidential race"];
       weight := 0.95 |};
    {| canonical := "win_election";
       synonyms := ["win"; "wins"; "victory"; "elected"; "becomes president"];
       weight := 0.85 |};
    {| canonical := "2024_election";
       synonyms := ["2024"; "2024 election"; "november 2024"; "11/2024"];
       weight := 0.9 |} ].

Definition CRYPTO_KEYWORDS : list KeywordGroup :=
  [ {| canonical := "bitcoin"; synonyms := ["bitcoin"; "btc"]; weight := 1 |};
    {| canonical := "ethereum"; synonyms := ["ethereum"; "eth"; "ether"]; weight := 1 |};
    {| canonical := "price_above";
       synonyms := ["above"; "over"; "exceed"; "surpass"; "reach"; "hit"; "trade above"; "close above"];
       weight := 0.9 |};
    {| canonical := "price_below";
       synonyms := ["below"; "under"; "fall below"; "drop below"; "trade below"];
       weight := 0.9 |};
    {| canonical := "end_of_year";
       synonyms := ["end of year"; "eoy"; "december"; "dec"; "year end"; "end of 2024"; "end of 2025"];
       weight := 0.85 |} ].

(** The inner loop of [extractKeywords]: the first synonym found in the text
    records the group under its canonical name and leaves the loop. *)
Fixpoint scanSynonyms (normalized : string) (group : KeywordGroup)
    (syns : list string) (found : list (string * Q)) : list (string * Q) :=
  match syns with
  | [] => found
  | synonym :: rest =>
      if includes normalized synonym then
        let existing := orZero (mapGet (canonical group) found) in
        mapSet (canonical group) (Qmax existing (weight group)) found
      else scanSynonyms normalized group rest found
  end.

Definition extractKeywords (text : string) (keywordGroups : list KeywordGroup)
    : list (string * Q) :=
  let normalized := toLowerCase text in
  fold_left (fun found group => scanSynonyms normalized group (synonyms group) found)
            keywordGroups [].

(** The body of the loop over [allKeys]; the state is
    [(intersectionWeight, unionWeight)]. *)
Definition overlapStep (keywords1 keywords2 : list (string * Q))
    (acc : Q * Q) (key : string) : Q * Q :=
  let weight1 := orZero (mapGet key keywords1) in
  let weight2 := orZero (mapGet key keywords2) in
  let intersectionWeight :=
    if Qltb 0 weight1 && Qltb 0 weight2
    then (fst acc + Qmin weight1 weight2)%Q else fst acc in
  (intersectionWeight, (snd acc + Qmax weight1 weight2)%Q).

Definition keywordOverlapScore (text1 text2 : string)
    (keywordGroups : list KeywordGroup) : Q :=
  let keywords1 := extractKeywords text1 keywordGroups in
  let keywords2 := extractKeywords text2 keywordGroups in
  if (length keywords1 =? 0)%nat && (length keywords2 =? 0)%nat then 0%Q
  else
    let allKeys := newSet (mapKeys keywords1 ++ mapKeys keywords2)%list in
    let acc := fold_left (overlapStep keywords1 keywords2) allKeys (0%Q, 0%Q) in
    if Qltb 0 (snd acc) then (fst acc / snd acc)%Q else 0%Q.

(** *** 2. Token-based matching with stopwords *)

Definition STOPWORDS : list string :=
  [ "the"; "a"; "an"; "and"; "or"; "but"; "in"; "on"; "at"; "to"; "for";
    "of"; "with"; "by"; "from"; "will"; "be"; "is"; "are"; "was"; "were";
    "have"; "has"; "had"; "do"; "does"; "did"; "can"; "could"; "would";
    "should"; "may"; "might"; "must" ].

Definition tokenize (text : string) : list string :=
  newSet
    (filter (fun token => (2 <? String.length token)%nat && negb (setHas token STOPWORDS))
            (splitWhitespace (replacePunctuation (toLowerCase text)))).

Definition tokenOverlapScore (text1 text2 : string) : Q :=
  let tokens1 := tokenize text1 in
  let tokens2 := tokenize text2 in
  if (length tokens1 =? 0)%nat && (length tokens2 =? 0)%nat then 1%Q
  else if (length tokens1 =? 0)%nat || (length tokens2 =? 0)%nat then 0%Q
  else
    let intersection := newSet (filter (fun t => setHas t tokens2) tokens1) in
    let union := newSet (tokens1 ++ tokens2)%list in
    (ofNat (length intersection) / ofNat (length union))%Q.

(** *** Edit distance (the helpers at the end of the file) *)

(** One turn of the inner loop [for j = 0 .. s2.length]; the state is
    [(costs, lastValue)]. *)
Definition innerStep (s1 s2 : string) (i : nat) (st : list nat * nat) (j : nat)
    : list nat * nat :=
  let '(costs, lastValue) := st in
  if (i =? 0)%nat then (arraySet costs j j, lastValue)
  else if (0 <? j)%nat then
    let newValue := arrayGet costs (j - 1) in
    let newValue :=
      if negb (String.eqb (charAt s1 (i - 1)) (charAt s2 (j - 1)))
      then (Nat.min (Nat.min newValue lastValue) (arrayGet costs j) + 1)%nat
      else newValue in
    (arraySet costs (j - 1) lastValue, newValue)
  else st.

(** One turn of the outer loop [for i = 0 .. s1.length]. *)
Definition outerStep (s1 s2 : string) (costs : list nat) (i : nat) : list nat :=
  let '(costs', lastValue) :=
    fold_left (innerStep s1 s2 i) (seq 0 (S (String.length s2))) (costs, i) in
  if (0 <? i)%nat then arraySet costs' (String.length s2) lastValue else costs'.

Definition levenshteinDistance (s1 s2 : string) : nat :=
  arrayGet (fold_left (outerStep s1 s2) (seq 0 (S (String.length s1))) [])
           (String.length s2).

Definition levenshteinSimilarity (s1 s2 : string) : Q :=
  let longer := if (String.length s2 <? String.length s1)%nat then s1 else s2 in
  let shorter := if (String.length s2 <? String.length s1)%nat then s2 else s1 in
  if (String.length longer =? 0)%nat then 1%Q
  else
    let editDistance := levenshteinDistance longer shorter in
    ((ofNat (String.length longer) - ofNat editDistance) / ofNat (String.length longer))%Q.

(** *** 3. Combined scoring *)

Inductive Method := exact | keyword | token | fuzzy | combined.
Inductive Confidence := high | medium | low.

Record MatchScore := {
  overall : Q;
  s_exact : Q;
  s_keyword : Q;
  s_token : Q;
  s_fuzzy : Q;
  s_date : Q;
  s_category : Q;
  method : Method;
  confidence : Confidence;
  breakdown : string
}.

(** Step 5 of [calculateMatchScore], date proximity, on the two
    [getTime()] values. *)
Definition dateDiffDays (endDate expirationTime : Z) : Q :=
  (inject_Z (Z.abs (endDate - expirationTime)) / inject_Z (1000 * 60 * 60 * 24))%Q.

Definition dateScore (endDate expirationTime : Z) : Q :=
  let dateDiffDays := dateDiffDays endDate expirationTime in
  if Qltb 30 dateDiffDays then 0%Q
  else if Qltb 7 dateDiffDays then (0.7 + (0.3 * (30 - dateDiffDays) / 23))%Q
  else 1%Q.

(** Step 6: the category score is the neutral constant. *)
Definition categoryScore : Q := 0.5%Q.

(** The [weights] object. *)
Definition w_keyword : Q := 0.40%Q.
Definition w_token : Q := 0.30%Q.
Definition w_fuzzy : Q := 0.15%Q.
Definition w_date : Q := 0.10%Q.
Definition w_category : Q := 0.05%Q.

Definition percent (x : Q) : string := toFixed0 (x * 100) ++ "%".

Definition calculateMatchScore (polymarket : Poly.t) (kalshi : Kalshi.t) : MatchScore :=
  let norm1 := trim (toLowerCase (Poly.title polymarket)) in
  let norm2 := trim (toLowerCase (Kalshi.title kalshi)) in
  if String.eqb norm1 norm2 then
    {| overall := 1; s_exact := 1; s_keyword := 1; s_token := 1; s_fuzzy := 1;
       s_date := 1; s_category := 1; method := exact; confidence := high;
       breakdown := "Exact title match" |}
  else
    let keywordGroups := (POLITICAL_KEYWORDS ++ CRYPTO_KEYWORDS)%list in
    let keywordScore :=
      keywordOverlapScore (Poly.title polymarket) (Kalshi.title kalshi) keywordGroups in
    let tokenScore := tokenOverlapScore (Poly.title polymarket) (Kalshi.title kalshi) in
    let fuzzyScore := levenshteinSimilarity norm1 norm2 in
    let dateScore := dateScore (Poly.endDate polymarket) (Kalshi.expirationTime kalshi) in
    let overall :=
      (w_keyword * keywordScore + w_token * tokenScore + w_fuzzy * fuzzyScore
       + w_date * dateScore + w_category * categoryScore)%Q in
    let '(method, confidence) :=
      if Qle_bool 0.8 keywordScore then
        (keyword, if Qle_bool 0.80 overall then high else medium)
      else if Qle_bool 0.7 tokenScore then
        (token, if Qle_bool 0.70 overall then high else medium)
      else if Qle_bool 0.90 fuzzyScore then (fuzzy, medium)
      else (combined, low) in
    {| overall := overall; s_exact := 0; s_keyword := keywordScore;
       s_token := tokenScore; s_fuzzy := fuzzyScore; s_date := dateScore;
       s_category := categoryScore; method := method; confidence := confidence;
       breakdown := "Keyword: " ++ percent keywordScore ++ ", Token: " ++ percent tokenScore
                    ++ ", Fuzzy: " ++ percent fuzzyScore ++ ", Date: " ++ percent dateScore |}.

(** *** 5. The matching workflow *)

Record MatchResult := {
  matched : bool;
  kalshiTicker : string;
  kalshiTitle : string;
  score : MatchScore;
  needsReview : bool;
  shouldTrade : bool
}.

(** The body of the loop of [findBestMatch]; the state is
    [(bestMatch, bestOverall)]. *)
Definition bestStep (polymarket : Poly.t)
    (st : option (Kalshi.t * MatchScore) * Q) (kalshi : Kalshi.t)
    : option (Kalshi.t * MatchScore) * Q :=
  let score := calculateMatchScore polymarket kalshi in
  if Qltb (snd st) (overall score) then (Some (kalshi, score), overall score) else st.

Definition findBestMatch (polymarket : Poly.t) (kalshiMarkets : list Kalshi.t)
    : option MatchResult :=
  match fst (fold_left (bestStep polymarket) kalshiMarkets (None, 0%Q)) with
  | None => None
  | Some (kalshi, score) =>
      let shouldTrade := Qle_bool 0.75 (overall score) in
      let needsReview := Qle_bool 0.60 (overall score) && Qltb (overall score) 0.75 in
      let matched := Qle_bool 0.60 (overall score) in
      if negb matched then None
      else Some {| matched := matched; kalshiTicker := Kalshi.ticker kalshi;
                   kalshiTitle := Kalshi.title kalshi; score := score;
                   needsReview := needsReview; shouldTrade := shouldTrade |}
  end.

(** The first example of the file. *)
Definition poly1 : Poly.t :=
  Poly.mk "0x123" "Will Donald Trump win the 2024 Presidential Election?"
          1730764800000 (Some "politics") ["Yes"; "No"].

Definition kalshi1 : list Kalshi.t :=
  [ Kalshi.mk "PRES-2024-TRUMP"
      "Will the Republican candidate win the 2024 presidential election?"
      1730851200000 (Some "Politics");
    Kalshi.mk "PRES-2024-OTHER" "Will Biden win the 2024 election?"
      1730851200000 (Some "Politics") ].

End Matching.

(** ** [src/core/event-matcher.ts] *)

Module Matcher.
Import JS Matching.
Local Open Scope string_scope.

(** [MatchMethod]: what a score reports, or ['manual']. *)
Inductive MatchMethod := scored (m : Method) | manual.

Inductive KalshiSide := yes | no.

Record OutcomeMapping := {
  polymarketOutcome : string;
  kalshiSide : KalshiSide
}.

(** [EventMapping]; [id] is what [generateId()] returned.  The last two
    fields are the properties [findKalshiEquivalent] adds to the object. *)
Record EventMapping := {
  id : nat;
  polymarketConditionId : string;
  kalshiTicker : string;
  eventDescription : string;
  matchConfidence : Q;
  resolutionDate : Z;
  matchMethod : MatchMethod;
  outcomeMapping : list OutcomeMapping;
  isActive : bool;
  createdAt : Z;
  updatedAt : Z;
  scoreBreakdown : option string;
  needsReview : option bool
}.

(** [config.matching]: the two thresholds the matcher reads. *)
Record MatchingConfig := {
  minConfidenceThreshold : Q;
  reviewConfidenceThreshold : Q
}.

(** Modelled from the spec: [src/config/index.ts] is not among the sources;
    the default thresholds are the ones the specification gives, 0.75 to
    trade and 0.60 to review. *)
Definition defaultConfig : MatchingConfig :=
  {| minConfidenceThreshold := 0.75; reviewConfidenceThreshold := 0.60 |}.

(** The column [match_confidence DECIMAL(3,2)] of the schema of
    [event_mappings]: a value is stored rounded to two decimals, a half
    away from zero, and the statement fails when the rounded value does
    not fit in three digits, that is, when it is 10 or more in absolute
    value.  [parseFloat(row.match_confidence)] reads the stored value. *)
Definition decimal32 (x : Q) : Q :=
  let n := Qfloor (Qabs x * 100 + (1 # 2)) in
  (inject_Z (if Qle_bool 0 x then n else - n) / 100)%Q.

Definition fitsDecimal32 (x : Q) : bool := Qltb (Qabs (decimal32 x)) 10.

(** A row of the table [event_mappings], with [match_confidence] as
    [parseFloat] reads it. *)
Record Row := {
  r_id : nat;
  polymarket_condition_id : string;
  kalshi_ticker : string;
  description : string;
  match_confidence : Q;
  match_method : MatchMethod;
  resolution_date : Z;
  is_active : bool;
  created_at : Z;
  updated_at : Z
}.

(** An entry of [data.mappings] in [./data/event_mappings.json]. *)
Record JsonRow := {
  j_id : nat;
  j_polymarketConditionId : string;
  j_kalshiTicker : string;
  j_eventDescription : string;
  j_matchConfidence : Q;
  j_resolutionDate : Z;
  j_matchMethod : MatchMethod;
  j_outcomeMapping : option (list OutcomeMapping);
  j_isActive : option bool
}.

(** The matcher with what it acts on: its two maps, the table, whether a
    [query] succeeds ([dbUp]; it throws otherwise), the JSON file if there
    is one ([data.generated] and [data.mappings]), the next result of
    [generateId()] and the clock read by [new Date()]. *)
Record State := {
  manualMappings : gmap string string;
  cachedMappings : gmap string EventMapping;
  table : list Row;
  dbUp : bool;
  jsonFile : option (Z * list JsonRow);
  nextId : nat;
  clock : Z
}.

Definition setMaps (st : State) (manual : gmap string string)
    (cached : gmap string EventMapping) : State :=
  {| manualMappings := manual; cachedMappings := cached; table := table st;
     dbUp := dbUp st; jsonFile := jsonFile st; nextId := nextId st; clock := clock st |}.

Definition setTable (st : State) (t : list Row) : State :=
  {| manualMappings := manualMappings st; cachedMappings := cachedMappings st;
     table := t; dbUp := dbUp st; jsonFile := jsonFile st; nextId := nextId st;
     clock := clock st |}.

(** [generateId()] *)
Definition generateId (st : State) : nat * State :=
  (nextId st,
   {| manualMappings := manualMappings st; cachedMappings := cachedMappings st;
      table := table st; dbUp := dbUp st; jsonFile := jsonFile st;
      nextId := S (nextId st); clock := clock st |}).

Definition loadRow (st : State) (row : Row) : State :=
  let mapping :=
    {| id := r_id row; polymarketConditionId := polymarket_condition_id row;
       kalshiTicker := kalshi_ticker row; eventDescription := description row;
       matchConfidence := match_confidence row; resolutionDate := resolution_date row;
       matchMethod := match_method row; outcomeMapping := [];
       isActive := is_active row; createdAt := created_at row;
       updatedAt := updated_at row; scoreBreakdown := None; needsReview := None |} in
  setMaps st (<[polymarket_condition_id row := kalshi_ticker row]> (manualMappings st))
             (<[polymarket_condition_id row := mapping]> (cachedMappings st)).

Definition loadJsonRow (generated : Z) (st : State) (row : JsonRow) : State :=
  let mapping :=
    {| id := j_id row; polymarketConditionId := j_polymarketConditionId row;
       kalshiTicker := j_kalshiTicker row; eventDescription := j_eventDescription row;
       matchConfidence := j_matchConfidence row; resolutionDate := j_resolutionDate row;
       matchMethod := j_matchMethod row;
       outcomeMapping := default [] (j_outcomeMapping row);
       isActive := default true (j_isActive row); createdAt := generated;
       updatedAt := generated; scoreBreakdown := None; needsReview := None |} in
  setMaps st (<[j_polymarketConditionId row := j_kalshiTicker row]> (manualMappings st))
             (<[j_polymarketConditionId row := mapping]> (cachedMappings st)).

(** [loadMappings]: the active rows of the table, or the JSON file when the
    query fails. *)
Definition loadMappings (st : State) : State :=
  if dbUp st then fold_left loadRow (filter (fun row => is_active row) (table st)) st
  else match jsonFile st with
       | None => st
       | Some (generated, mappings) => fold_left (loadJsonRow generated) mappings st
       end.

(** [createMapping] *)
Definition createMapping (st : State) (polymarket : Poly.t) (kalshi : Kalshi.t)
    (confidence : Q) (method : MatchMethod) : EventMapping * State :=
  let outcomeMapping :=
    [ {| polymarketOutcome := "Yes"; kalshiSide := yes |};
      {| polymarketOutcome := "No"; kalshiSide := no |} ] in
  let '(newId, st') := generateId st in
  ({| id := newId; polymarketConditionId := Poly.conditionId polymarket;
      kalshiTicker := Kalshi.ticker kalshi; eventDescription := Poly.title polymarket;
      matchConfidence := confidence; resolutionDate := Poly.endDate polymarket;
      matchMethod := method; outcomeMapping := outcomeMapping; isActive := true;
      createdAt := clock st'; updatedAt := clock st'; scoreBreakdown := None;
      needsReview := None |}, st').

(** The [INSERT ... ON CONFLICT (polymarket_condition_id, kalshi_ticker) DO
    UPDATE SET match_confidence, updated_at] on a confidence that fits the
    column. *)
Fixpoint upsert (now : Z) (mapping : EventMapping) (rows : list Row) : list Row :=
  match rows with
  | [] =>
      [ {| r_id := id mapping; polymarket_condition_id := polymarketConditionId mapping;
           kalshi_ticker := kalshiTicker mapping; description := eventDescription mapping;
           match_confidence := decimal32 (matchConfidence mapping);
           match_method := matchMethod mapping;
           resolution_date := resolutionDate mapping; is_active := isActive mapping;
           created_at := now; updated_at := now |} ]
  | row :: rest =>
      if String.eqb (polymarket_condition_id row) (polymarketConditionId mapping)
         && String.eqb (kalshi_ticker row) (kalshiTicker mapping)
      then {| r_id := r_id row; polymarket_condition_id := polymarket_condition_id row;
              kalshi_ticker := kalshi_ticker row; description := description row;
              match_confidence := decimal32 (matchConfidence mapping);
              match_method := match_method row;
              resolution_date := resolution_date row; is_active := is_active row;
              created_at := created_at row; updated_at := now |} :: rest
      else row :: upsert now mapping rest
  end.

(** [saveMapping]: when the query throws, because the database is not
    reachable or the confidence does not fit its column, the cache is not
    updated. *)
Definition saveMapping (st : State) (mapping : EventMapping) : State :=
  if dbUp st && fitsDecimal32 (matchConfidence mapping) then
    let st' := setTable st (upsert (clock st) mapping (table st)) in
    setMaps st' (manualMappings st')
            (<[polymarketConditionId mapping := mapping]> (cachedMappings st'))
  else st.

(** The body of the loop of [findKalshiEquivalent]; the state is
    [bestMatch]. *)
Definition equivalentStep (config : MatchingConfig) (polymarket : Poly.t)
    (bestMatch : option (Kalshi.t * MatchScore)) (kalshi : Kalshi.t)
    : option (Kalshi.t * MatchScore) :=
  let score := calculateMatchScore polymarket kalshi in
  if Qltb (overall score) (reviewConfidenceThreshold config) then bestMatch
  else match bestMatch with
       | None => Some (kalshi, score)
       | Some (_, best) =>
           if Qltb (overall best) (overall score) then Some (kalshi, score) else bestMatch
       end.

Definition findKalshiEquivalent (config : MatchingConfig) (st : State)
    (polymarket : Poly.t) (kalshiMarkets : list Kalshi.t) : option EventMapping * State :=
  let cached := cachedMappings st !! Poly.conditionId polymarket in
  if match cached with Some c => isActive c | None => false end then (cached, st)
  else
    match fold_left (equivalentStep config polymarket) kalshiMarkets None with
    | None => (None, st)
    | Some (kalshi, score) =>
        let '(mapping, st1) :=
          createMapping st polymarket kalshi (overall score) (scored (method score)) in
        let mapping :=
          {| id := id mapping; polymarketConditionId := polymarketConditionId mapping;
             kalshiTicker := kalshiTicker mapping;
             eventDescription := eventDescription mapping;
             matchConfidence := matchConfidence mapping;
             resolutionDate := resolutionDate mapping; matchMethod := matchMethod mapping;
             outcomeMapping := outcomeMapping mapping; isActive := isActive mapping;
             createdAt := createdAt mapping; updatedAt := updatedAt mapping;
             scoreBreakdown := Some (breakdown score);
             needsReview := Some (Qltb (overall score) (minConfidenceThreshold config)) |} in
        (Some mapping, saveMapping st1 mapping)
    end.

(** [addManualMapping]; [description || ''] is the description or the empty
    string. *)
Definition addManualMapping (st : State) (polymarketConditionId kalshiTicker : string)
    (description : option string) : EventMapping * State :=
  let '(newId, st1) := generateId st in
  let mapping :=
    {| id := newId; polymarketConditionId := polymarketConditionId;
       kalshiTicker := kalshiTicker; eventDescription := default "" description;
       matchConfidence := 1; resolutionDate := clock st1; matchMethod := manual;
       outcomeMapping :=
         [ {| polymarketOutcome := "Yes"; kalshiSide := yes |};
           {| polymarketOutcome := "No"; kalshiSide := no |} ];
       isActive := true; createdAt := clock st1; updatedAt := clock st1;
       scoreBreakdown := None; needsReview := None |} in
  let st2 := saveMapping st1 mapping in
  (mapping,
   setMaps st2 (<[polymarketConditionId := kalshiTicker]> (manualMappings st2))
           (cachedMappings st2)).

(** [removeMapping]: the rows of the question are deactivated and both maps
    forget it; nothing happens when the query throws. *)
Definition deactivate (polymarketConditionId : string) (row : Row) : Row :=
  if String.eqb (polymarket_condition_id row) polymarketConditionId
  then {| r_id := r_id row; polymarket_condition_id := polymarket_condition_id row;
          kalshi_ticker := kalshi_ticker row; description := description row;
          match_confidence := match_confidence row; match_method := match_method row;
          resolution_date := resolution_date row; is_active := false;
          created_at := created_at row; updated_at := updated_at row |}
  else row.

Definition removeMapping (st : State) (polymarketConditionId : string) : State :=
  if dbUp st then
    let st' := setTable st (map (deactivate polymarketConditionId) (table st)) in
    setMaps st' (delete polymarketConditionId (manualMappings st'))
            (delete polymarketConditionId (cachedMappings st'))
  else st.

(** [getMapping] *)
Definition getMapping (st : State) (polymarketConditionId : string) : option EventMapping :=
  cachedMappings st !! polymarketConditionId.

(** [getActiveMappings]; the order of the result is the one of
    [map_to_list], not the insertion order of the [Map]. *)
Definition getActiveMappings (st : State) : list EventMapping :=
  filter (fun m => isActive m) (snd <$> map_to_list (cachedMappings st)).

(** [canTradeOnMapping] *)
Definition canTradeOnMapping (config : MatchingConfig) (mapping : EventMapping) : bool :=
  if Qltb (matchConfidence mapping) (minConfidenceThreshold config) then false else true.

(** [buildMappings] *)
Definition buildMappings (config : MatchingConfig) (st : State)
    (polymarketMarkets : list Poly.t) (kalshiMarkets : list Kalshi.t)
    : list EventMapping * State :=
  fold_left
    (fun (acc : list EventMapping * State) polymarket =>
       match findKalshiEquivalent config (snd acc) polymarket kalshiMarkets with
       | (Some mapping, st') => ((fst acc ++ [mapping])%list, st')
       | (None, st') => (fst acc, st')
       end)
    polymarketMarkets ([], st).

End Matcher.

(** ** Notions of the specification *)

Module Spec.
Import JS Matching Matcher.

(** Normalization of a title: lowercasing and trimming. *)
Definition norm (s : string) : string := trim (toLowerCase s).

(** Milliseconds in a day. *)
Definition msPerDay : Z := 86400000.

(** The absolute difference of two timestamps, in days. *)
Definition days (t1 t2 : Z) : Q := (inject_Z (Z.abs (t1 - t2)) / inject_Z msPerDay)%Q.

(** A group is present in a text when some synonym is a case-insensitive
    substring of the text. *)
Definition present (text : string) (g : KeywordGroup) : bool :=
  existsb (fun synonym => includes (toLowerCase text) (toLowerCase synonym)) (synonyms g).

(** The weight of a group under a presence test: the group's weight when
    present. *)
Definition weightOf (pres : KeywordGroup -> bool) (g : KeywordGroup) : Q :=
  if pres g then weight g else 0%Q.

Definition Qsum (l : list Q) : Q := fold_right Qplus 0%Q l.

(** Sum of the minima over the groups present in both texts, over the sum of
    the maxima over the groups present in either; 0 when neither text
    matches any group.  [pres1] and [pres2] tell which groups are present in
    the first and in the second text. *)
Definition overlap (pres1 pres2 : KeywordGroup -> bool) (groups : list KeywordGroup) : Q :=
  let both := List.filter (fun g => pres1 g && pres2 g) groups in
  let either := List.filter (fun g => pres1 g || pres2 g) groups in
  match either with
  | [] => 0%Q
  | _ =>
      (Qsum (map (fun g => Qmin (weightOf pres1 g) (weightOf pres2 g)) both)
       / Qsum (map (fun g => Qmax (weightOf pres1 g) (weightOf pres2 g)) either))%Q
  end.

(** The keyword score of the specification. *)
Definition keywordScore (text1 text2 : string) (groups : list KeywordGroup) : Q :=
  overlap (present text1) (present text2) groups.

(** The weight of canonical name [name] under a presence test: the highest
    weight among the groups of that name that are present, and 0 when none
    is (or when none of them has a positive weight). *)
Definition nameWeight (pres : KeywordGroup -> bool) (groups : list KeywordGroup)
    (name : string) : Q :=
  fold_left Qmax
    (map weight (List.filter (fun g => String.eqb (canonical g) name && pres g) groups))
    0%Q.

(** The overlap formula on canonical names: groups that share a name count
    as one group with the highest weight of those present. *)
Definition overlapByName (pres1 pres2 : KeywordGroup -> bool) (groups : list KeywordGroup)
    : Q :=
  let names := newSet (map canonical groups) in
  let w1 := nameWeight pres1 groups in
  let w2 := nameWeight pres2 groups in
  let both := List.filter (fun n => Qltb 0 (w1 n) && Qltb 0 (w2 n)) names in
  let either := List.filter (fun n => Qltb 0 (w1 n) || Qltb 0 (w2 n)) names in
  match either with
  | [] => 0%Q
  | _ => (Qsum (map (fun n => Qmin (w1 n) (w2 n)) both)
          / Qsum (map (fun n => Qmax (w1 n) (w2 n)) either))%Q
  end.

(** [o] is the best overall score of the candidates for [p]. *)
Definition bestOverall (p : Poly.t) (ks : list Kalshi.t) (o : Q) : Prop :=
  (exists k, In k ks /\ overall (calculateMatchScore p k) = o)
  /\ forall k, In k ks -> (overall (calculateMatchScore p k) <= o)%Q.

(** The rank of a method in the order exact > keyword > token > fuzzy (and
    the unnamed ['combined'] last). *)
Definition methodRank (m : Method) : nat :=
  match m with
  | exact => 4
  | keyword => 3
  | token => 2
  | fuzzy => 1
  | combined => 0
  end.

(** Candidate [k] at index [i] is to be preferred to candidate [k'] at
    index [j]: a strictly higher overall score, or the same score and a
    higher-ranked method, or the same score and rank and a lower index. *)
Definition preferred (p : Poly.t) (k k' : Kalshi.t) (i j : nat) : Prop :=
  let s := calculateMatchScore p k in
  let s' := calculateMatchScore p k' in
  (overall s' < overall s)%Q
  \/ ((overall s' == overall s)%Q
      /\ ((methodRank (method s') < methodRank (method s))%nat
          \/ (methodRank (method s') = methodRank (method s) /\ (i <= j)%nat))).

(** The candidate the specification selects carries ticker [t]. *)
Definition selects (p : Poly.t) (ks : list Kalshi.t) (t : string) : Prop :=
  exists i k, ks !! i = Some k /\ Kalshi.ticker k = t
              /\ forall j k', ks !! j = Some k' -> preferred p k k' i j.

(** The mapping [findKalshiEquivalent] makes for candidate [k]. *)
Definition mappingFor (config : MatchingConfig) (st : State) (p : Poly.t) (k : Kalshi.t)
    : EventMapping :=
  {| id := nextId st; polymarketConditionId := Poly.conditionId p;
     kalshiTicker := Kalshi.ticker k; eventDescription := Poly.title p;
     matchConfidence := overall (calculateMatchScore p k); resolutionDate := Poly.endDate p;
     matchMethod := scored (method (calculateMatchScore p k));
     outcomeMapping := [ {| polymarketOutcome := "Yes"%string; kalshiSide := yes |};
                         {| polymarketOutcome := "No"%string; kalshiSide := no |} ];
     isActive := true; createdAt := clock st; updatedAt := clock st;
     scoreBreakdown := Some (breakdown (calculateMatchScore p k));
     needsReview := Some (Qltb (overall (calculateMatchScore p k)) (minConfidenceThreshold config)) |}.

(** No active mapping is cached for the question. *)
Definition noActiveCached (st : State) (p : Poly.t) : Prop :=
  forall c, cachedMappings st !! Poly.conditionId p = Some c -> isActive c = false.

(** The correspondence every created mapping carries. *)
Definition defaultOutcomeMapping : list OutcomeMapping :=
  [ {| polymarketOutcome := "Yes"; kalshiSide := yes |};
    {| polymarketOutcome := "No"; kalshiSide := no |} ].

(** The outcome correspondence pairs every outcome of the Polymarket
    question and both sides of the Kalshi question exactly once. *)
Definition coversOutcomes (outs : list string) (om : list OutcomeMapping) : Prop :=
  Permutation (map polymarketOutcome om) outs
  /\ Permutation (map kalshiSide om) [yes; no].

(** Short name for the scoring function in statements. *)
Abbreviation cms := calculateMatchScore (only parsing).

End Spec.

(** ** Loop invariants used in the proofs *)

Module Invariants.
Import JS Matching.

(** The weights [extractKeywords] records are never negative. *)
Definition nonnegMap (m : list (string * Q)) : Prop :=
  Forall (fun kv => (0 <= snd kv)%Q) m.

(** The cells of row [i] of the edit-distance table against [s2]: cell [x]
    is at most [max i x]. *)
Definition rowBound (s2 : string) (i : nat) (costs : list nat) : Prop :=
  length costs = (String.length s2 + 1)%nat
  /\ forall x, (x <= String.length s2)%nat -> (arrayGet costs x <= Nat.max i x)%nat.

(** The inner loop of a row [i >= 1], before the turn for [j]: the cells
    below [j - 1] hold the new row, the cells from [j - 1] on the old one,
    and [lastValue] is the new cell [j - 1]. *)
Definition innerInv (s2 : string) (i j : nat) (st : list nat * nat) : Prop :=
  length (fst st) = (String.length s2 + 1)%nat
  /\ (forall x, (x + 1 < j)%nat -> (arrayGet (fst st) x <= Nat.max i x)%nat)
  /\ (forall x, (j <= x + 1)%nat -> (x <= String.length s2)%nat ->
                (arrayGet (fst st) x <= Nat.max (i - 1) x)%nat)
  /\ (snd st <= Nat.max i (j - 1))%nat.

(** The test [extractKeywords] makes of a group: some synonym occurs, as
    written, in the lowercased text. *)
Definition matches (text : string) (g : KeywordGroup) : bool :=
  existsb (fun synonym => includes (toLowerCase text) synonym) (synonyms g).

(** The entries [extractKeywords] records for groups of distinct names. *)
Definition entries (text : string) (groups : list KeywordGroup) : list (string * Q) :=
  map (fun g => (canonical g, weight g)) (List.filter (matches text) groups).

(** What a key adds to the two sums of [keywordOverlapScore]. *)
Definition interTerm (k1 k2 : list (string * Q)) (key : string) : Q :=
  let weight1 := orZero (mapGet key k1) in
  let weight2 := orZero (mapGet key k2) in
  if Qltb 0 weight1 && Qltb 0 weight2 then Qmin weight1 weight2 else 0%Q.

Definition unionTerm (k1 k2 : list (string * Q)) (key : string) : Q :=
  Qmax (orZero (mapGet key k1)) (orZero (mapGet key k2)).

End Invariants.

(** ** Concrete inputs used below *)

Module Examples.
Import JS Matching Matcher Spec.
Local Open Scope string_scope.

(** A matcher that has loaded nothing, with a reachable database. *)
Definition emptyState : State :=
  {| manualMappings := ∅; cachedMappings := ∅; table := []; dbUp := true;
     jsonFile := None; nextId := 0; clock := 1700000000000 |}.

(** A question and two candidates that score the same overall: the first
    shares three of the four keyword groups and resolves the same day, the
    second shares all four and resolves 31 days later. *)
Definition tieQuestion : Poly.t :=
  Poly.mk "0xabc" "Democrat above Republican 2024 popular vote" 0 None ["Yes"; "No"].

Definition tieFirst : Kalshi.t :=
  Kalshi.mk "FIRST" "Democrat oven Republican 2024 popular vote" 0 None.

Definition tieSecond : Kalshi.t :=
  Kalshi.mk "SECOND" "Democrat over Republican 2024 popular vote" (31 * 86400000) None.

(** A stored row whose confidence is below both thresholds. *)
Definition staleRow : Row :=
  {| r_id := 7; polymarket_condition_id := "0x123"; kalshi_ticker := "OLD-TICKER";
     description := "an old match"; match_confidence := 0.30; match_method := scored fuzzy;
     resolution_date := 0; is_active := true; created_at := 0; updated_at := 0 |}.

Definition staleState : State :=
  loadMappings
    {| manualMappings := ∅; cachedMappings := ∅; table := [staleRow]; dbUp := true;
       jsonFile := None; nextId := 8; clock := 1700000000000 |}.

(** The mapping [loadMappings] makes of that row. *)
Definition staleMapping : EventMapping :=
  {| id := 7; polymarketConditionId := "0x123"; kalshiTicker := "OLD-TICKER";
     eventDescription := "an old match"; matchConfidence := 0.30;
     resolutionDate := 0; matchMethod := scored fuzzy; outcomeMapping := [];
     isActive := true; createdAt := 0; updatedAt := 0; scoreBreakdown := None;
     needsReview := None |}.

(** A stored row with a confidence above the trading threshold, in a
    matcher that has loaded it. *)
Definition tradableRow : Row :=
  {| r_id := 3; polymarket_condition_id := "0x123"; kalshi_ticker := "PRES-2024-TRUMP";
     description := "Trump 2024"; match_confidence := 0.95; match_method := scored keyword;
     resolution_date := 0; is_active := true; created_at := 0; updated_at := 0 |}.

Definition tradableState : State :=
  loadMappings
    {| manualMappings := ∅; cachedMappings := ∅; table := [tradableRow]; dbUp := true;
       jsonFile := None; nextId := 4; clock := 1700000000000 |}.

(** A mapping whose confidence is just below the trading threshold. *)
Definition nearMapping : EventMapping :=
  {| id := 7; polymarketConditionId := "0x748"; kalshiTicker := "NEAR";
     eventDescription := "Will it happen?"; matchConfidence := 0.7483695652173913;
     resolutionDate := 0; matchMethod := scored combined;
     outcomeMapping := [ {| polymarketOutcome := "Yes"; kalshiSide := yes |};
                         {| polymarketOutcome := "No"; kalshiSide := no |} ];
     isActive := true; createdAt := 0; updatedAt := 0; scoreBreakdown := None;
     needsReview := Some true |}.

(** A question whose outcomes are not Yes and No, and a candidate with the
    same title. *)
Definition upDownQuestion : Poly.t :=
  Poly.mk "0xbtc" "Bitcoin Up or Down on June 1?" 0 None ["Up"; "Down"].

Definition upDownCandidate : Kalshi.t :=
  Kalshi.mk "BTC-UPDOWN" "Bitcoin up or down on June 1?" 0 None.

(** Two questions whose titles are equal after lowercasing and trimming,
    resolving 31 days apart. *)
Definition sameTitleQuestion : Poly.t :=
  Poly.mk "0xeth" "Will ETH close above 5000?" 0 None ["Yes"; "No"].

Definition sameTitleCandidate : Kalshi.t :=
  Kalshi.mk "ETH-5000" " will eth close above 5000? " (31 * 86400000) None.

(** Two groups under one canonical name, and a group whose synonym is
    written in capitals. *)
Definition sameNameGroups : list KeywordGroup :=
  [ {| canonical := "btc"; synonyms := ["bitcoin"]; weight := 1 |};
    {| canonical := "btc"; synonyms := ["btc"]; weight := 1 |} ].

Definition capitalGroups : list KeywordGroup :=
  [ {| canonical := "btc"; synonyms := ["BTC"]; weight := 1 |} ].

(** Two groups under one canonical name with different weights, and a
    third group. *)
Definition mixedWeightGroups : list KeywordGroup :=
  [ {| canonical := "btc"; synonyms := ["bitcoin"]; weight := 0.5 |};
    {| canonical := "btc"; synonyms := ["btc"]; weight := 1 |};
    {| canonical := "up"; synonyms := ["above"]; weight := 0.9 |} ].

(** The first example of [enhanced-matching.ts] with both questions
    resolving at the same instant [t]. *)
Definition trumpQuestion (t : Z) : Poly.t :=
  Poly.mk "0x123" "Will Donald Trump win the 2024 Presidential Election?" t
          (Some "politics") ["Yes"; "No"].

Definition republicanCandidate (t : Z) : Kalshi.t :=
  Kalshi.mk "PRES-2024-TRUMP"
            "Will the Republican candidate win the 2024 presidential election?" t
            (Some "Politics").

End Examples.

(** ** [src/scripts/build-mappings.ts]: what the script does with the mappings *)

Module BuildMappings.
Import JS Matching Matcher.

(** [mappings.filter(m => m.matchConfidence >= 0.60)] *)
Definition goodMappings (mappings : list EventMapping) : list EventMapping :=
  List.filter (fun m => Qle_bool 0.60 (matchConfidence m)) mappings.

(** [goodMappings.filter(m => m.matchConfidence >= 0.75)] *)
Definition tier1 (goodMappings : list EventMapping) : list EventMapping :=
  List.filter (fun m => Qle_bool 0.75 (matchConfidence m)) goodMappings.

(** [goodMappings.filter(m => m.matchConfidence >= 0.60 && m.matchConfidence < 0.75)] *)
Definition tier2 (goodMappings : list EventMapping) : list EventMapping :=
  List.filter (fun m => Qle_bool 0.60 (matchConfidence m) && Qltb (matchConfidence m) 0.75)
              goodMappings.

(** An entry of [output.mappings]; [isActive] is written as [true]. *)
Definition toJsonRow (m : EventMapping) : JsonRow :=
  {| j_id := id m; j_polymarketConditionId := polymarketConditionId m;
     j_kalshiTicker := kalshiTicker m; j_eventDescription := eventDescription m;
     j_matchConfidence := matchConfidence m; j_resolutionDate := resolutionDate m;
     j_matchMethod := matchMethod m; j_outcomeMapping := Some (outcomeMapping m);
     j_isActive := Some true |}.

(** The content of [./data/event_mappings.json] as [loadMappings] reads it
    back: [generated] and the entries. *)
Definition outputFile (generated : Z) (mappings : list EventMapping) : Z * list JsonRow :=
  (generated, map toJsonRow (goodMappings mappings)).

End BuildMappings.

(** ** Reference notions for the edit distance and for the stores *)

Module Reference.
Import JS Matching Matcher.

(** The table of the edit-distance recurrence: cell [(i, j)] compares the
    first [i] characters of [s1] with the first [j] characters of [s2]. *)
Fixpoint levTable (s1 s2 : string) (i : nat) : nat -> nat :=
  match i with
  | O => fun j => j
  | S i' =>
      fix row (j : nat) : nat :=
        match j with
        | O => S i'
        | S j' =>
            if String.eqb (charAt s1 i') (charAt s2 j') then levTable s1 s2 i' j'
            else (Nat.min (Nat.min (levTable s1 s2 i' j') (row j'))
                          (levTable s1 s2 i' (S j')) + 1)%nat
        end
  end.

(** [costs] holds row [i] of the table. *)
Definition rowIs (s1 s2 : string) (i : nat) (costs : list nat) : Prop :=
  length costs = (String.length s2 + 1)%nat
  /\ forall x, (x <= String.length s2)%nat -> arrayGet costs x = levTable s1 s2 i x.

(** The inner loop of row [i >= 1] before the turn for [j]: cells below
    [j - 1] hold row [i], cells from [j - 1] on hold row [i - 1], and
    [lastValue] is cell [j - 1] of row [i]. *)
Definition innerIs (s1 s2 : string) (i j : nat) (st : list nat * nat) : Prop :=
  length (fst st) = (String.length s2 + 1)%nat
  /\ (forall x, (x + 1 < j)%nat -> arrayGet (fst st) x = levTable s1 s2 i x)
  /\ (forall x, (j <= x + 1)%nat -> (x <= String.length s2)%nat ->
                arrayGet (fst st) x = levTable s1 s2 (i - 1) x)
  /\ snd st = levTable s1 s2 i (j - 1).

(** The characters of a string. *)
Definition chars (s : string) : list ascii := list_ascii_of_string s.

(** A token is made of lowercase letters, digits and underscores. *)
Definition plainChar (c : ascii) : bool := isWord c && negb (isUpper c).

(** Every cached mapping is stored under its own condition id. *)
Definition keysAgree (st : State) : Prop :=
  forall key m, cachedMappings st !! key = Some m -> polymarketConditionId m = key.

(** What a reload from the table keeps of a mapping: the confidence is the
    one the column holds, the outcome correspondence and the two added
    properties are gone, the dates are the ones of the row. *)
Definition reloaded (now : Z) (m : EventMapping) : EventMapping :=
  {| id := id m; polymarketConditionId := polymarketConditionId m;
     kalshiTicker := kalshiTicker m; eventDescription := eventDescription m;
     matchConfidence := decimal32 (matchConfidence m); resolutionDate := resolutionDate m;
     matchMethod := matchMethod m; outcomeMapping := []; isActive := isActive m;
     createdAt := now; updatedAt := now; scoreBreakdown := None; needsReview := None |}.

(** What a reload from the JSON file keeps of a mapping. *)
Definition rereadJson (generated : Z) (m : EventMapping) : EventMapping :=
  {| id := id m; polymarketConditionId := polymarketConditionId m;
     kalshiTicker := kalshiTicker m; eventDescription := eventDescription m;
     matchConfidence := matchConfidence m; resolutionDate := resolutionDate m;
     matchMethod := matchMethod m; outcomeMapping := outcomeMapping m; isActive := true;
     createdAt := generated; updatedAt := generated; scoreBreakdown := None;
     needsReview := None |}.

(** A matcher that has never loaded or saved anything. *)
Definition freshMaps (st : State) : State := setMaps st ∅ ∅.

End Reference.

(** * Properties *)

Import JS Matching Matcher Spec Invariants Examples.
Local Open Scope Q_scope.

(** ** Order on numbers *)

Lemma Qltb_lt (x y : Q) : Qltb x y = true <-> x < y.
Proof.
  unfold Qltb. rewrite negb_true_iff. split.
  - intros H. apply Qnot_le_lt. intros Hle. apply Qle_bool_iff in Hle. congruence.
  - intros H. destruct (Qle_bool y x) eqn:E; [|reflexivity].
    apply Qle_bool_iff in E. exfalso. exact (Qlt_not_le _ _ H E).
Qed.

Lemma Qltb_ge (x y : Q) : Qltb x y = false <-> y <= x.
Proof.
  unfold Qltb. rewrite negb_false_iff. apply Qle_bool_iff.
Qed.

Lemma Qle_bool_lt (x y : Q) : Qle_bool x y = false <-> y < x.
Proof.
  rewrite <- Qltb_lt. unfold Qltb. rewrite negb_true_iff. reflexivity.
Qed.

Ltac qprop :=
  repeat match goal with
  | H : Qle_bool _ _ = true |- _ => apply Qle_bool_iff in H
  | H : Qle_bool _ _ = false |- _ => apply Qle_bool_lt in H
  | H : Qltb _ _ = true |- _ => apply Qltb_lt in H
  | H : Qltb _ _ = false |- _ => apply Qltb_ge in H
  end.

(** ** The classifier *)

(** C4: titles that are equal after lowercasing and trimming give overall
    exactly 1 and method [exact]. *)
Theorem calculateMatchScore_exact (p : Poly.t) (k : Kalshi.t) :
  norm (Poly.title p) = norm (Kalshi.title k) ->
  overall (calculateMatchScore p k) = 1 /\ method (calculateMatchScore p k) = exact.
Proof.
  unfold norm, calculateMatchScore. intros ->.
  rewrite String.eqb_refl. split; reflexivity.
Qed.

Lemma calculateMatchScore_exact_witness :
  overall (calculateMatchScore
             (Poly.mk "0x1" "  Will BTC hit 100k? " 0 None ["Yes"; "No"]%string)
             (Kalshi.mk "BTC" "will btc HIT 100K?" 5 None)) = 1
  /\ method (calculateMatchScore
               (Poly.mk "0x1" "  Will BTC hit 100k? " 0 None ["Yes"; "No"]%string)
               (Kalshi.mk "BTC" "will btc HIT 100K?" 5 None)) = exact.
Proof.
  apply calculateMatchScore_exact. reflexivity.
Defined.

(** C3: when the normalized titles differ, the overall score is the weighted
    sum 0.40 keyword + 0.30 token + 0.15 fuzzy + 0.10 date + 0.05 category of
    the component scores, each the value of its scoring function (the
    category score being the constant 0.5). *)
Theorem calculateMatchScore_weighted (p : Poly.t) (k : Kalshi.t) :
  norm (Poly.title p) <> norm (Kalshi.title k) ->
  let s := calculateMatchScore p k in
  overall s = 0.40 * s_keyword s + 0.30 * s_token s + 0.15 * s_fuzzy s
              + 0.10 * s_date s + 0.05 * s_category s
  /\ s_keyword s = keywordOverlapScore (Poly.title p) (Kalshi.title k)
                     (POLITICAL_KEYWORDS ++ CRYPTO_KEYWORDS)
  /\ s_token s = tokenOverlapScore (Poly.title p) (Kalshi.title k)
  /\ s_fuzzy s = levenshteinSimilarity (norm (Poly.title p)) (norm (Kalshi.title k))
  /\ s_date s = dateScore (Poly.endDate p) (Kalshi.expirationTime k)
  /\ s_category s = 0.5.
Proof.
  intros Hne s. subst s. unfold norm in *. unfold calculateMatchScore.
  apply String.eqb_neq in Hne. rewrite Hne.
  repeat match goal with |- context [if ?b then _ else _] => destruct b end;
    repeat split; reflexivity.
Qed.

Lemma calculateMatchScore_weighted_witness :
  let s := calculateMatchScore poly1 (Kalshi.mk "PRES-2024-OTHER"
             "Will Biden win the 2024 election?" 1730851200000 (Some "Politics"%string)) in
  overall s = 0.40 * s_keyword s + 0.30 * s_token s + 0.15 * s_fuzzy s
              + 0.10 * s_date s + 0.05 * s_category s.
Proof.
  intros s.
  refine (proj1 (calculateMatchScore_weighted poly1 (Kalshi.mk "PRES-2024-OTHER"
             "Will Biden win the 2024 election?" 1730851200000 (Some "Politics"%string)) _)).
  vm_compute. discriminate.
Defined.

(** ** Date proximity *)

(** The date-proximity step on two timestamps: a function of the absolute
    difference in days [d] only. *)
Lemma dateScore_cases (t1 t2 : Z) :
  let d := days t1 t2 in
  (d <= 7 /\ dateScore t1 t2 = 1)
  \/ (7 < d /\ d <= 30 /\ dateScore t1 t2 = 0.7 + 0.3 * (30 - d) / 23)
  \/ (30 < d /\ dateScore t1 t2 = 0).
Proof.
  intros d. unfold dateScore. change (dateDiffDays t1 t2) with d.
  destruct (Qltb 30 d) eqn:E30.
  - right; right. apply Qltb_lt in E30. auto.
  - apply Qltb_ge in E30. destruct (Qltb 7 d) eqn:E7.
    + right; left. apply Qltb_lt in E7. auto.
    + left. apply Qltb_ge in E7. auto.
Qed.

(** C5, as stated, fails for two questions whose titles are equal after
    lowercasing and trimming: the resolution times are 31 days apart and
    the date score returned is 1, not 0. *)
Lemma date_score_counterexample :
  days (Poly.endDate sameTitleQuestion) (Kalshi.expirationTime sameTitleCandidate) == 31
  /\ s_date (cms sameTitleQuestion sameTitleCandidate) = 1
  /\ ~ s_date (cms sameTitleQuestion sameTitleCandidate) == 0.
Proof.
  split; [vm_compute; reflexivity|]. split; [vm_compute; reflexivity|].
  intros H. vm_compute in H. discriminate H.
Qed.

(** C5, amended: for two questions whose titles differ after lowercasing
    and trimming, the date score that [calculateMatchScore] returns depends
    on the two resolution times through the absolute difference in days [d]
    only: 1 when d <= 7, 0.7 + 0.3 (30 - d) / 23 when 7 < d <= 30, and 0
    when d > 30; so 1 at d = 0 and 0 at d = 31.  When the titles are equal
    after lowercasing and trimming, the date score returned is 1 at every
    distance. *)
Theorem calculateMatchScore_date (p : Poly.t) (k : Kalshi.t) :
  let d := days (Poly.endDate p) (Kalshi.expirationTime k) in
  (norm (Poly.title p) <> norm (Kalshi.title k) ->
   ((d <= 7 /\ s_date (cms p k) = 1)
    \/ (7 < d /\ d <= 30 /\ s_date (cms p k) = 0.7 + 0.3 * (30 - d) / 23)
    \/ (30 < d /\ s_date (cms p k) = 0))
   /\ (d == 0 -> s_date (cms p k) = 1)
   /\ (d == 31 -> s_date (cms p k) = 0))
  /\ (norm (Poly.title p) = norm (Kalshi.title k) -> s_date (cms p k) = 1).
Proof.
  intros d. split.
  - intros Hne.
    assert (Hs : s_date (cms p k) = dateScore (Poly.endDate p) (Kalshi.expirationTime k)).
    { unfold calculateMatchScore, norm in *. apply String.eqb_neq in Hne. rewrite Hne.
      repeat match goal with |- context [if ?b then _ else _] => destruct b end;
        reflexivity. }
    rewrite Hs.
    pose proof (dateScore_cases (Poly.endDate p) (Kalshi.expirationTime k)) as Hc.
    cbv zeta in Hc. fold d in Hc.
    split; [exact Hc|]. split; intros Hd.
    + destruct Hc as [(_ & H) | [(H & _) | (H & _)]]; [exact H | |];
        rewrite Hd in H; discriminate H.
    + destruct Hc as [(H & _) | [(_ & H & _) | (_ & H)]]; [| | exact H];
        rewrite Hd in H; exfalso; apply H; reflexivity.
  - intros He. unfold calculateMatchScore, norm in *. rewrite He, String.eqb_refl.
    reflexivity.
Qed.

Lemma calculateMatchScore_date_witness :
  s_date (cms poly1 (Kalshi.mk "X" "Will Biden win?" (1730764800000 + 31 * msPerDay) None))
  = 0.
Proof.
  refine (proj2 (proj2 (proj1 (calculateMatchScore_date poly1
            (Kalshi.mk "X" "Will Biden win?" (1730764800000 + 31 * msPerDay) None)) _)) _).
  - vm_compute. discriminate.
  - vm_compute. reflexivity.
Defined.

(** ** Best-match selection *)

Ltac in_snoc H k :=
  apply in_app_iff in H; destruct H as [H|H]; [|destruct H as [H|[]]; subst k].


(** What the loop of [findBestMatch] leaves in [(bestMatch, bestOverall)]:
    nothing when no candidate scores above 0, and otherwise the first
    candidate that reaches the highest overall score. *)
Lemma fold_bestStep (p : Poly.t) (ks : list Kalshi.t) :
  let r := fold_left (bestStep p) ks (None, 0) in
  (fst r = None /\ snd r = 0 /\ forall k, In k ks -> overall (cms p k) <= 0)
  \/ (exists i k,
        ks !! i = Some k /\ fst r = Some (k, cms p k) /\ snd r = overall (cms p k)
        /\ 0 < overall (cms p k)
        /\ (forall k', In k' ks -> overall (cms p k') <= overall (cms p k))
        /\ (forall j k', (j < i)%nat -> ks !! j = Some k' ->
                         overall (cms p k') < overall (cms p k))).
Proof.
  induction ks as [|x ks IH] using rev_ind; simpl.
  - left. repeat split; auto. intros k [].
  - rewrite fold_left_app. simpl.
    set (r := fold_left (bestStep p) ks (None, 0)) in *.
    cbv zeta in IH.
    destruct (Qltb (snd r) (overall (cms p x))) eqn:E.
    + assert (Hstep : bestStep p r x = (Some (x, cms p x), overall (cms p x)))
        by (unfold bestStep; rewrite E; reflexivity).
      rewrite Hstep. simpl.
      apply Qltb_lt in E. right. exists (length ks), x.
      split; [apply list_lookup_middle; reflexivity|].
      split; [reflexivity|]. split; [reflexivity|].
      destruct IH as [(Hn & H0 & Hall) | (i & k & Hi & Hb & Ho & Hpos & Hall & Hlt)].
      * rewrite H0 in E. split; [exact E|]. split.
        -- intros k' Hin. in_snoc Hin k'.
           ++ apply Qle_trans with 0; [apply Hall, Hin | apply Qlt_le_weak, E].
           ++ apply Qle_refl.
        -- intros j k' Hj Hk'. rewrite lookup_app_l in Hk' by exact Hj.
           apply Qle_lt_trans with 0; [|exact E].
           apply Hall. apply list_elem_of_In. eapply list_elem_of_lookup_2, Hk'.
      * rewrite Ho in E. split; [apply Qlt_trans with (overall (cms p k)); auto|].
        split.
        -- intros k' Hin. in_snoc Hin k'.
           ++ apply Qle_trans with (overall (cms p k)); [apply Hall, Hin | apply Qlt_le_weak, E].
           ++ apply Qle_refl.
        -- intros j k' Hj Hk'. rewrite lookup_app_l in Hk' by exact Hj.
           apply Qle_lt_trans with (overall (cms p k)); [|exact E].
           apply Hall. apply list_elem_of_In. eapply list_elem_of_lookup_2, Hk'.
    + assert (Hstep : bestStep p r x = r)
        by (unfold bestStep; rewrite E; reflexivity).
      rewrite Hstep.
      apply Qltb_ge in E.
      destruct IH as [(Hn & H0 & Hall) | (i & k & Hi & Hb & Ho & Hpos & Hall & Hlt)].
      * left. split; [exact Hn|]. split; [exact H0|].
        intros k' Hin. in_snoc Hin k'; [apply Hall, Hin|].
        rewrite H0 in E. exact E.
      * right. exists i, k.
        pose proof (lookup_lt_Some _ _ _ Hi) as Hlen.
        split; [rewrite lookup_app_l by exact Hlen; exact Hi|].
        split; [exact Hb|]. split; [exact Ho|]. split; [exact Hpos|]. split.
        -- intros k' Hin. in_snoc Hin k'; [apply Hall, Hin|].
           rewrite Ho in E. exact E.
        -- intros j k' Hj Hk'. apply (Hlt j k' Hj).
           rewrite lookup_app_l in Hk' by lia. exact Hk'.
Qed.

(** The same for the loop of [findKalshiEquivalent], which skips the
    candidates below the review threshold. *)
Lemma fold_equivalentStep (config : MatchingConfig) (p : Poly.t) (ks : list Kalshi.t) :
  let r := fold_left (equivalentStep config p) ks None in
  (r = None /\ forall k, In k ks -> overall (cms p k) < reviewConfidenceThreshold config)
  \/ (exists i k,
        ks !! i = Some k /\ r = Some (k, cms p k)
        /\ reviewConfidenceThreshold config <= overall (cms p k)
        /\ (forall k', In k' ks -> overall (cms p k') <= overall (cms p k))
        /\ (forall j k', (j < i)%nat -> ks !! j = Some k' ->
                         overall (cms p k') < overall (cms p k))).
Proof.
  induction ks as [|x ks IH] using rev_ind; simpl.
  - left. split; auto. intros k [].
  - rewrite fold_left_app. simpl.
    set (r := fold_left (equivalentStep config p) ks None) in *.
    cbv zeta in IH. unfold equivalentStep.
    destruct (Qltb (overall (cms p x)) (reviewConfidenceThreshold config)) eqn:Ethr.
    + apply Qltb_lt in Ethr.
      destruct IH as [(Hn & Hall) | (i & k & Hi & Hb & Hthr & Hall & Hlt)].
      * left. split; [exact Hn|].
        intros k' Hin. in_snoc Hin k'; [apply Hall, Hin | exact Ethr].
      * right. exists i, k.
        pose proof (lookup_lt_Some _ _ _ Hi) as Hlen.
        split; [rewrite lookup_app_l by exact Hlen; exact Hi|].
        split; [exact Hb|]. split; [exact Hthr|]. split.
        -- intros k' Hin. in_snoc Hin k'; [apply Hall, Hin|].
           apply Qlt_le_weak. apply Qlt_le_trans with (reviewConfidenceThreshold config);
             [assumption || apply Hall, Hin | assumption].
        -- intros j k' Hj Hk'. apply (Hlt j k' Hj).
           rewrite lookup_app_l in Hk' by lia. exact Hk'.
    + apply Qltb_ge in Ethr.
      destruct IH as [(Hn & Hall) | (i & k & Hi & Hb & Hthr & Hall & Hlt)].
      * rewrite Hn. right. exists (length ks), x.
        split; [apply list_lookup_middle; reflexivity|].
        split; [reflexivity|]. split; [exact Ethr|]. split.
        -- intros k' Hin. in_snoc Hin k'; [|apply Qle_refl].
           apply Qlt_le_weak. apply Qlt_le_trans with (reviewConfidenceThreshold config);
             [assumption || apply Hall, Hin | assumption].
        -- intros j k' Hj Hk'. rewrite lookup_app_l in Hk' by exact Hj.
           apply Qlt_le_trans with (reviewConfidenceThreshold config); [|exact Ethr].
           apply Hall. apply list_elem_of_In. eapply list_elem_of_lookup_2, Hk'.
      * rewrite Hb.
        destruct (Qltb (overall (cms p k)) (overall (cms p x))) eqn:E.
        -- apply Qltb_lt in E. right. exists (length ks), x.
           split; [apply list_lookup_middle; reflexivity|].
           split; [reflexivity|]. split; [exact Ethr|]. split.
           ++ intros k' Hin. in_snoc Hin k'; [|apply Qle_refl].
              apply Qle_trans with (overall (cms p k)); [apply Hall, Hin | apply Qlt_le_weak, E].
           ++ intros j k' Hj Hk'. rewrite lookup_app_l in Hk' by exact Hj.
              apply Qle_lt_trans with (overall (cms p k)); [|exact E].
              apply Hall. apply list_elem_of_In. eapply list_elem_of_lookup_2, Hk'.
        -- apply Qltb_ge in E. right. exists i, k.
           pose proof (lookup_lt_Some _ _ _ Hi) as Hlen.
           split; [rewrite lookup_app_l by exact Hlen; exact Hi|].
           split; [reflexivity|]. split; [exact Hthr|]. split.
           ++ intros k' Hin. in_snoc Hin k'; [apply Hall, Hin | exact E].
           ++ intros j k' Hj Hk'. apply (Hlt j k' Hj).
              rewrite lookup_app_l in Hk' by lia. exact Hk'.
Qed.


(** [findBestMatch] returns the first candidate of highest overall score,
    provided that score reaches 0.60. *)
Lemma findBestMatch_Some (p : Poly.t) (ks : list Kalshi.t) (r : MatchResult) :
  findBestMatch p ks = Some r ->
  exists i k,
    ks !! i = Some k
    /\ r = {| matched := true; Matching.kalshiTicker := Kalshi.ticker k;
              kalshiTitle := Kalshi.title k; score := cms p k;
              Matching.needsReview := Qltb (overall (cms p k)) 0.75;
              shouldTrade := Qle_bool 0.75 (overall (cms p k)) |}
    /\ 0.60 <= overall (cms p k)
    /\ (forall k', In k' ks -> overall (cms p k') <= overall (cms p k))
    /\ (forall j k', (j < i)%nat -> ks !! j = Some k' ->
                     overall (cms p k') < overall (cms p k)).
Proof.
  unfold findBestMatch. intros H.
  destruct (fold_bestStep p ks) as [(Hn & _) | (i & k & Hi & Hb & _ & _ & Hall & Hlt)].
  - rewrite Hn in H. discriminate.
  - rewrite Hb in H.
    destruct (Qle_bool 0.60 (overall (cms p k))) eqn:E; simpl in H; [|discriminate].
    injection H as <-. exists i, k. qprop. repeat split; auto.
Qed.

Lemma findBestMatch_None (p : Poly.t) (ks : list Kalshi.t) :
  findBestMatch p ks = None ->
  forall k, In k ks -> overall (cms p k) < 0.60.
Proof.
  unfold findBestMatch. intros H k Hin.
  destruct (fold_bestStep p ks) as [(Hn & _ & Hall) | (i & k0 & Hi & Hb & _ & _ & Hall & _)].
  - apply Qle_lt_trans with 0; [auto | reflexivity].
  - rewrite Hb in H.
    destruct (Qle_bool 0.60 (overall (cms p k0))) eqn:E; simpl in H; [discriminate|].
    qprop. apply Qle_lt_trans with (overall (cms p k0)); auto.
Qed.


(** Without an active cached mapping, [findKalshiEquivalent] either finds no
    candidate at the review threshold and changes nothing, or makes and
    saves the mapping for the first candidate of highest overall score. *)
Lemma findKalshiEquivalent_search (config : MatchingConfig) (st : State)
    (p : Poly.t) (ks : list Kalshi.t) :
  noActiveCached st p ->
  (findKalshiEquivalent config st p ks = (None, st)
   /\ forall k, In k ks -> overall (cms p k) < reviewConfidenceThreshold config)
  \/ (exists i k,
        ks !! i = Some k
        /\ findKalshiEquivalent config st p ks
           = (Some (mappingFor config st p k),
              saveMapping (snd (generateId st)) (mappingFor config st p k))
        /\ reviewConfidenceThreshold config <= overall (cms p k)
        /\ (forall k', In k' ks -> overall (cms p k') <= overall (cms p k))
        /\ (forall j k', (j < i)%nat -> ks !! j = Some k' ->
                         overall (cms p k') < overall (cms p k))).
Proof.
  intros Hno. unfold findKalshiEquivalent.
  assert (Hc : match cachedMappings st !! Poly.conditionId p with
               | Some c => isActive c
               | None => false
               end = false).
  { destruct (cachedMappings st !! Poly.conditionId p) as [c|] eqn:E; [|reflexivity].
    apply Hno. exact E. }
  rewrite Hc.
  destruct (fold_equivalentStep config p ks)
    as [(Hn & Hall) | (i & k & Hi & Hb & Hthr & Hall & Hlt)].
  - left. rewrite Hn. auto.
  - right. exists i, k. rewrite Hb. repeat split; auto.
Qed.

(** C1: let [o] be the best overall score among the candidates.  If
    [o >= 0.75] the result is marked auto-approve ([shouldTrade] true,
    [needsReview] false); if [0.60 <= o < 0.75] it is marked review
    ([needsReview] true, [shouldTrade] false); if [o < 0.60] no result is
    produced: [findBestMatch] returns null, and [findKalshiEquivalent]
    (default thresholds, no cached mapping) creates no mapping and leaves
    the matcher as it was.  The mapping [findKalshiEquivalent] creates in
    the first two cases carries the same review mark, and
    [canTradeOnMapping] accepts it in the first case only. *)
Theorem tiering (p : Poly.t) (ks : list Kalshi.t) (o : Q) (st : State) :
  bestOverall p ks o ->
  noActiveCached st p ->
  (0.75 <= o ->
     (exists r, findBestMatch p ks = Some r
                /\ shouldTrade r = true /\ Matching.needsReview r = false)
     /\ (exists m st', findKalshiEquivalent defaultConfig st p ks = (Some m, st')
                       /\ Matcher.needsReview m = Some false
                       /\ canTradeOnMapping defaultConfig m = true))
  /\ (0.60 <= o -> o < 0.75 ->
     (exists r, findBestMatch p ks = Some r
                /\ Matching.needsReview r = true /\ shouldTrade r = false)
     /\ (exists m st', findKalshiEquivalent defaultConfig st p ks = (Some m, st')
                       /\ Matcher.needsReview m = Some true
                       /\ canTradeOnMapping defaultConfig m = false))
  /\ (o < 0.60 ->
     findBestMatch p ks = None
     /\ findKalshiEquivalent defaultConfig st p ks = (None, st)).
Proof.
  intros [(k0 & Hin0 & Ho0) Hmax] Hno.
  (* findBestMatch *)
  assert (HB : (o < 0.60 /\ findBestMatch p ks = None)
               \/ (0.60 <= o /\ exists r, findBestMatch p ks = Some r
                     /\ shouldTrade r = Qle_bool 0.75 o
                     /\ Matching.needsReview r = Qltb o 0.75)).
  { destruct (findBestMatch p ks) as [r|] eqn:E.
    - right. apply findBestMatch_Some in E as (i & k & Hi & -> & Hthr & Hall & _).
      assert (Hk : In k ks) by (apply list_elem_of_In; eapply list_elem_of_lookup_2, Hi).
      assert (Heq : overall (cms p k) == o).
      { apply Qle_antisym; [apply Hmax, Hk | rewrite <- Ho0; apply Hall, Hin0]. }
      split; [rewrite <- Heq; exact Hthr|].
      eexists; split; [reflexivity|]. simpl.
      split; [apply Qleb_comp; [reflexivity | exact Heq]|].
      unfold Qltb. f_equal. apply Qleb_comp; [reflexivity | exact Heq].
    - left. split; [|reflexivity].
      rewrite <- Ho0. eapply findBestMatch_None; eauto. }
  (* findKalshiEquivalent *)
  assert (HK : (o < 0.60 /\ findKalshiEquivalent defaultConfig st p ks = (None, st))
               \/ (0.60 <= o /\ exists m st',
                     findKalshiEquivalent defaultConfig st p ks = (Some m, st')
                     /\ Matcher.needsReview m = Some (Qltb o 0.75)
                     /\ canTradeOnMapping defaultConfig m = negb (Qltb o 0.75))).
  { destruct (findKalshiEquivalent_search defaultConfig st p ks Hno)
      as [(Hn & Hall) | (i & k & Hi & Hr & Hthr & Hall & _)].
    - left. split; [|exact Hn]. rewrite <- Ho0. apply (Hall k0 Hin0).
    - right.
      assert (Hk : In k ks) by (apply list_elem_of_In; eapply list_elem_of_lookup_2, Hi).
      assert (Heq : overall (cms p k) == o).
      { apply Qle_antisym; [apply Hmax, Hk | rewrite <- Ho0; apply Hall, Hin0]. }
      split; [rewrite <- Heq; exact Hthr|].
      do 2 eexists. split; [exact Hr|].
      assert (Hb : Qltb (overall (cms p k)) 0.75 = Qltb o 0.75).
      { unfold Qltb. f_equal. apply Qleb_comp; [reflexivity | exact Heq]. }
      unfold canTradeOnMapping. simpl. rewrite Hb.
      split; [reflexivity|]. destruct (Qltb o 0.75); reflexivity. }
  split; [|split].
  - intros H75.
    assert (E1 : Qle_bool 0.75 o = true) by (apply Qle_bool_iff, H75).
    assert (E2 : Qltb o 0.75 = false) by (apply Qltb_ge, H75).
    split.
    + destruct HB as [(Hlt & _) | (_ & r & Hr & Hs & Hn)].
      * exfalso. apply (Qlt_not_le _ _ Hlt). apply Qle_trans with 0.75; [discriminate | exact H75].
      * exists r. rewrite Hs, Hn, E1, E2. auto.
    + destruct HK as [(Hlt & _) | (_ & m & st' & Hr & Hn & Hc)].
      * exfalso. apply (Qlt_not_le _ _ Hlt). apply Qle_trans with 0.75; [discriminate | exact H75].
      * exists m, st'. rewrite Hn, Hc, E2. auto.
  - intros H60 H75.
    assert (E1 : Qle_bool 0.75 o = false) by (apply Qle_bool_lt, H75).
    assert (E2 : Qltb o 0.75 = true) by (apply Qltb_lt, H75).
    split.
    + destruct HB as [(Hlt & _) | (_ & r & Hr & Hs & Hn)].
      * exfalso. exact (Qlt_not_le _ _ Hlt H60).
      * exists r. rewrite Hs, Hn, E1, E2. auto.
    + destruct HK as [(Hlt & _) | (_ & m & st' & Hr & Hn & Hc)].
      * exfalso. exact (Qlt_not_le _ _ Hlt H60).
      * exists m, st'. rewrite Hn, Hc, E2. auto.
  - intros Hlt. split.
    + destruct HB as [(_ & Hn) | (H60 & _)]; [exact Hn|].
      exfalso. exact (Qlt_not_le _ _ Hlt H60).
    + destruct HK as [(_ & Hn) | (H60 & _)]; [exact Hn|].
      exfalso. exact (Qlt_not_le _ _ Hlt H60).
Qed.

Lemma tiering_witness :
  exists r, findBestMatch poly1 kalshi1 = Some r
            /\ Matching.needsReview r = true /\ shouldTrade r = false.
Proof.
  refine (proj1 (proj1 (proj2 (tiering poly1 kalshi1
            (overall (cms poly1 (Kalshi.mk "PRES-2024-TRUMP"
               "Will the Republican candidate win the 2024 presidential election?"
               1730851200000 (Some "Politics"%string))))
            emptyState _ _)) _ _)).
  - split.
    + eexists. split; [left; reflexivity | reflexivity].
    + intros k [<-|[<-|[]]]; vm_compute; discriminate.
  - intros c H. vm_compute in H. discriminate.
  - vm_compute. discriminate.
  - vm_compute. reflexivity.
Defined.

(** C2, as stated, fails: two candidates have the same overall score, the
    second one has the higher-ranked method ([keyword] against [token]), and
    both [findBestMatch] and [findKalshiEquivalent] return the first. *)
Lemma method_tie_break_counterexample :
  overall (cms tieQuestion tieFirst) == overall (cms tieQuestion tieSecond)
  /\ method (cms tieQuestion tieFirst) = token
  /\ method (cms tieQuestion tieSecond) = keyword
  /\ (exists r, findBestMatch tieQuestion [tieFirst; tieSecond] = Some r
                /\ Matching.kalshiTicker r = "FIRST"%string)
  /\ (exists m st', findKalshiEquivalent defaultConfig emptyState tieQuestion
                      [tieFirst; tieSecond] = (Some m, st')
                    /\ Matcher.kalshiTicker m = "FIRST"%string)
  /\ ~ selects tieQuestion [tieFirst; tieSecond] "FIRST".
Proof.
  split; [vm_compute; reflexivity|].
  split; [vm_compute; reflexivity|].
  split; [vm_compute; reflexivity|].
  split; [eexists; split; [vm_compute; reflexivity | reflexivity]|].
  split.
  - destruct (findKalshiEquivalent_search defaultConfig emptyState tieQuestion
                [tieFirst; tieSecond]) as [(_ & Hall) | (i & k & Hi & Hr & _ & _ & Hlt)].
    + intros c H. vm_compute in H. discriminate H.
    + exfalso. specialize (Hall tieFirst (or_introl eq_refl)).
      vm_compute in Hall. discriminate Hall.
    + do 2 eexists. split; [exact Hr|]. unfold mappingFor. cbn [Matcher.kalshiTicker].
      destruct i as [|[|i]]; cbn [lookup list_lookup] in Hi.
      * injection Hi as <-. reflexivity.
      * exfalso. specialize (Hlt 0%nat tieFirst (Nat.lt_0_succ 0) eq_refl).
        injection Hi as <-. vm_compute in Hlt. discriminate Hlt.
      * discriminate Hi.
  - intros (i & k & Hi & Ht & Hpref).
    destruct i as [|[|i]]; cbn [lookup list_lookup] in Hi; [| |discriminate Hi];
      injection Hi as <-.
    + specialize (Hpref 1%nat tieSecond eq_refl).
      destruct Hpref as [H | (_ & [H | (H & _)])]; vm_compute in H;
        [discriminate H | lia | discriminate H].
    + vm_compute in Ht. discriminate Ht.
Qed.

(** C2, amended: whenever a candidate reaches the review threshold a result
    is returned, and the result is a candidate of highest overall score,
    namely the one of lowest index among those; the methods play no part.
    The result reaches the threshold, and when no candidate reaches it
    nothing is returned.  This holds of [findBestMatch] (threshold 0.60)
    and, when no active mapping is cached, of [findKalshiEquivalent] (the
    configured review threshold), which then leaves the state as it was. *)
Theorem best_match_selection (p : Poly.t) (ks : list Kalshi.t) :
  (forall k, In k ks -> 0.60 <= overall (cms p k) ->
     exists r, findBestMatch p ks = Some r)
  /\ (forall r, findBestMatch p ks = Some r ->
      exists i k,
        ks !! i = Some k
        /\ Matching.kalshiTicker r = Kalshi.ticker k
        /\ kalshiTitle r = Kalshi.title k
        /\ score r = cms p k
        /\ 0.60 <= overall (cms p k)
        /\ (forall k', In k' ks -> overall (cms p k') <= overall (cms p k))
        /\ (forall j k', (j < i)%nat -> ks !! j = Some k' ->
                         overall (cms p k') < overall (cms p k)))
  /\ ((forall k, In k ks -> overall (cms p k) < 0.60) -> findBestMatch p ks = None)
  /\ (forall config st, noActiveCached st p ->
      (forall k, In k ks -> reviewConfidenceThreshold config <= overall (cms p k) ->
         exists m st', findKalshiEquivalent config st p ks = (Some m, st'))
      /\ (forall m st', findKalshiEquivalent config st p ks = (Some m, st') ->
          exists i k,
            ks !! i = Some k
            /\ Matcher.kalshiTicker m = Kalshi.ticker k
            /\ matchConfidence m = overall (cms p k)
            /\ matchMethod m = scored (method (cms p k))
            /\ reviewConfidenceThreshold config <= overall (cms p k)
            /\ (forall k', In k' ks -> overall (cms p k') <= overall (cms p k))
            /\ (forall j k', (j < i)%nat -> ks !! j = Some k' ->
                             overall (cms p k') < overall (cms p k)))
      /\ ((forall k, In k ks -> overall (cms p k) < reviewConfidenceThreshold config) ->
          findKalshiEquivalent config st p ks = (None, st))).
Proof.
  split; [|split; [|split]].
  - intros k Hin Hk. destruct (findBestMatch p ks) as [r|] eqn:E; [eauto|].
    exfalso. apply (Qlt_not_le _ _ (findBestMatch_None p ks E k Hin) Hk).
  - intros r Hr. apply findBestMatch_Some in Hr as (i & k & Hi & -> & Hthr & Hall & Hlt).
    exists i, k. repeat split; auto.
  - intros Hlow. destruct (findBestMatch p ks) as [r|] eqn:E; [|reflexivity].
    exfalso. apply findBestMatch_Some in E as (i & k & Hi & _ & Hthr & _).
    apply (Qlt_not_le _ _ (Hlow k (proj1 (list_elem_of_In _ _) (list_elem_of_lookup_2 _ _ _ Hi))) Hthr).
  - intros config st Hno.
    destruct (findKalshiEquivalent_search config st p ks Hno)
      as [(Hn & Hall) | (i & k & Hi & Hr & Hthr & Hall & Hlt)].
    + split; [|split].
      * intros k Hin Hk. exfalso. exact (Qlt_not_le _ _ (Hall k Hin) Hk).
      * intros m st' H. rewrite Hn in H. discriminate.
      * intros _. exact Hn.
    + split; [|split].
      * intros _ _ _. eauto.
      * intros m st' H. rewrite Hr in H. injection H as <- <-.
        exists i, k. repeat split; auto.
      * intros Hlow. exfalso.
        apply (Qlt_not_le _ _ (Hlow k (proj1 (list_elem_of_In _ _) (list_elem_of_lookup_2 _ _ _ Hi))) Hthr).
Qed.

Lemma best_match_selection_witness :
  exists r, findBestMatch tieQuestion [tieFirst; tieSecond] = Some r.
Proof.
  refine (proj1 (best_match_selection tieQuestion [tieFirst; tieSecond])
                tieFirst (or_introl eq_refl) _).
  vm_compute. discriminate.
Defined.

(** ** The mapping cache *)

(** C10: when an active mapping is cached under the question's condition
    id, [findKalshiEquivalent] returns exactly that mapping and leaves the
    matcher (cache, manual mappings, table, id supply) as it was, whatever
    the candidate list and the thresholds are. *)
Theorem findKalshiEquivalent_cached (config : MatchingConfig) (st : State)
    (p : Poly.t) (ks : list Kalshi.t) (m : EventMapping) :
  cachedMappings st !! Poly.conditionId p = Some m ->
  isActive m = true ->
  findKalshiEquivalent config st p ks = (Some m, st)
  /\ forall config' ks',
       findKalshiEquivalent config' st p ks' = findKalshiEquivalent config st p ks.
Proof.
  intros Hm Ha.
  assert (H : forall c l, findKalshiEquivalent c st p l = (Some m, st)).
  { intros c l. unfold findKalshiEquivalent. rewrite Hm, Ha. reflexivity. }
  split; [apply H|]. intros config' ks'. rewrite !H. reflexivity.
Qed.

Lemma findKalshiEquivalent_cached_witness :
  findKalshiEquivalent defaultConfig staleState poly1 kalshi1
  = (Some staleMapping, staleState).
Proof.
  refine (proj1 (findKalshiEquivalent_cached defaultConfig staleState poly1 kalshi1
                   staleMapping _ _)).
  - vm_compute. reflexivity.
  - reflexivity.
Defined.


(** ** Sets and maps in insertion order *)

Lemma setHas_In (x : string) (s : list string) : setHas x s = true <-> In x s.
Proof.
  unfold setHas. rewrite existsb_exists. split.
  - intros (y & Hy & He). apply String.eqb_eq in He. subst y. exact Hy.
  - intros H. exists x. split; [exact H | apply String.eqb_refl].
Qed.

Lemma fold_setAdd_In (l acc : list string) (x : string) :
  In x (fold_left setAdd l acc) <-> In x acc \/ In x l.
Proof.
  revert acc. induction l as [|a l IH]; intros acc; simpl; [tauto|].
  rewrite IH. unfold setAdd. destruct (setHas a acc) eqn:E.
  - apply setHas_In in E. split; intros [H|H]; auto.
    destruct H as [H|H]; [subst a|]; auto.
  - rewrite in_app_iff. simpl. tauto.
Qed.

Lemma fold_setAdd_NoDup (l acc : list string) :
  NoDup acc -> NoDup (fold_left setAdd l acc).
Proof.
  revert acc. induction l as [|a l IH]; intros acc H; simpl; [exact H|].
  apply IH. unfold setAdd. destruct (setHas a acc) eqn:E; [exact H|].
  apply NoDup_app. split; [exact H|]. split; [|apply NoDup_singleton].
  intros x Hx Hx'. apply list_elem_of_singleton in Hx'. subst x.
  apply list_elem_of_In, setHas_In in Hx. congruence.
Qed.

Lemma newSet_In (l : list string) (x : string) : In x (newSet l) <-> In x l.
Proof. unfold newSet. rewrite fold_setAdd_In. simpl. tauto. Qed.

Lemma newSet_NoDup (l : list string) : NoDup (newSet l).
Proof. apply fold_setAdd_NoDup. constructor. Qed.

(** A set built from a list without duplicates is that list. *)
Lemma fold_setAdd_fresh (l acc : list string) :
  NoDup (acc ++ l) -> fold_left setAdd l acc = (acc ++ l)%list.
Proof.
  revert acc. induction l as [|a l IH]; intros acc H; simpl.
  - rewrite app_nil_r. reflexivity.
  - assert (E : setHas a acc = false).
    { destruct (setHas a acc) eqn:E; [|reflexivity].
      apply setHas_In, list_elem_of_In in E.
      apply NoDup_app in H as (_ & H & _). exfalso. apply (H a E). left. }
    unfold setAdd at 2. rewrite E. rewrite IH.
    + rewrite <- app_assoc. reflexivity.
    + rewrite <- app_assoc. exact H.
Qed.

Lemma newSet_fresh (l : list string) : NoDup l -> newSet l = l.
Proof. intros H. unfold newSet. rewrite fold_setAdd_fresh; auto. Qed.

(** ** Bounds on the component scores *)

Lemma ofNat_nonneg (n : nat) : 0 <= ofNat n.
Proof.
  unfold ofNat. change 0 with (inject_Z 0). rewrite <- Zle_Qle. lia.
Qed.

Lemma ofNat_le (a b : nat) : (a <= b)%nat -> ofNat a <= ofNat b.
Proof. intros H. unfold ofNat. rewrite <- Zle_Qle. lia. Qed.

Lemma ofNat_pos (n : nat) : (0 < n)%nat -> 0 < ofNat n.
Proof.
  intros H. unfold ofNat. change 0 with (inject_Z 0). rewrite <- Zlt_Qlt. lia.
Qed.

Lemma ratio_bounds (a b : Q) : 0 <= a -> a <= b -> 0 < b -> 0 <= a / b /\ a / b <= 1.
Proof.
  intros Ha Hab Hb. split.
  - apply Qle_shift_div_l; [exact Hb|]. lra.
  - apply Qle_shift_div_r; [exact Hb|]. lra.
Qed.

Lemma tokenOverlapScore_bounds (text1 text2 : string) :
  0 <= tokenOverlapScore text1 text2 /\ tokenOverlapScore text1 text2 <= 1.
Proof.
  unfold tokenOverlapScore.
  set (tokens1 := tokenize text1). set (tokens2 := tokenize text2).
  destruct (length tokens1 =? 0)%nat eqn:E1; destruct (length tokens2 =? 0)%nat eqn:E2;
    simpl; try (split; discriminate).
  apply Nat.eqb_neq in E1.
  apply ratio_bounds.
  - apply ofNat_nonneg.
  - apply ofNat_le. apply NoDup_incl_length; [apply NoDup_ListNoDup, newSet_NoDup|].
    intros x Hx. rewrite newSet_In in Hx. rewrite newSet_In.
    apply list_elem_of_In, list_elem_of_filter in Hx as [_ Hx].
    apply in_or_app. left. apply list_elem_of_In. exact Hx.
  - apply ofNat_pos.
    destruct tokens1 as [|t ts] eqn:Et; [simpl in E1; lia|].
    assert (Hin : In t (newSet ((t :: ts) ++ tokens2))) by (rewrite newSet_In; left; reflexivity).
    destruct (newSet ((t :: ts) ++ tokens2)); [destruct Hin | simpl; lia].
Qed.

Lemma dateScore_bounds (t1 t2 : Z) : 0 <= dateScore t1 t2 /\ dateScore t1 t2 <= 1.
Proof.
  unfold dateScore. generalize (dateDiffDays t1 t2) as d. intros d.
  destruct (Qltb 30 d) eqn:E30; [split; discriminate|].
  destruct (Qltb 7 d) eqn:E7; [|split; discriminate].
  qprop. unfold Qdiv. change (/ 23) with (1 # 23). split; lra.
Qed.

Lemma dateScore_same (t : Z) : dateScore t t = 1.
Proof. unfold dateScore, dateDiffDays. rewrite Z.sub_diag. reflexivity. Qed.


Lemma mapGet_nonneg (m : list (string * Q)) (k : string) :
  nonnegMap m -> 0 <= orZero (mapGet k m).
Proof.
  induction m as [|[k' v] m IH]; intros H; simpl; [discriminate|].
  inversion H; subst. destruct (String.eqb k k'); simpl; auto.
Qed.

Lemma mapSet_nonneg (m : list (string * Q)) (k : string) (v : Q) :
  nonnegMap m -> 0 <= v -> nonnegMap (mapSet k v m).
Proof.
  induction m as [|[k' v'] m IH]; intros H Hv; simpl.
  - constructor; [exact Hv | constructor].
  - inversion H; subst. destruct (String.eqb k k'); constructor; simpl; auto.
    apply IH; auto.
Qed.

Lemma scanSynonyms_nonneg (normalized : string) (g : KeywordGroup)
    (syns : list string) (found : list (string * Q)) :
  nonnegMap found -> nonnegMap (scanSynonyms normalized g syns found).
Proof.
  intros H. induction syns as [|s syns IH]; simpl; [exact H|].
  destruct (includes normalized s); [|exact IH].
  apply mapSet_nonneg; [exact H|].
  apply Qle_trans with (orZero (mapGet (canonical g) found)).
  - apply mapGet_nonneg, H.
  - apply Q.le_max_l.
Qed.

Lemma extractKeywords_nonneg (text : string) (groups : list KeywordGroup) :
  nonnegMap (extractKeywords text groups).
Proof.
  unfold extractKeywords.
  assert (H : forall found, nonnegMap found ->
            nonnegMap (fold_left (fun found group =>
              scanSynonyms (toLowerCase text) group (synonyms group) found) groups found)).
  { induction groups as [|g groups IH]; intros found Hf; simpl; [exact Hf|].
    apply IH, scanSynonyms_nonneg, Hf. }
  apply H. constructor.
Qed.

Lemma overlapStep_inv (k1 k2 : list (string * Q)) (keys : list string) (acc : Q * Q) :
  nonnegMap k1 -> nonnegMap k2 ->
  0 <= fst acc -> fst acc <= snd acc ->
  let r := fold_left (overlapStep k1 k2) keys acc in
  0 <= fst r /\ fst r <= snd r.
Proof.
  intros H1 H2. revert acc. induction keys as [|key keys IH]; intros acc Ha Hb; simpl.
  - auto.
  - apply IH; unfold overlapStep; simpl;
      pose proof (mapGet_nonneg k1 key H1) as Hw1;
      pose proof (mapGet_nonneg k2 key H2) as Hw2;
      set (w1 := orZero (mapGet key k1)) in *; set (w2 := orZero (mapGet key k2)) in *;
      pose proof (Q.le_min_l w1 w2) as Hmin; pose proof (Q.le_max_l w1 w2) as Hmax;
      assert (Hmin0 : 0 <= Qmin w1 w2) by (apply Q.min_glb; assumption);
      destruct (Qltb 0 w1 && Qltb 0 w2); lra.
Qed.

Lemma keywordOverlapScore_bounds (text1 text2 : string) (groups : list KeywordGroup) :
  0 <= keywordOverlapScore text1 text2 groups
  /\ keywordOverlapScore text1 text2 groups <= 1.
Proof.
  unfold keywordOverlapScore.
  set (k1 := extractKeywords text1 groups). set (k2 := extractKeywords text2 groups).
  destruct ((length k1 =? 0)%nat && (length k2 =? 0)%nat); [split; discriminate|].
  set (keys := newSet (mapKeys k1 ++ mapKeys k2)).
  destruct (overlapStep_inv k1 k2 keys (0, 0)) as [Hi Hu];
    try apply extractKeywords_nonneg; simpl; try apply Qle_refl.
  destruct (Qltb 0 (snd (fold_left (overlapStep k1 k2) keys (0, 0)))) eqn:E;
    [|split; discriminate].
  qprop. apply ratio_bounds; assumption.
Qed.


(** ** The edit distance stays below the longer length *)

Section Levenshtein.
Local Open Scope nat_scope.

(** An invariant of a loop [for j = start .. start + len - 1]. *)
Lemma fold_left_seq_inv {S : Type} (P : nat -> S -> Prop) (f : S -> nat -> S)
    (len start : nat) (s0 : S) :
  P start s0 ->
  (forall j s, start <= j < start + len -> P j s -> P (j + 1) (f s j)) ->
  P (start + len) (fold_left f (seq start len) s0).
Proof.
  revert start s0. induction len as [|len IH]; intros start s0 H0 Hstep; simpl.
  - rewrite Nat.add_0_r. exact H0.
  - replace (start + Datatypes.S len) with (Datatypes.S start + len) by lia.
    apply IH.
    + replace (Datatypes.S start) with (start + 1) by lia. apply Hstep; [lia | exact H0].
    + intros j s Hj. apply Hstep. lia.
Qed.

Lemma arraySet_length (c : list nat) (j v : nat) :
  j < length c -> length (arraySet c j v) = length c.
Proof.
  intros H. unfold arraySet. apply Nat.ltb_lt in H. rewrite H. apply length_insert.
Qed.

Lemma arrayGet_arraySet (c : list nat) (j v x : nat) :
  j < length c ->
  arrayGet (arraySet c j v) x = if decide (x = j) then v else arrayGet c x.
Proof.
  intros H. unfold arraySet, arrayGet. pose proof H as Hb. apply Nat.ltb_lt in Hb.
  rewrite Hb, !nth_lookup. destruct (decide (x = j)) as [->|Hne].
  - rewrite list_lookup_insert_eq by exact H. reflexivity.
  - rewrite list_lookup_insert_ne by congruence. reflexivity.
Qed.

Lemma arraySet_push (c : list nat) (v : nat) : arraySet c (length c) v = (c ++ [v])%list.
Proof.
  unfold arraySet. rewrite Nat.ltb_irrefl, Nat.sub_diag. reflexivity.
Qed.

Variables s1 s2 : string.


(** Row 0 is [0, 1, ..., s2.length]. *)
Lemma outerStep_first : outerStep s1 s2 [] 0 = seq 0 (String.length s2 + 1).
Proof.
  unfold outerStep.
  assert (H : fst (fold_left (innerStep s1 s2 0) (seq 0 (String.length s2 + 1)) ([], 0))
              = seq 0 (0 + (String.length s2 + 1))).
  { apply (fold_left_seq_inv (fun j st => fst st = seq 0 j)); [reflexivity|].
    intros j [c lv] _ Hc. simpl in *. subst c.
    replace (arraySet (seq 0 j) j j) with (arraySet (seq 0 j) (length (seq 0 j)) j)
      by (rewrite length_seq; reflexivity).
    rewrite arraySet_push, seq_app. reflexivity. }
  replace (Datatypes.S (String.length s2)) with (String.length s2 + 1) by lia.
  destruct (fold_left _ _ _) as [c lv]. simpl in *. exact H.
Qed.

Lemma rowBound_first : rowBound s2 0 (seq 0 (String.length s2 + 1)).
Proof.
  split; [apply length_seq|].
  intros x Hx. unfold arrayGet. rewrite seq_nth by lia. lia.
Qed.


Lemma innerStep_inv (i j : nat) (st : list nat * nat) :
  1 <= i -> j <= String.length s2 ->
  innerInv s2 i j st -> innerInv s2 i (j + 1) (innerStep s1 s2 i st j).
Proof.
  intros Hi Hj. destruct st as [c lv]. unfold innerInv, innerStep. simpl.
  intros (Hlen & Hnew & Hold & Hlv).
  destruct (i =? 0) eqn:Ei; [apply Nat.eqb_eq in Ei; lia|].
  destruct (0 <? j) eqn:Ej.
  - apply Nat.ltb_lt in Ej. simpl.
    assert (Hin : j - 1 < length c) by lia.
    rewrite arraySet_length by exact Hin.
    split; [exact Hlen|]. split; [|split].
    + intros x Hx. rewrite arrayGet_arraySet by exact Hin.
      destruct (decide (x = j - 1)) as [->|Hne]; [exact Hlv|]. apply Hnew. lia.
    + intros x Hx Hxn. rewrite arrayGet_arraySet by exact Hin.
      destruct (decide (x = j - 1)) as [->|Hne]; [lia|]. apply Hold; lia.
    + pose proof (Hold (j - 1) ltac:(lia) ltac:(lia)) as Hd.
      replace (j + 1 - 1) with j by lia.
      destruct (negb _); lia.
  - apply Nat.ltb_ge in Ej. assert (j = 0) by lia. subst j. simpl.
    split; [exact Hlen|]. split; [intros x Hx; lia|]. split; [|lia].
    intros x _ Hxn. apply Hold; lia.
Qed.

Lemma outerStep_inv (i : nat) (costs : list nat) :
  1 <= i -> rowBound s2 (i - 1) costs -> rowBound s2 i (outerStep s1 s2 costs i).
Proof.
  intros Hi [Hlen Hrow]. unfold outerStep.
  assert (H : innerInv s2 i (0 + (String.length s2 + 1))
                (fold_left (innerStep s1 s2 i) (seq 0 (String.length s2 + 1)) (costs, i))).
  { apply (fold_left_seq_inv (innerInv s2 i)).
    - unfold innerInv. simpl. split; [exact Hlen|]. split; [intros x Hx; lia|].
      split; [|lia]. intros x _ Hx. apply Hrow, Hx.
    - intros j st Hj Hst. apply innerStep_inv; [exact Hi | lia | exact Hst]. }
  replace (Datatypes.S (String.length s2)) with (String.length s2 + 1) by lia.
  destruct (fold_left _ _ _) as [c lv]. unfold innerInv in H. simpl in H.
  destruct H as (Hl & Hnew & _ & Hlv).
  assert (Ei : (0 <? i) = true) by (apply Nat.ltb_lt; lia). rewrite Ei.
  assert (Hin : String.length s2 < length c) by lia.
  split; [rewrite arraySet_length by exact Hin; exact Hl|].
  intros x Hx. rewrite arrayGet_arraySet by exact Hin.
  destruct (decide (x = String.length s2)) as [->|Hne].
  - replace (String.length s2 + 1 - 1) with (String.length s2) in Hlv by lia. exact Hlv.
  - apply Hnew. lia.
Qed.

Lemma levenshteinDistance_le :
  levenshteinDistance s1 s2 <= Nat.max (String.length s1) (String.length s2).
Proof.
  unfold levenshteinDistance.
  assert (H : rowBound s2 (String.length s1)
                (fold_left (outerStep s1 s2) (seq 0 (Datatypes.S (String.length s1))) [])).
  { simpl. rewrite outerStep_first.
    pose proof (fold_left_seq_inv (fun i c => rowBound s2 (i - 1) c) (outerStep s1 s2)
                  (String.length s1) 1 (seq 0 (String.length s2 + 1))) as Hf.
    cbv beta in Hf.
    replace (1 + String.length s1 - 1) with (String.length s1) in Hf by lia.
    apply Hf.
    - apply rowBound_first.
    - intros i c Hi Hc. replace (i + 1 - 1) with i by lia.
      apply outerStep_inv; [lia | exact Hc]. }
  destruct H as [_ H]. apply H. lia.
Qed.

End Levenshtein.

Lemma levenshteinSimilarity_bounds (s1 s2 : string) :
  0 <= levenshteinSimilarity s1 s2 /\ levenshteinSimilarity s1 s2 <= 1.
Proof.
  unfold levenshteinSimilarity.
  set (longer := if (String.length s2 <? String.length s1)%nat then s1 else s2).
  set (shorter := if (String.length s2 <? String.length s1)%nat then s2 else s1).
  assert (Hls : (String.length shorter <= String.length longer)%nat).
  { unfold longer, shorter.
    destruct (String.length s2 <? String.length s1)%nat eqn:E;
      [apply Nat.ltb_lt in E | apply Nat.ltb_ge in E]; lia. }
  destruct (String.length longer =? 0)%nat eqn:E0; [split; discriminate|].
  apply Nat.eqb_neq in E0.
  pose proof (levenshteinDistance_le longer shorter) as Hd.
  assert (Hd' : (levenshteinDistance longer shorter <= String.length longer)%nat) by lia.
  apply ofNat_le in Hd'.
  pose proof (ofNat_nonneg (levenshteinDistance longer shorter)).
  apply ratio_bounds; [lra | lra | apply ofNat_pos; lia].
Qed.

(** ** The overall score is a confidence *)

Lemma overall_combined (p : Poly.t) (k : Kalshi.t) :
  norm (Poly.title p) <> norm (Kalshi.title k) ->
  overall (cms p k)
  = w_keyword * keywordOverlapScore (Poly.title p) (Kalshi.title k)
                  (POLITICAL_KEYWORDS ++ CRYPTO_KEYWORDS)
    + w_token * tokenOverlapScore (Poly.title p) (Kalshi.title k)
    + w_fuzzy * levenshteinSimilarity (norm (Poly.title p)) (norm (Kalshi.title k))
    + w_date * dateScore (Poly.endDate p) (Kalshi.expirationTime k)
    + w_category * categoryScore.
Proof.
  intros Hne. unfold norm in *. unfold calculateMatchScore.
  apply String.eqb_neq in Hne. rewrite Hne.
  repeat match goal with |- context [if ?b then _ else _] => destruct b end; reflexivity.
Qed.

Lemma overall_bounds (p : Poly.t) (k : Kalshi.t) :
  0 <= overall (cms p k) /\ overall (cms p k) <= 1.
Proof.
  destruct (String.eqb (norm (Poly.title p)) (norm (Kalshi.title k))) eqn:E.
  - unfold calculateMatchScore. unfold norm in E. rewrite E. simpl. split; discriminate.
  - apply String.eqb_neq in E. rewrite (overall_combined p k E).
    pose proof (keywordOverlapScore_bounds (Poly.title p) (Kalshi.title k)
                  (POLITICAL_KEYWORDS ++ CRYPTO_KEYWORDS)) as [Hk0 Hk1].
    pose proof (tokenOverlapScore_bounds (Poly.title p) (Kalshi.title k)) as [Ht0 Ht1].
    pose proof (levenshteinSimilarity_bounds (norm (Poly.title p)) (norm (Kalshi.title k)))
      as [Hf0 Hf1].
    pose proof (dateScore_bounds (Poly.endDate p) (Kalshi.expirationTime k)) as [Hd0 Hd1].
    unfold w_keyword, w_token, w_fuzzy, w_date, w_category, categoryScore.
    split; lra.
Qed.

Lemma coversOutcomes_default (outs : list string) :
  Permutation outs ["Yes"; "No"]%string -> coversOutcomes outs defaultOutcomeMapping.
Proof.
  intros H. split; simpl; [symmetry; exact H | reflexivity].
Qed.

(** C9, as stated, fails.  A question whose outcomes are Up and Down gets
    the fixed correspondence Yes/No, which pairs none of its outcomes, and
    the mapping passes [canTradeOnMapping]; and a mapping loaded from the
    table has an empty correspondence, is returned by
    [findKalshiEquivalent] and [getActiveMappings], and passes
    [canTradeOnMapping] too. *)
Lemma outcome_correspondence_counterexample :
  (exists m st',
     findKalshiEquivalent defaultConfig emptyState upDownQuestion [upDownCandidate]
     = (Some m, st')
     /\ ~ coversOutcomes (Poly.outcomes upDownQuestion) (outcomeMapping m)
     /\ canTradeOnMapping defaultConfig m = true)
  /\ (exists m,
        findKalshiEquivalent defaultConfig tradableState poly1 kalshi1
        = (Some m, tradableState)
        /\ getActiveMappings tradableState = [m]
        /\ outcomeMapping m = []
        /\ ~ coversOutcomes (Poly.outcomes poly1) (outcomeMapping m)
        /\ canTradeOnMapping defaultConfig m = true).
Proof.
  split.
  - do 2 eexists. split; [vm_compute; reflexivity|]. split; [|reflexivity].
    intros [H _]. simpl in H.
    apply (Permutation_in "Yes"%string) in H; [|left; reflexivity].
    destruct H as [H|[H|[]]]; discriminate H.
  - eexists. split; [vm_compute; reflexivity|].
    split; [vm_compute; reflexivity|]. split; [reflexivity|]. split; [|reflexivity].
    intros [H _]. simpl in H. apply Permutation_nil in H. discriminate H.
Qed.

(** C9, amended: every mapping the matcher creates, through
    [findKalshiEquivalent] and [createMapping] or through
    [addManualMapping], carries the fixed correspondence Yes-yes, No-no and
    a confidence in [0, 1]; that correspondence pairs every outcome of both
    questions exactly once when the outcomes of the Polymarket question are
    Yes and No. *)
Theorem created_mapping_invariant (config : MatchingConfig) (st : State)
    (p : Poly.t) (ks : list Kalshi.t) :
  (forall m st',
     noActiveCached st p ->
     findKalshiEquivalent config st p ks = (Some m, st') ->
     outcomeMapping m = defaultOutcomeMapping
     /\ (Permutation (Poly.outcomes p) ["Yes"; "No"]%string ->
         coversOutcomes (Poly.outcomes p) (outcomeMapping m))
     /\ 0 <= matchConfidence m /\ matchConfidence m <= 1)
  /\ (forall cond ticker descr outs,
        let m := fst (addManualMapping st cond ticker descr) in
        outcomeMapping m = defaultOutcomeMapping
        /\ (Permutation outs ["Yes"; "No"]%string -> coversOutcomes outs (outcomeMapping m))
        /\ matchConfidence m = 1).
Proof.
  split.
  - intros m st' Hno H.
    destruct (findKalshiEquivalent_search config st p ks Hno)
      as [(Hn & _) | (i & k & _ & Hr & _)].
    + rewrite Hn in H. discriminate H.
    + rewrite Hr in H. injection H as <- <-. unfold mappingFor.
      cbn [outcomeMapping matchConfidence].
      split; [reflexivity|]. split; [apply coversOutcomes_default|].
      apply overall_bounds.
  - intros cond ticker descr outs m. subst m. unfold addManualMapping.
    cbn [generateId fst outcomeMapping matchConfidence].
    split; [reflexivity|]. split; [apply coversOutcomes_default | reflexivity].
Qed.

Lemma created_mapping_invariant_witness :
  exists m st',
    findKalshiEquivalent defaultConfig emptyState poly1 kalshi1 = (Some m, st')
    /\ coversOutcomes (Poly.outcomes poly1) (outcomeMapping m)
    /\ 0 <= matchConfidence m /\ matchConfidence m <= 1.
Proof.
  assert (Hno : noActiveCached emptyState poly1).
  { intros c H. vm_compute in H. discriminate H. }
  assert (Hr : findKalshiEquivalent defaultConfig emptyState poly1 kalshi1
               = (Some (mappingFor defaultConfig emptyState poly1
                          (Kalshi.mk "PRES-2024-TRUMP"
                             "Will the Republican candidate win the 2024 presidential election?"
                             1730851200000 (Some "Politics"%string))),
                  saveMapping (snd (generateId emptyState))
                    (mappingFor defaultConfig emptyState poly1
                       (Kalshi.mk "PRES-2024-TRUMP"
                          "Will the Republican candidate win the 2024 presidential election?"
                          1730851200000 (Some "Politics"%string))))).
  { vm_compute. reflexivity. }
  do 2 eexists. split; [exact Hr|].
  destruct (proj1 (created_mapping_invariant defaultConfig emptyState poly1 kalshi1)
              _ _ Hno Hr) as (_ & Hc & Hb).
  split; [apply Hc; reflexivity | exact Hb].
Defined.


(** ** The keyword score as a weighted overlap of groups *)

Lemma scanSynonyms_matches (normalized : string) (g : KeywordGroup)
    (syns : list string) (found : list (string * Q)) :
  scanSynonyms normalized g syns found
  = if existsb (fun synonym => includes normalized synonym) syns
    then mapSet (canonical g) (Qmax (orZero (mapGet (canonical g) found)) (weight g)) found
    else found.
Proof.
  induction syns as [|s syns IH]; simpl; [reflexivity|].
  destruct (includes normalized s); simpl; [reflexivity | exact IH].
Qed.

Lemma mapSet_fresh (k : string) (v : Q) (m : list (string * Q)) :
  mapGet k m = None -> mapSet k v m = (m ++ [(k, v)])%list.
Proof.
  induction m as [|[k' v'] m IH]; simpl; [reflexivity|].
  destruct (String.eqb k k'); [discriminate|]. intros H. rewrite IH by exact H. reflexivity.
Qed.

Lemma mapGet_mapSet_eq (k : string) (v : Q) (m : list (string * Q)) :
  mapGet k (mapSet k v m) = Some v.
Proof.
  induction m as [|[k' v'] m IH]; simpl.
  - rewrite String.eqb_refl. reflexivity.
  - destruct (String.eqb k k') eqn:E; simpl; [rewrite String.eqb_refl | rewrite E];
      auto.
Qed.

Lemma mapGet_mapSet_ne (k k' : string) (v : Q) (m : list (string * Q)) :
  k <> k' -> mapGet k' (mapSet k v m) = mapGet k' m.
Proof.
  intros Hne. induction m as [|[k0 v0] m IH]; simpl.
  - apply not_eq_sym, String.eqb_neq in Hne. rewrite Hne. reflexivity.
  - destruct (String.eqb k k0) eqn:E; simpl.
    + apply String.eqb_eq in E. subst k0.
      apply not_eq_sym, String.eqb_neq in Hne. rewrite Hne. reflexivity.
    + rewrite IH. reflexivity.
Qed.

Lemma Qmax_0_pos (w : Q) : 0 < w -> Qmax 0 w = w.
Proof.
  intros H. unfold Qmax, GenericMinMax.gmax.
  apply Qlt_alt in H. change (Qcompare 0 w = Lt) in H. rewrite H. reflexivity.
Qed.

Lemma mapGet_entries_fresh (f : KeywordGroup -> bool) (l : list KeywordGroup) (k : string) :
  ~ In k (map canonical l) ->
  mapGet k (map (fun g => (canonical g, weight g)) (List.filter f l)) = None.
Proof.
  induction l as [|g l IH]; simpl; [reflexivity|]. intros H.
  destruct (f g); simpl.
  - destruct (String.eqb k (canonical g)) eqn:E.
    + apply String.eqb_eq in E. exfalso. apply H. left. symmetry. exact E.
    + apply IH. intros Hin. apply H. right. exact Hin.
  - apply IH. intros Hin. apply H. right. exact Hin.
Qed.

Lemma mapGet_entries (f : KeywordGroup -> bool) (l : list KeywordGroup) (g : KeywordGroup) :
  List.NoDup (map canonical l) -> In g l ->
  mapGet (canonical g) (map (fun g => (canonical g, weight g)) (List.filter f l))
  = if f g then Some (weight g) else None.
Proof.
  induction l as [|h l IH]; simpl; [intros _ []|].
  intros Hnd [Hg|Hg]; inversion Hnd as [|? ? Hnotin Hnd']; subst.
  - destruct (f g); simpl.
    + rewrite String.eqb_refl. reflexivity.
    + apply mapGet_entries_fresh, Hnotin.
  - assert (Hne : String.eqb (canonical g) (canonical h) = false).
    { apply String.eqb_neq. intros E. apply Hnotin. rewrite <- E. apply in_map, Hg. }
    destruct (f h); simpl; [rewrite Hne|]; apply IH; assumption.
Qed.

Lemma extractKeywords_entries (text : string) (groups : list KeywordGroup) :
  List.NoDup (map canonical groups) ->
  Forall (fun g => 0 < weight g) groups ->
  extractKeywords text groups = entries text groups.
Proof.
  intros Hnd Hpos. unfold extractKeywords, entries.
  assert (H : forall rest done,
            List.NoDup (map canonical (done ++ rest)) ->
            Forall (fun g => 0 < weight g) rest ->
            fold_left (fun found group =>
                         scanSynonyms (toLowerCase text) group (synonyms group) found)
                      rest (map (fun g => (canonical g, weight g))
                                (List.filter (matches text) done))
            = map (fun g => (canonical g, weight g))
                  (List.filter (matches text) (done ++ rest))).
  { induction rest as [|g rest IH]; intros done Hn Hp; simpl.
    - rewrite app_nil_r. reflexivity.
    - inversion Hp as [|? ? Hg Hp']; subst.
      replace (done ++ g :: rest)%list with ((done ++ [g]) ++ rest)%list in *
        by (rewrite <- app_assoc; reflexivity).
      rewrite <- IH by assumption. f_equal.
      rewrite scanSynonyms_matches. fold (matches text g).
      rewrite List.filter_app, map_app. simpl.
      destruct (matches text g); simpl; [|rewrite app_nil_r; reflexivity].
      assert (Hfresh : mapGet (canonical g)
                         (map (fun g => (canonical g, weight g))
                              (List.filter (matches text) done)) = None).
      { apply mapGet_entries_fresh. intros Hin.
        rewrite !map_app in Hn. apply NoDup_app_remove_r in Hn.
        apply NoDup_remove_2 in Hn. apply Hn. rewrite app_nil_r. exact Hin. }
      rewrite Hfresh. simpl. rewrite Qmax_0_pos by exact Hg.
      apply mapSet_fresh, Hfresh. }
  apply (H groups []); assumption.
Qed.

Lemma fold_overlapStep (k1 k2 : list (string * Q)) (keys : list string) (a b : Q) :
  fst (fold_left (overlapStep k1 k2) keys (a, b)) == a + Qsum (map (interTerm k1 k2) keys)
  /\ snd (fold_left (overlapStep k1 k2) keys (a, b))
     == b + Qsum (map (unionTerm k1 k2) keys).
Proof.
  revert a b. induction keys as [|key keys IH]; intros a b; simpl.
  - split; ring.
  - unfold overlapStep at 2 4. cbn [fst snd].
    match goal with |- context [fold_left _ keys (?x, ?y)] =>
      destruct (IH x y) as [H1 H2] end.
    rewrite H1, H2. unfold interTerm, unionTerm.
    split; [|ring].
    destruct (Qltb 0 (orZero (mapGet key k1)) && Qltb 0 (orZero (mapGet key k2))); ring.
Qed.

Lemma Qsum_Permutation (l l' : list Q) : Permutation l l' -> Qsum l == Qsum l'.
Proof.
  induction 1 as [|x l l' _ IH|x y l|l l' l'' _ IH1 _ IH2]; simpl.
  - reflexivity.
  - rewrite IH. reflexivity.
  - ring.
  - rewrite IH1. exact IH2.
Qed.

Lemma Qsum_map_ext {A : Type} (f g : A -> Q) (l : list A) :
  (forall x, In x l -> f x == g x) -> Qsum (map f l) == Qsum (map g l).
Proof.
  induction l as [|x l IH]; intros H; simpl; [reflexivity|].
  rewrite (H x) by (left; reflexivity). rewrite IH; [reflexivity|].
  intros y Hy. apply H. right. exact Hy.
Qed.

Lemma Qsum_filter {A : Type} (f : A -> bool) (h : A -> Q) (l : list A) :
  Qsum (map (fun x => if f x then h x else 0) l) == Qsum (map h (List.filter f l)).
Proof.
  induction l as [|x l IH]; simpl; [reflexivity|].
  destruct (f x); simpl; rewrite IH; ring.
Qed.

Lemma Qsum_pos {A : Type} (h : A -> Q) (l : list A) :
  l <> [] -> (forall x, In x l -> 0 < h x) -> 0 < Qsum (map h l).
Proof.
  intros Hne H.
  assert (H0 : forall l', (forall x, In x l' -> 0 < h x) -> 0 <= Qsum (map h l')).
  { induction l' as [|y l' IH]; intros Hl; simpl; [discriminate|].
    pose proof (Hl y (or_introl eq_refl)).
    assert (0 <= Qsum (map h l')) by (apply IH; intros z Hz; apply Hl; right; exact Hz).
    lra. }
  destruct l as [|x l]; [congruence|]. simpl.
  pose proof (H x (or_introl eq_refl)).
  assert (0 <= Qsum (map h l)) by (apply H0; intros z Hz; apply H; right; exact Hz).
  lra.
Qed.

Lemma filter_filter_both {A : Type} (f g : A -> bool) (l : list A) :
  List.filter (fun x => f x && g x) (List.filter (fun x => f x || g x) l)
  = List.filter (fun x => f x && g x) l.
Proof.
  induction l as [|x l IH]; simpl; [reflexivity|].
  destruct (f x) eqn:Ef, (g x) eqn:Eg; simpl; rewrite ?Ef, ?Eg; simpl; rewrite IH;
    reflexivity.
Qed.

Lemma filter_either_nil {A : Type} (f g : A -> bool) (l : list A) :
  List.filter (fun x => f x || g x) l = [] <->
  List.filter f l = [] /\ List.filter g l = [].
Proof.
  induction l as [|x l IH]; simpl; [tauto|].
  destruct (f x), (g x); simpl; try (split; [discriminate | intros [? ?]; discriminate]).
  exact IH.
Qed.

Lemma NoDup_map_filter (f : KeywordGroup -> bool) (l : list KeywordGroup) :
  List.NoDup (map canonical l) -> List.NoDup (map canonical (List.filter f l)).
Proof.
  induction l as [|g l IH]; simpl; [auto|]. intros H.
  inversion H as [|? ? Hnotin Hnd]; subst.
  destruct (f g); simpl; [|apply IH, Hnd].
  constructor; [|apply IH, Hnd].
  intros Hin. apply Hnotin. apply in_map_iff in Hin as (h & Hh & Hin).
  apply List.filter_In in Hin as [Hin _]. rewrite <- Hh. apply in_map, Hin.
Qed.

(** The keys [keywordOverlapScore] visits are, up to their order, the
    canonical names of the groups found in either text. *)
Lemma allKeys_Permutation (text1 text2 : string) (groups : list KeywordGroup) :
  List.NoDup (map canonical groups) ->
  Permutation
    (newSet (mapKeys (entries text1 groups) ++ mapKeys (entries text2 groups)))
    (map canonical (List.filter (fun g => matches text1 g || matches text2 g) groups)).
Proof.
  intros Hnd. apply NoDup_Permutation.
  - apply newSet_NoDup.
  - apply NoDup_ListNoDup, NoDup_map_filter, Hnd.
  - intros key. rewrite !list_elem_of_In, newSet_In, in_app_iff.
    unfold mapKeys, entries. rewrite !map_map. cbn [fst].
    rewrite !in_map_iff. split.
    + intros [(g & Hg & Hin) | (g & Hg & Hin)]; apply List.filter_In in Hin as [Hin Hm];
        exists g; (split; [exact Hg|]); apply List.filter_In; (split; [exact Hin|]);
        rewrite Hm; [reflexivity | apply orb_true_r].
    + intros (g & Hg & Hin). apply List.filter_In in Hin as [Hin Hm].
      apply orb_true_iff in Hm as [Hm|Hm]; [left | right];
        exists g; (split; [exact Hg|]); apply List.filter_In; auto.
Qed.

Lemma orZero_entries (text : string) (groups : list KeywordGroup) (g : KeywordGroup) :
  List.NoDup (map canonical groups) -> In g groups ->
  orZero (mapGet (canonical g) (entries text groups)) = weightOf (matches text) g.
Proof.
  intros Hnd Hin. unfold entries, weightOf. rewrite mapGet_entries by assumption.
  destruct (matches text g); reflexivity.
Qed.

Lemma Qltb_weightOf (pres : KeywordGroup -> bool) (g : KeywordGroup) :
  0 < weight g -> Qltb 0 (weightOf pres g) = pres g.
Proof.
  intros H. unfold weightOf. destruct (pres g).
  - apply Qltb_lt, H.
  - reflexivity.
Qed.

Lemma keywordOverlapScore_overlap (text1 text2 : string) (groups : list KeywordGroup) :
  List.NoDup (map canonical groups) ->
  Forall (fun g => 0 < weight g) groups ->
  keywordOverlapScore text1 text2 groups
  == overlap (matches text1) (matches text2) groups.
Proof.
  intros Hnd Hpos. unfold keywordOverlapScore, overlap.
  rewrite !extractKeywords_entries by assumption.
  set (k1 := entries text1 groups). set (k2 := entries text2 groups).
  set (either := List.filter (fun g => matches text1 g || matches text2 g) groups).
  destruct either as [|g0 either'] eqn:Ee.
  - apply filter_either_nil in Ee as [E1 E2].
    unfold k1, k2, entries. rewrite E1, E2. reflexivity.
  - assert (Hlen : ((length k1 =? 0)%nat && (length k2 =? 0)%nat) = false).
    { destruct k1 eqn:Ek1, k2 eqn:Ek2; try reflexivity. exfalso.
      unfold k1, entries in Ek1. unfold k2, entries in Ek2.
      apply map_eq_nil in Ek1. apply map_eq_nil in Ek2.
      assert (E : either = []) by (apply filter_either_nil; split; assumption).
      congruence. }
    rewrite Hlen. rewrite <- Ee.
    destruct (fold_overlapStep k1 k2 (newSet (mapKeys k1 ++ mapKeys k2)) 0 0) as [HI HU].
    set (r := fold_left (overlapStep k1 k2) (newSet (mapKeys k1 ++ mapKeys k2)) (0, 0)) in *.
    pose proof (allKeys_Permutation text1 text2 groups Hnd) as Hperm.
    fold k1 k2 either in Hperm.
    assert (Hin_either : forall g, In g either -> In g groups /\ 0 < weight g).
    { intros g Hg. apply List.filter_In in Hg as [Hg _]. split; [exact Hg|].
      rewrite Forall_forall in Hpos. apply Hpos. apply list_elem_of_In, Hg. }
    (* the union weight *)
    assert (HU' : snd r == Qsum (map (fun g => Qmax (weightOf (matches text1) g)
                                               (weightOf (matches text2) g)) either)).
    { rewrite HU, Qplus_0_l.
      rewrite (Qsum_Permutation _ _ (Permutation_map (unionTerm k1 k2) Hperm)).
      rewrite map_map. apply Qsum_map_ext. intros g Hg.
      destruct (Hin_either g Hg) as [Hgin _].
      unfold unionTerm, k1, k2. rewrite !orZero_entries by assumption. reflexivity. }
    (* the intersection weight *)
    assert (HI' : fst r == Qsum (map (fun g => Qmin (weightOf (matches text1) g)
                                               (weightOf (matches text2) g))
                                     (List.filter (fun g => matches text1 g && matches text2 g)
                                                  groups))).
    { rewrite HI, Qplus_0_l.
      rewrite (Qsum_Permutation _ _ (Permutation_map (interTerm k1 k2) Hperm)).
      rewrite map_map.
      rewrite <- (filter_filter_both (matches text1) (matches text2) groups).
      fold either. rewrite <- Qsum_filter. apply Qsum_map_ext. intros g Hg.
      destruct (Hin_either g Hg) as [Hgin Hw].
      unfold interTerm, k1, k2. rewrite !orZero_entries by assumption.
      rewrite !Qltb_weightOf by exact Hw. reflexivity. }
    assert (Hpos' : 0 < snd r).
    { rewrite HU'. apply Qsum_pos; [rewrite Ee; discriminate|].
      intros g Hg. destruct (Hin_either g Hg) as [_ Hw].
      apply List.filter_In in Hg as [_ Hm]. unfold weightOf.
      apply orb_true_iff in Hm as [Hm|Hm]; rewrite Hm.
      - apply Qlt_le_trans with (weight g); [exact Hw | apply Q.le_max_l].
      - apply Qlt_le_trans with (weight g); [exact Hw | apply Q.le_max_r]. }
    apply Qltb_lt in Hpos'. rewrite Hpos'.
    rewrite HI', HU'. reflexivity.
Qed.

Lemma overlap_ext (p1 p2 q1 q2 : KeywordGroup -> bool) (groups : list KeywordGroup) :
  (forall g, In g groups -> p1 g = q1 g) ->
  (forall g, In g groups -> p2 g = q2 g) ->
  overlap p1 p2 groups = overlap q1 q2 groups.
Proof.
  intros H1 H2. unfold overlap.
  rewrite (List.filter_ext_in (fun g => p1 g || p2 g) (fun g => q1 g || q2 g))
    by (intros g Hg; rewrite H1, H2 by exact Hg; reflexivity).
  rewrite (List.filter_ext_in (fun g => p1 g && p2 g) (fun g => q1 g && q2 g))
    by (intros g Hg; rewrite H1, H2 by exact Hg; reflexivity).
  destruct (List.filter (fun g => q1 g || q2 g) groups) eqn:E; [reflexivity|].
  rewrite <- E. f_equal; f_equal; apply map_ext_in; intros g Hg;
    apply List.filter_In in Hg as [Hg _]; unfold weightOf;
    rewrite H1, H2 by exact Hg; reflexivity.
Qed.

Lemma matches_present (text : string) (g : KeywordGroup) :
  Forall (fun synonym => toLowerCase synonym = synonym) (synonyms g) ->
  matches text g = present text g.
Proof.
  unfold matches, present. induction (synonyms g) as [|s l IH]; intros H; simpl;
    [reflexivity|].
  inversion H as [|? ? Hs Hl]; subst. rewrite Hs, IH by exact Hl. reflexivity.
Qed.

Lemma fold_Qmax_le (l : list Q) (a : Q) : a <= fold_left Qmax l a.
Proof.
  revert a. induction l as [|x l IH]; intros a; simpl; [apply Qle_refl|].
  apply Qle_trans with (Qmax a x); [apply Q.le_max_l | apply IH].
Qed.

Lemma nameWeight_nonneg (pres : KeywordGroup -> bool) (groups : list KeywordGroup)
    (name : string) : 0 <= nameWeight pres groups name.
Proof. apply fold_Qmax_le. Qed.

Lemma nameWeight_pos_In (pres : KeywordGroup -> bool) (groups : list KeywordGroup)
    (name : string) :
  0 < nameWeight pres groups name -> In name (map canonical groups).
Proof.
  unfold nameWeight. intros H.
  destruct (List.filter (fun g => String.eqb (canonical g) name && pres g) groups)
    as [|g l] eqn:E.
  - simpl in H. discriminate H.
  - assert (Hg : In g (List.filter (fun g => String.eqb (canonical g) name && pres g) groups))
      by (rewrite E; left; reflexivity).
    apply List.filter_In in Hg as [Hg Hn]. apply andb_true_iff in Hn as [Hn _].
    apply String.eqb_eq in Hn. rewrite <- Hn. apply in_map, Hg.
Qed.

Lemma nameWeight_ext (p q : KeywordGroup -> bool) (groups : list KeywordGroup)
    (name : string) :
  (forall g, In g groups -> p g = q g) -> nameWeight p groups name = nameWeight q groups name.
Proof.
  intros H. unfold nameWeight. f_equal. f_equal.
  apply List.filter_ext_in. intros g Hg. rewrite (H g Hg). reflexivity.
Qed.

Lemma orZero_pos_In (name : string) (m : list (string * Q)) :
  0 < orZero (mapGet name m) -> In name (mapKeys m).
Proof.
  unfold mapKeys. induction m as [|[k v] m IH]; simpl; [discriminate|].
  destruct (String.eqb name k) eqn:E.
  - apply String.eqb_eq in E. auto.
  - intros H. right. apply IH, H.
Qed.

(** The weight [extractKeywords] records under a name is the highest weight
    among the groups of that name found in the text. *)
Lemma extractKeywords_nameWeight (text : string) (groups : list KeywordGroup)
    (name : string) :
  orZero (mapGet name (extractKeywords text groups)) = nameWeight (matches text) groups name.
Proof.
  unfold extractKeywords, nameWeight.
  assert (H : forall found,
            orZero (mapGet name
              (fold_left (fun found group =>
                            scanSynonyms (toLowerCase text) group (synonyms group) found)
                         groups found))
            = fold_left Qmax
                (map weight
                   (List.filter (fun g => String.eqb (canonical g) name && matches text g)
                                groups))
                (orZero (mapGet name found))).
  { induction groups as [|g groups IH]; intros found; simpl; [reflexivity|].
    rewrite IH, scanSynonyms_matches. fold (matches text g).
    destruct (String.eqb (canonical g) name) eqn:E, (matches text g); simpl;
      try reflexivity.
    - apply String.eqb_eq in E. rewrite E, mapGet_mapSet_eq. reflexivity.
    - apply String.eqb_neq in E. rewrite mapGet_mapSet_ne by exact E. reflexivity. }
  apply (H []).
Qed.

Lemma NoDup_List_filter (f : string -> bool) (l : list string) :
  NoDup l -> NoDup (List.filter f l).
Proof.
  intros H. apply NoDup_ListNoDup, List.NoDup_filter, NoDup_ListNoDup, H.
Qed.

(** Among the keys that carry a positive weight on the side chosen by [sel],
    the keys [keywordOverlapScore] visits are the canonical names. *)
Lemma allKeys_names (text1 text2 : string) (groups : list KeywordGroup)
    (sel : string -> bool) :
  (forall n, sel n = true ->
             0 < nameWeight (matches text1) groups n
             \/ 0 < nameWeight (matches text2) groups n) ->
  Permutation
    (List.filter sel (newSet (mapKeys (extractKeywords text1 groups)
                              ++ mapKeys (extractKeywords text2 groups))))
    (List.filter sel (newSet (map canonical groups))).
Proof.
  intros Hsel. apply NoDup_Permutation; try (apply NoDup_List_filter, newSet_NoDup).
  intros n. rewrite !list_elem_of_In, !List.filter_In, !newSet_In, in_app_iff. split.
  - intros [_ Hs]. split; [|exact Hs].
    destruct (Hsel n Hs) as [H|H]; exact (nameWeight_pos_In _ _ _ H).
  - intros [_ Hs]. split; [|exact Hs].
    destruct (Hsel n Hs) as [H|H]; rewrite <- extractKeywords_nameWeight in H;
      [left | right]; apply orZero_pos_In, H.
Qed.

Lemma Qmax_nonpos (x y : Q) : 0 <= x -> 0 <= y -> x <= 0 -> y <= 0 -> Qmax x y == 0.
Proof.
  intros Hx Hy Hx' Hy'. apply Qle_antisym.
  - apply Q.max_lub; assumption.
  - apply Qle_trans with x; [exact Hx | apply Q.le_max_l].
Qed.

(** The keyword score of every list of groups, on canonical names. *)
Lemma keywordOverlapScore_byName (text1 text2 : string) (groups : list KeywordGroup) :
  keywordOverlapScore text1 text2 groups
  == overlapByName (matches text1) (matches text2) groups.
Proof.
  unfold keywordOverlapScore, overlapByName.
  set (k1 := extractKeywords text1 groups). set (k2 := extractKeywords text2 groups).
  set (w1 := nameWeight (matches text1) groups).
  set (w2 := nameWeight (matches text2) groups).
  set (names := newSet (map canonical groups)).
  set (allKeys := newSet (mapKeys k1 ++ mapKeys k2)).
  set (inE := fun n => Qltb 0 (w1 n) || Qltb 0 (w2 n)).
  set (inB := fun n => Qltb 0 (w1 n) && Qltb 0 (w2 n)).
  assert (HW1 : forall n, orZero (mapGet n k1) = w1 n)
    by (intros n; apply extractKeywords_nameWeight).
  assert (HW2 : forall n, orZero (mapGet n k2) = w2 n)
    by (intros n; apply extractKeywords_nameWeight).
  assert (HinE : forall n, inE n = true -> 0 < w1 n \/ 0 < w2 n).
  { intros n H. apply orb_true_iff in H as [H|H]; apply Qltb_lt in H; auto. }
  assert (HinB : forall n, inB n = true -> 0 < w1 n \/ 0 < w2 n).
  { intros n H. apply andb_true_iff in H as [H _]. apply Qltb_lt in H. auto. }
  pose proof (allKeys_names text1 text2 groups inE HinE) as PE.
  pose proof (allKeys_names text1 text2 groups inB HinB) as PB.
  fold k1 k2 allKeys names in PE, PB.
  destruct (fold_overlapStep k1 k2 allKeys 0 0) as [HI HU].
  set (r := fold_left (overlapStep k1 k2) allKeys (0, 0)) in *.
  (* the union weight *)
  assert (HU' : snd r == Qsum (map (fun n => Qmax (w1 n) (w2 n)) (List.filter inE names))).
  { rewrite HU, Qplus_0_l.
    rewrite <- (Qsum_Permutation _ _ (Permutation_map _ PE)), <- Qsum_filter.
    apply Qsum_map_ext. intros n _. unfold unionTerm. rewrite HW1, HW2.
    destruct (inE n) eqn:E; [reflexivity|].
    apply orb_false_iff in E as [E1 E2]. apply Qltb_ge in E1, E2.
    apply Qmax_nonpos; try assumption; apply nameWeight_nonneg. }
  (* the intersection weight *)
  assert (HI' : fst r == Qsum (map (fun n => Qmin (w1 n) (w2 n)) (List.filter inB names))).
  { rewrite HI, Qplus_0_l.
    rewrite <- (Qsum_Permutation _ _ (Permutation_map _ PB)), <- Qsum_filter.
    apply Qsum_map_ext. intros n _. unfold interTerm. rewrite HW1, HW2. reflexivity. }
  destruct (List.filter inE names) as [|n0 either'] eqn:Ee.
  - destruct ((length k1 =? 0)%nat && (length k2 =? 0)%nat); [reflexivity|].
    assert (E0 : Qltb 0 (snd r) = false).
    { apply Qltb_ge. rewrite HU'. simpl. apply Qle_refl. }
    rewrite E0. reflexivity.
  - assert (Hn0 : In n0 (List.filter inE names)) by (rewrite Ee; left; reflexivity).
    apply List.filter_In in Hn0 as [_ Hn0].
    assert (Hlen : ((length k1 =? 0)%nat && (length k2 =? 0)%nat) = false).
    { destruct (HinE n0 Hn0) as [H|H]; [rewrite <- HW1 in H | rewrite <- HW2 in H];
        apply orZero_pos_In in H; unfold mapKeys in H.
      - destruct k1; [destruct H | reflexivity].
      - destruct k2; [destruct H | apply andb_false_r]. }
    rewrite Hlen. rewrite <- Ee in *.
    assert (Hpos : 0 < snd r).
    { rewrite HU'. apply Qsum_pos; [rewrite Ee; discriminate|].
      intros n Hn. apply List.filter_In in Hn as [_ Hn].
      destruct (HinE n Hn) as [H|H].
      - apply Qlt_le_trans with (w1 n); [exact H | apply Q.le_max_l].
      - apply Qlt_le_trans with (w2 n); [exact H | apply Q.le_max_r]. }
    apply Qltb_lt in Hpos. rewrite Hpos, HI', HU'. reflexivity.
Qed.

Lemma overlapByName_ext (p1 p2 q1 q2 : KeywordGroup -> bool) (groups : list KeywordGroup) :
  (forall g, In g groups -> p1 g = q1 g) ->
  (forall g, In g groups -> p2 g = q2 g) ->
  overlapByName p1 p2 groups = overlapByName q1 q2 groups.
Proof.
  intros H1 H2. unfold overlapByName. cbv zeta.
  pose proof (fun n => nameWeight_ext p1 q1 groups n H1) as E1.
  pose proof (fun n => nameWeight_ext p2 q2 groups n H2) as E2.
  rewrite (List.filter_ext
             (fun n => Qltb 0 (nameWeight p1 groups n) || Qltb 0 (nameWeight p2 groups n))
             (fun n => Qltb 0 (nameWeight q1 groups n) || Qltb 0 (nameWeight q2 groups n)))
    by (intros n; rewrite E1, E2; reflexivity).
  rewrite (List.filter_ext
             (fun n => Qltb 0 (nameWeight p1 groups n) && Qltb 0 (nameWeight p2 groups n))
             (fun n => Qltb 0 (nameWeight q1 groups n) && Qltb 0 (nameWeight q2 groups n)))
    by (intros n; rewrite E1, E2; reflexivity).
  rewrite (map_ext (fun n => Qmin (nameWeight p1 groups n) (nameWeight p2 groups n))
                   (fun n => Qmin (nameWeight q1 groups n) (nameWeight q2 groups n)))
    by (intros n; rewrite E1, E2; reflexivity).
  rewrite (map_ext (fun n => Qmax (nameWeight p1 groups n) (nameWeight p2 groups n))
                   (fun n => Qmax (nameWeight q1 groups n) (nameWeight q2 groups n)))
    by (intros n; rewrite E1, E2; reflexivity).
  reflexivity.
Qed.

(** C6, as stated, fails.  Two groups that share a canonical name are
    recorded under one key: with "bitcoin" in one text and "btc" in the
    other the code returns 1, the stated formula 0.  A synonym written in
    capitals is never found, because only the text is lowercased: the code
    returns 0, the stated formula 1. *)
Lemma keyword_formula_counterexample :
  (keywordOverlapScore "Bitcoin price" "BTC price" sameNameGroups == 1
   /\ keywordScore "Bitcoin price" "BTC price" sameNameGroups == 0
   /\ ~ keywordOverlapScore "Bitcoin price" "BTC price" sameNameGroups
         == keywordScore "Bitcoin price" "BTC price" sameNameGroups)
  /\ (keywordOverlapScore "BTC up" "BTC down" capitalGroups == 0
      /\ keywordScore "BTC up" "BTC down" capitalGroups == 1
      /\ ~ keywordOverlapScore "BTC up" "BTC down" capitalGroups
            == keywordScore "BTC up" "BTC down" capitalGroups).
Proof.
  repeat split; try (vm_compute; reflexivity); intros H; vm_compute in H; discriminate H.
Qed.

(** C6, amended: for groups whose synonyms are written in lowercase, groups
    that share a canonical name count as one group, present in a text when
    some synonym of one of them is a case-insensitive substring of the
    text, with the highest weight among those of them that are present.
    The keyword score is the sum of min(weightA, weightB) over the names
    present with a positive weight in both texts divided by the sum of
    max(weightA, weightB) over the names so present in either, and 0 when
    there is none.  For pairwise distinct canonical names and positive
    weights this is the formula of the specification over the groups. *)
Theorem keywordOverlapScore_formula (text1 text2 : string) (groups : list KeywordGroup) :
  Forall (fun g => Forall (fun synonym => toLowerCase synonym = synonym) (synonyms g))
         groups ->
  keywordOverlapScore text1 text2 groups
  == overlapByName (present text1) (present text2) groups
  /\ (List.NoDup (map canonical groups) ->
      Forall (fun g => 0 < weight g) groups ->
      keywordOverlapScore text1 text2 groups == keywordScore text1 text2 groups).
Proof.
  intros Hlow. rewrite Forall_forall in Hlow.
  assert (Hm : forall text g, In g groups -> matches text g = present text g).
  { intros text g Hg. apply matches_present, Hlow, list_elem_of_In, Hg. }
  split.
  - rewrite keywordOverlapScore_byName.
    rewrite (overlapByName_ext (matches text1) (matches text2)
                               (present text1) (present text2));
      [reflexivity | |]; intros g Hg; apply Hm, Hg.
  - intros Hnd Hpos. rewrite keywordOverlapScore_overlap by assumption.
    unfold keywordScore.
    rewrite (overlap_ext (matches text1) (matches text2) (present text1) (present text2));
      [reflexivity | |]; intros g Hg; apply Hm, Hg.
Qed.

Lemma mixed_groups_lowercase :
  Forall (fun g => Forall (fun synonym => toLowerCase synonym = synonym) (synonyms g))
         mixedWeightGroups.
Proof. repeat constructor. Qed.

Lemma keywordOverlapScore_formula_witness :
  keywordOverlapScore "Bitcoin above 100k" "BTC and bitcoin" mixedWeightGroups
  == overlapByName (present "Bitcoin above 100k") (present "BTC and bitcoin")
                   mixedWeightGroups.
Proof.
  exact (proj1 (keywordOverlapScore_formula _ _ _ mixed_groups_lowercase)).
Defined.

(** The groups of the source meet all three conditions. *)
Lemma shipped_groups_wellformed :
  List.NoDup (map canonical (POLITICAL_KEYWORDS ++ CRYPTO_KEYWORDS))
  /\ Forall (fun g => 0 < weight g) (POLITICAL_KEYWORDS ++ CRYPTO_KEYWORDS)
  /\ Forall (fun g => Forall (fun synonym => toLowerCase synonym = synonym) (synonyms g))
            (POLITICAL_KEYWORDS ++ CRYPTO_KEYWORDS).
Proof.
  split; [|split].
  - apply NoDup_ListNoDup. compute_done.
  - repeat constructor.
  - repeat constructor.
Qed.

(** ** The end-to-end example *)

(** The score reads the two timestamps through the date score only. *)
Lemma calculateMatchScore_dateScore (p p' : Poly.t) (k k' : Kalshi.t) :
  Poly.title p = Poly.title p' -> Kalshi.title k = Kalshi.title k' ->
  dateScore (Poly.endDate p) (Kalshi.expirationTime k)
  = dateScore (Poly.endDate p') (Kalshi.expirationTime k') ->
  cms p k = cms p' k'.
Proof.
  intros Ht Ht' Hd. unfold calculateMatchScore. rewrite Ht, Ht', Hd. reflexivity.
Qed.

Lemma example_score_any_date (t : Z) :
  cms (trumpQuestion t) (republicanCandidate t)
  = cms (trumpQuestion 0) (republicanCandidate 0).
Proof.
  apply calculateMatchScore_dateScore; try reflexivity.
  cbn [Poly.endDate Kalshi.expirationTime trumpQuestion republicanCandidate].
  rewrite !dateScore_same. reflexivity.
Qed.

(** C7, as stated, fails: on the two titles, resolving the same day (or one
    day apart, as in the example of the source), the overall score is below
    0.75 and [findBestMatch] does not mark the match for trading. *)
Lemma trump_example_counterexample :
  ~ 0.75 <= overall (cms (trumpQuestion 1730764800000) (republicanCandidate 1730764800000))
  /\ overall (cms (trumpQuestion 1730764800000) (republicanCandidate 1730764800000)) < 0.62
  /\ overall (cms poly1 (Kalshi.mk "PRES-2024-TRUMP"
        "Will the Republican candidate win the 2024 presidential election?"
        1730851200000 (Some "Politics"%string))) < 0.75
  /\ option_map shouldTrade
       (findBestMatch (trumpQuestion 1730764800000) [republicanCandidate 1730764800000])
     = Some false
  /\ option_map shouldTrade (findBestMatch poly1 kalshi1) = Some false.
Proof.
  split; [intros H; vm_compute in H; apply H; reflexivity|].
  repeat split; vm_compute; reflexivity.
Qed.

(** C7, amended: on the two titles with matching resolution dates the
    keyword score is 27/46 (about 0.59), the token score 1/2, the fuzzy
    score 43/65 (about 0.66) and the date score 1, so the overall score is
    36419/59800, about 0.61, and the match falls in the review tier
    (0.60 <= overall < 0.75): [needsReview] is true and [shouldTrade]
    false. *)
Theorem trump_example (t : Z) :
  let s := cms (trumpQuestion t) (republicanCandidate t) in
  s_keyword s == 27 # 46 /\ s_token s == 1 # 2 /\ s_fuzzy s == 43 # 65 /\ s_date s == 1
  /\ overall s == 36419 # 59800
  /\ 0.60 <= overall s /\ overall s < 0.61
  /\ exists r, findBestMatch (trumpQuestion t) [republicanCandidate t] = Some r
               /\ Matching.needsReview r = true /\ shouldTrade r = false.
Proof.
  intros s. subst s. rewrite example_score_any_date.
  repeat (split; [vm_compute; solve [reflexivity | discriminate]|]).
  unfold findBestMatch. cbn [fold_left]. unfold bestStep. cbn [snd].
  rewrite example_score_any_date.
  eexists. split; [vm_compute; reflexivity|]. split; reflexivity.
Qed.


(** * Further properties of the code *)

Import BuildMappings Reference.

(** ** Token overlap *)

Lemma tokenize_NoDup (text : string) : NoDup (tokenize text).
Proof. apply newSet_NoDup. Qed.

Lemma newSet_length_ext (l l' : list string) :
  (forall x, In x l <-> In x l') -> length (newSet l) = length (newSet l').
Proof.
  intros H. apply Permutation_length, NoDup_Permutation; try apply newSet_NoDup.
  intros x. rewrite !list_elem_of_In, !newSet_In. apply H.
Qed.

Lemma In_filter_setHas (t1 t2 : list string) (x : string) :
  In x (filter (fun t => setHas t t2) t1) <-> In x t1 /\ In x t2.
Proof.
  rewrite <- !list_elem_of_In, list_elem_of_filter, !list_elem_of_In.
  split.
  - intros [H1 H2]. split; [exact H2|]. apply setHas_In, Is_true_true, H1.
  - intros [H1 H2]. split; [|exact H1]. apply Is_true_true, setHas_In, H2.
Qed.

Lemma tokenOverlapScore_comm (text1 text2 : string) :
  tokenOverlapScore text1 text2 = tokenOverlapScore text2 text1.
Proof.
  unfold tokenOverlapScore.
  set (t1 := tokenize text1). set (t2 := tokenize text2).
  rewrite (andb_comm (length t2 =? 0)%nat), (orb_comm (length t2 =? 0)%nat).
  rewrite (newSet_length_ext (filter (fun t => setHas t t1) t2)
                             (filter (fun t => setHas t t2) t1))
    by (intros x; rewrite !In_filter_setHas; tauto).
  rewrite (newSet_length_ext (t2 ++ t1) (t1 ++ t2))
    by (intros x; rewrite !in_app_iff; tauto).
  reflexivity.
Qed.

(** The token score does not depend on the order of the two texts. *)
Theorem tokenOverlapScore_sym (text1 text2 : string) :
  tokenOverlapScore text1 text2 = tokenOverlapScore text2 text1.
Proof. apply tokenOverlapScore_comm. Qed.

(** The token score lies in [0, 1]; it is 1 for a text against itself, and
    0 against a text without tokens unless both have none. *)
Theorem tokenOverlapScore_range (text1 text2 : string) :
  0 <= tokenOverlapScore text1 text2 <= 1
  /\ tokenOverlapScore text1 text1 == 1
  /\ (tokenize text2 = [] ->
      tokenOverlapScore text1 text2 = if (length (tokenize text1) =? 0)%nat then 1 else 0).
Proof.
  split; [apply tokenOverlapScore_bounds|]. split.
  - unfold tokenOverlapScore. set (t := tokenize text1).
    destruct (length t =? 0)%nat eqn:E; simpl; [reflexivity|].
    apply Nat.eqb_neq in E.
    rewrite (newSet_length_ext (filter (fun x => setHas x t) t) t)
      by (intros x; rewrite In_filter_setHas; tauto).
    rewrite (newSet_length_ext (t ++ t) t) by (intros x; rewrite in_app_iff; tauto).
    rewrite newSet_fresh by apply tokenize_NoDup.
    apply Qmult_inv_r. intros H.
    assert (Hp : 0 < ofNat (length t)) by (apply ofNat_pos; lia).
    rewrite H in Hp. discriminate Hp.
  - intros H. unfold tokenOverlapScore. rewrite H. simpl.
    rewrite andb_true_r, orb_true_r. reflexivity.
Qed.

Lemma tokenOverlapScore_range_witness :
  tokenOverlapScore "Will BTC hit 100k?" "is it?" = 0.
Proof.
  refine (proj2 (proj2 (tokenOverlapScore_range "Will BTC hit 100k?" "is it?")) _).
  reflexivity.
Defined.

(** ** Keyword overlap *)



(** ** Edit distance *)

Section LevenshteinTable.
Local Open Scope nat_scope.

Lemma levTable_0_r (s1 s2 : string) (i : nat) : levTable s1 s2 i 0 = i.
Proof. destruct i; reflexivity. Qed.

Lemma levTable_S_S (s1 s2 : string) (i j : nat) :
  levTable s1 s2 (S i) (S j)
  = if String.eqb (charAt s1 i) (charAt s2 j) then levTable s1 s2 i j
    else Nat.min (Nat.min (levTable s1 s2 i j) (levTable s1 s2 (S i) j))
                 (levTable s1 s2 i (S j)) + 1.
Proof. reflexivity. Qed.

Variables s1 s2 : string.

Lemma innerStep_is (i j : nat) (st : list nat * nat) :
  1 <= i -> j <= String.length s2 ->
  innerIs s1 s2 i j st -> innerIs s1 s2 i (j + 1) (innerStep s1 s2 i st j).
Proof.
  intros Hi Hj. destruct st as [c lv]. unfold innerIs, innerStep. simpl.
  intros (Hlen & Hnew & Hold & Hlv).
  destruct (i =? 0) eqn:Ei; [apply Nat.eqb_eq in Ei; lia|].
  destruct (0 <? j) eqn:Ej.
  - apply Nat.ltb_lt in Ej. simpl.
    assert (Hin : j - 1 < length c) by lia.
    rewrite arraySet_length by exact Hin.
    split; [exact Hlen|]. split; [|split].
    + intros x Hx. rewrite arrayGet_arraySet by exact Hin.
      destruct (decide (x = j - 1)) as [->|Hne]; [exact Hlv|]. apply Hnew. lia.
    + intros x Hx Hxn. rewrite arrayGet_arraySet by exact Hin.
      destruct (decide (x = j - 1)) as [->|Hne]; [lia|]. apply Hold; lia.
    + replace (j + 1 - 1) with j by lia.
      rewrite (Hold (j - 1)) by lia. rewrite (Hold j) by lia. rewrite Hlv.
      destruct i as [|i']; [lia|]. destruct j as [|j']; [lia|].
      replace (S i' - 1) with i' by lia. replace (S j' - 1) with j' by lia.
      rewrite levTable_S_S.
      destruct (String.eqb (charAt s1 i') (charAt s2 j')); reflexivity.
  - apply Nat.ltb_ge in Ej. assert (j = 0) by lia. subst j. simpl.
    split; [exact Hlen|]. split; [intros x Hx; lia|]. split.
    + intros x _ Hxn. apply Hold; lia.
    + rewrite Hlv. simpl. rewrite !levTable_0_r. reflexivity.
Qed.

Lemma outerStep_is (i : nat) (costs : list nat) :
  1 <= i -> rowIs s1 s2 (i - 1) costs -> rowIs s1 s2 i (outerStep s1 s2 costs i).
Proof.
  intros Hi [Hlen Hrow]. unfold outerStep.
  assert (H : innerIs s1 s2 i (0 + (String.length s2 + 1))
                (fold_left (innerStep s1 s2 i) (seq 0 (String.length s2 + 1)) (costs, i))).
  { apply (fold_left_seq_inv (innerIs s1 s2 i)).
    - unfold innerIs. simpl. split; [exact Hlen|]. split; [intros x Hx; lia|].
      split; [|rewrite levTable_0_r; reflexivity]. intros x _ Hx. apply Hrow, Hx.
    - intros j st Hj Hst. apply innerStep_is; [exact Hi | lia | exact Hst]. }
  replace (Datatypes.S (String.length s2)) with (String.length s2 + 1) by lia.
  destruct (fold_left _ _ _) as [c lv]. unfold innerIs in H. simpl in H.
  destruct H as (Hl & Hnew & _ & Hlv).
  assert (Ei : (0 <? i) = true) by (apply Nat.ltb_lt; lia). rewrite Ei.
  assert (Hin : String.length s2 < length c) by lia.
  split; [rewrite arraySet_length by exact Hin; exact Hl|].
  intros x Hx. rewrite arrayGet_arraySet by exact Hin.
  destruct (decide (x = String.length s2)) as [->|Hne].
  - replace (String.length s2 + 1 - 1) with (String.length s2) in Hlv by lia. exact Hlv.
  - apply Hnew. lia.
Qed.

Lemma levenshteinDistance_levTable :
  levenshteinDistance s1 s2 = levTable s1 s2 (String.length s1) (String.length s2).
Proof.
  unfold levenshteinDistance.
  assert (H : rowIs s1 s2 (String.length s1)
                (fold_left (outerStep s1 s2) (seq 0 (Datatypes.S (String.length s1))) [])).
  { simpl. rewrite outerStep_first.
    pose proof (fold_left_seq_inv (fun i c => rowIs s1 s2 (i - 1) c) (outerStep s1 s2)
                  (String.length s1) 1 (seq 0 (String.length s2 + 1))) as Hf.
    cbv beta in Hf.
    replace (1 + String.length s1 - 1) with (String.length s1) in Hf by lia.
    apply Hf.
    - split; [apply length_seq|]. intros x Hx. unfold arrayGet.
      rewrite seq_nth by lia. reflexivity.
    - intros i c Hi Hc. replace (i + 1 - 1) with i by lia.
      apply outerStep_is; [lia | exact Hc]. }
  destruct H as [_ H]. apply H. lia.
Qed.

End LevenshteinTable.

Section LevenshteinFacts.
Local Open Scope nat_scope.

Lemma levTable_bounds (s1 s2 : string) (i j : nat) :
  Nat.max i j - Nat.min i j <= levTable s1 s2 i j <= Nat.max i j.
Proof.
  revert j. induction i as [|i IHi]; intros j; [simpl; lia|].
  induction j as [|j IHj]; [rewrite levTable_0_r; lia|].
  rewrite levTable_S_S. pose proof (IHi j). pose proof (IHi (S j)).
  destruct (String.eqb (charAt s1 i) (charAt s2 j)); lia.
Qed.

Lemma levTable_diag (s : string) (i : nat) : levTable s s i i = 0.
Proof.
  induction i as [|i IH]; [reflexivity|].
  rewrite levTable_S_S, String.eqb_refl. exact IH.
Qed.

Lemma levTable_sym (s1 s2 : string) (i j : nat) :
  levTable s1 s2 i j = levTable s2 s1 j i.
Proof.
  revert j. induction i as [|i IHi]; intros j.
  - rewrite levTable_0_r. reflexivity.
  - induction j as [|j IHj]; [rewrite levTable_0_r; reflexivity|].
    rewrite !levTable_S_S, (String.eqb_sym (charAt s2 j)).
    rewrite IHj, (IHi j), (IHi (S j)).
    destruct (String.eqb (charAt s1 i) (charAt s2 j)); lia.
Qed.

Lemma levenshteinDistance_comm (s1 s2 : string) :
  levenshteinDistance s1 s2 = levenshteinDistance s2 s1.
Proof. rewrite !levenshteinDistance_levTable. apply levTable_sym. Qed.

Lemma levenshteinDistance_refl (s : string) : levenshteinDistance s s = 0.
Proof. rewrite levenshteinDistance_levTable. apply levTable_diag. Qed.

Lemma levenshteinDistance_empty_r (s : string) :
  levenshteinDistance s "" = String.length s.
Proof. rewrite levenshteinDistance_levTable. apply levTable_0_r. Qed.

(** The one-row array of [levenshteinDistance], overwritten in place, ends
    with the last cell of the table of the recurrence. *)
Theorem levenshteinDistance_table (s1 s2 : string) :
  levenshteinDistance s1 s2 = levTable s1 s2 (String.length s1) (String.length s2).
Proof. apply levenshteinDistance_levTable. Qed.

(** The edit distance is at least the difference of the two lengths and at
    most the longer length; it is the length of one string when the other
    is empty. *)
Theorem levenshteinDistance_range (s1 s2 : string) :
  Nat.max (String.length s1) (String.length s2)
  - Nat.min (String.length s1) (String.length s2) <= levenshteinDistance s1 s2
  /\ levenshteinDistance s1 s2 <= Nat.max (String.length s1) (String.length s2)
  /\ levenshteinDistance s1 "" = String.length s1
  /\ levenshteinDistance "" s2 = String.length s2.
Proof.
  rewrite !levenshteinDistance_levTable.
  pose proof (levTable_bounds s1 s2 (String.length s1) (String.length s2)).
  split; [lia|]. split; [lia|]. split; [apply levTable_0_r | reflexivity].
Qed.

(** The edit distance of a string to itself is 0, and the distance does not
    depend on the order of the two strings. *)
Theorem levenshteinDistance_sym (s1 s2 : string) :
  levenshteinDistance s1 s2 = levenshteinDistance s2 s1
  /\ levenshteinDistance s1 s1 = 0.
Proof.
  split; [apply levenshteinDistance_comm | apply levenshteinDistance_refl].
Qed.

End LevenshteinFacts.

Lemma levenshteinSimilarity_comm (s1 s2 : string) :
  levenshteinSimilarity s1 s2 = levenshteinSimilarity s2 s1.
Proof.
  unfold levenshteinSimilarity.
  destruct (String.length s2 <? String.length s1)%nat eqn:E1;
    destruct (String.length s1 <? String.length s2)%nat eqn:E2; try reflexivity.
  - apply Nat.ltb_lt in E1, E2. lia.
  - apply Nat.ltb_ge in E1, E2.
    assert (El : String.length s1 = String.length s2) by lia.
    rewrite El, (levenshteinDistance_comm s2 s1). reflexivity.
Qed.

(** The fuzzy score lies in [0, 1], does not depend on the order of the two
    strings, is 1 for a string against itself and 0 for a non-empty string
    against the empty one. *)
Theorem levenshteinSimilarity_range (s1 s2 : string) :
  0 <= levenshteinSimilarity s1 s2 <= 1
  /\ levenshteinSimilarity s1 s2 = levenshteinSimilarity s2 s1
  /\ levenshteinSimilarity s1 s1 == 1
  /\ (s1 <> ""%string -> levenshteinSimilarity s1 "" == 0).
Proof.
  split; [apply levenshteinSimilarity_bounds|]. split; [|split].
  - apply levenshteinSimilarity_comm.
  - unfold levenshteinSimilarity. rewrite Nat.ltb_irrefl.
    destruct (String.length s1 =? 0)%nat eqn:E; [reflexivity|].
    apply Nat.eqb_neq in E. rewrite (levenshteinDistance_refl s1).
    unfold Qminus. change (- ofNat 0) with 0. rewrite Qplus_0_r.
    apply Qmult_inv_r. intros H.
    assert (Hp : 0 < ofNat (String.length s1)) by (apply ofNat_pos; lia).
    rewrite H in Hp. discriminate Hp.
  - intros Hne. unfold levenshteinSimilarity.
    assert (Hl : (0 < String.length s1)%nat) by (destruct s1; [congruence | simpl; lia]).
    assert (E : (String.length "" <? String.length s1)%nat = true)
      by (apply Nat.ltb_lt; exact Hl).
    rewrite E.
    assert (E0 : (String.length s1 =? 0)%nat = false) by (apply Nat.eqb_neq; lia).
    rewrite E0, levenshteinDistance_empty_r. unfold Qdiv.
    assert (Hz : ofNat (String.length s1) - ofNat (String.length s1) == 0) by ring.
    rewrite Hz. apply Qmult_0_l.
Qed.

Lemma levenshteinSimilarity_range_witness : levenshteinSimilarity "abc" "" == 0.
Proof.
  refine (proj2 (proj2 (proj2 (levenshteinSimilarity_range "abc" ""))) _).
  discriminate.
Defined.


(** ** Date proximity and the combined score *)

Lemma dateDiffDays_scaled (t1 t2 : Z) :
  dateDiffDays t1 t2 == inject_Z (Z.abs (t1 - t2)) * (1 # 86400000).
Proof. unfold dateDiffDays, Qdiv. reflexivity. Qed.

Lemma dateScore_comm (t1 t2 : Z) : dateScore t1 t2 = dateScore t2 t1.
Proof.
  unfold dateScore, dateDiffDays.
  replace (t2 - t1)%Z with (- (t1 - t2))%Z by lia. rewrite Z.abs_opp. reflexivity.
Qed.

(** The date score does not depend on the order of the two timestamps, is
    either 0 or between 0.7 and 1, and never grows when the timestamps move
    further apart. *)
Theorem dateScore_shape (t1 t2 t1' t2' : Z) :
  dateScore t1 t2 = dateScore t2 t1
  /\ (dateScore t1 t2 = 0 \/ (0.7 <= dateScore t1 t2 /\ dateScore t1 t2 <= 1))
  /\ ((Z.abs (t1 - t2) <= Z.abs (t1' - t2'))%Z -> dateScore t1' t2' <= dateScore t1 t2).
Proof.
  split; [apply dateScore_comm|]. split.
  - unfold dateScore. generalize (dateDiffDays t1 t2) as d. intros d.
    destruct (Qltb 30 d) eqn:E30; [left; reflexivity|]. right.
    destruct (Qltb 7 d) eqn:E7; [|split; discriminate].
    qprop. unfold Qdiv. change (/ 23) with (1 # 23). split; lra.
  - intros Hle. rewrite Zle_Qle in Hle.
    pose proof (dateDiffDays_scaled t1 t2) as Hd.
    pose proof (dateDiffDays_scaled t1' t2') as Hd'.
    unfold dateScore.
    revert Hd Hd'. generalize (dateDiffDays t1 t2) as d.
    generalize (dateDiffDays t1' t2') as d'. intros d' d Hd Hd'.
    assert (Hdd : d <= d') by (rewrite Hd, Hd'; lra).
    destruct (Qltb 30 d') eqn:E30'; destruct (Qltb 30 d) eqn:E30;
      destruct (Qltb 7 d') eqn:E7'; destruct (Qltb 7 d) eqn:E7; qprop;
      unfold Qdiv; change (/ 23) with (1 # 23); lra.
Qed.

Lemma dateScore_shape_witness : dateScore 0 (10 * 86400000) <= dateScore 0 86400000.
Proof.
  refine (proj2 (proj2 (dateScore_shape 0 86400000 0 (10 * 86400000))) _).
  vm_compute. discriminate.
Defined.

Lemma method_not_exact (p : Poly.t) (k : Kalshi.t) :
  norm (Poly.title p) <> norm (Kalshi.title k) -> method (cms p k) <> exact.
Proof.
  intros Hne. unfold norm in *. unfold calculateMatchScore.
  apply String.eqb_neq in Hne. rewrite Hne.
  repeat match goal with |- context [if ?b then _ else _] => destruct b end;
    simpl; discriminate.
Qed.

(** The overall score is 1 exactly when the normalized titles are equal,
    which is also exactly when the method is [exact]; for all other pairs
    it lies between 0.025 and 0.975. *)
Theorem overall_exact_iff (p : Poly.t) (k : Kalshi.t) :
  (overall (cms p k) == 1 <-> norm (Poly.title p) = norm (Kalshi.title k))
  /\ (method (cms p k) = exact <-> norm (Poly.title p) = norm (Kalshi.title k))
  /\ (norm (Poly.title p) <> norm (Kalshi.title k) ->
      0.025 <= overall (cms p k) /\ overall (cms p k) <= 0.975).
Proof.
  assert (Hne : norm (Poly.title p) <> norm (Kalshi.title k) ->
                0.025 <= overall (cms p k) /\ overall (cms p k) <= 0.975).
  { intros E. rewrite (overall_combined p k E).
    pose proof (keywordOverlapScore_bounds (Poly.title p) (Kalshi.title k)
                  (POLITICAL_KEYWORDS ++ CRYPTO_KEYWORDS)) as [Hk0 Hk1].
    pose proof (tokenOverlapScore_bounds (Poly.title p) (Kalshi.title k)) as [Ht0 Ht1].
    pose proof (levenshteinSimilarity_bounds (norm (Poly.title p)) (norm (Kalshi.title k)))
      as [Hf0 Hf1].
    pose proof (dateScore_bounds (Poly.endDate p) (Kalshi.expirationTime k)) as [Hd0 Hd1].
    unfold w_keyword, w_token, w_fuzzy, w_date, w_category, categoryScore.
    split; lra. }
  assert (Heq : norm (Poly.title p) = norm (Kalshi.title k) ->
                overall (cms p k) = 1 /\ method (cms p k) = exact).
  { intros E. unfold norm in E. unfold calculateMatchScore.
    rewrite E, String.eqb_refl. split; reflexivity. }
  destruct (string_dec (norm (Poly.title p)) (norm (Kalshi.title k))) as [E|E].
  - destruct (Heq E) as [Ho Hm]. split; [|split].
    + rewrite Ho. split; [intros _; exact E | reflexivity].
    + rewrite Hm. split; [intros _; exact E | reflexivity].
    + intros H. contradiction.
  - split; [|split; [|exact Hne]].
    + split; [|intros H; contradiction]. intros H. exfalso.
      destruct (Hne E) as [_ Hu]. rewrite H in Hu. apply Hu. reflexivity.
    + split; [|intros H; contradiction]. intros H. exfalso.
      exact (method_not_exact p k E H).
Qed.

Lemma overall_exact_iff_witness :
  overall (cms poly1 (Kalshi.mk "X" "Will Biden win?" 0 None)) <= 0.975.
Proof.
  refine (proj2 (proj2 (proj2 (overall_exact_iff poly1 (Kalshi.mk "X" "Will Biden win?" 0 None))) _)).
  vm_compute. discriminate.
Defined.

(** ** Tokens *)

Lemma lowerChar_not_upper (c : ascii) : isUpper (lowerChar c) = false.
Proof.
  destruct c as [b0 b1 b2 b3 b4 b5 b6 b7].
  destruct b0, b1, b2, b3, b4, b5, b6, b7; reflexivity.
Qed.

Lemma replacePunctuation_chars (text : string) (c : ascii) :
  In c (chars (replacePunctuation (toLowerCase text))) ->
  (isWord c || isSpace c = true) /\ isUpper c = false.
Proof.
  unfold chars. induction text as [|a text IH]; simpl; [intros []|].
  intros [H|H]; [|apply IH, H]. subst c.
  destruct (isWord (lowerChar a) || isSpace (lowerChar a)) eqn:E.
  - split; [exact E | apply lowerChar_not_upper].
  - split; reflexivity.
Qed.

Lemma splitGo_chars (s : string) (cur : list ascii) (inSep : bool) (piece : string)
    (c : ascii) :
  In piece (splitGo cur inSep s) -> In c (chars piece) ->
  In c cur \/ (In c (chars s) /\ isSpace c = false).
Proof.
  unfold chars. revert cur inSep.
  induction s as [|a s IH]; intros cur inSep; simpl.
  - intros [H|[]] Hc. subst piece.
    rewrite list_ascii_of_string_of_list_ascii in Hc. left. apply in_rev, Hc.
  - destruct (isSpace a) eqn:Ea.
    + destruct inSep.
      * intros Hp Hc. destruct (IH _ _ Hp Hc) as [H|[H Hs]]; auto.
      * intros [Hp|Hp] Hc.
        -- subst piece. rewrite list_ascii_of_string_of_list_ascii in Hc.
           left. apply in_rev, Hc.
        -- destruct (IH _ _ Hp Hc) as [[]|[H Hs]]. auto.
    + intros Hp Hc. destruct (IH _ _ Hp Hc) as [[H|H]|[H Hs]]; auto.
      subst c. right. split; [left; reflexivity | exact Ea].
Qed.

(** The tokens of a text are distinct, longer than two characters, not
    stopwords, and made of lowercase letters, digits and underscores only. *)
Theorem tokenize_wellformed (text : string) :
  NoDup (tokenize text)
  /\ forall token, In token (tokenize text) ->
       (2 < String.length token)%nat
       /\ ~ In token STOPWORDS
       /\ Forall (fun c => plainChar c = true) (chars token).
Proof.
  split; [apply tokenize_NoDup|]. intros token Hin.
  unfold tokenize in Hin. rewrite newSet_In in Hin.
  apply list_elem_of_In, list_elem_of_filter in Hin as [HP Hin].
  apply Is_true_true, andb_true_iff in HP as [Hlen Hstop].
  split; [apply Nat.ltb_lt, Hlen|]. split.
  - intros Hs. apply setHas_In in Hs. rewrite Hs in Hstop. discriminate Hstop.
  - apply List.Forall_forall. intros c Hc.
    apply list_elem_of_In in Hin. unfold splitWhitespace in Hin.
    destruct (splitGo_chars _ _ _ _ _ Hin Hc) as [[]|[Hc' Hsp]].
    apply replacePunctuation_chars in Hc' as [Hw Hu].
    unfold plainChar. rewrite Hsp, orb_false_r in Hw. rewrite Hw, Hu. reflexivity.
Qed.

Lemma tokenize_wellformed_witness :
  (2 < String.length "donald")%nat.
Proof.
  refine (proj1 (proj2 (tokenize_wellformed
            "Will Donald Trump win the 2024 Presidential Election?") "donald" _)).
  vm_compute. auto.
Defined.

(** ** Keywords found in a text *)

Lemma mapKeys_mapSet_In (k key : string) (v : Q) (m : list (string * Q)) :
  In key (mapKeys (mapSet k v m)) <-> key = k \/ In key (mapKeys m).
Proof.
  unfold mapKeys. induction m as [|[k0 v0] m IH]; simpl.
  - split; [intros [H|[]]; auto | intros [H|[]]; auto].
  - destruct (String.eqb k k0) eqn:E; simpl.
    + apply String.eqb_eq in E. subst k0. split; [intros [H|H]; auto | intros [H|[H|H]]; auto].
    + rewrite IH. split; [intros [H|[H|H]]; auto | intros [H|[H|H]]; auto].
Qed.

Lemma mapKeys_mapSet_NoDup (k : string) (v : Q) (m : list (string * Q)) :
  List.NoDup (mapKeys m) -> List.NoDup (mapKeys (mapSet k v m)).
Proof.
  unfold mapKeys. induction m as [|[k0 v0] m IH]; simpl; intros H.
  - constructor; [intros [] | constructor].
  - inversion H as [|? ? Hnotin Hnd]; subst.
    destruct (String.eqb k k0) eqn:E; simpl.
    + apply String.eqb_eq in E. subst k0. constructor; assumption.
    + constructor; [|apply IH, Hnd].
      intros Hin. apply (mapKeys_mapSet_In k k0 v m) in Hin as [Hin|Hin].
      * subst k0. rewrite String.eqb_refl in E. discriminate E.
      * exact (Hnotin Hin).
Qed.

(** [extractKeywords] records, under distinct keys, exactly the canonical
    names of the groups one of whose synonyms occurs in the lowercased
    text, each with a weight that is at least the weight of every such
    group of that name. *)
Theorem extractKeywords_keys (text : string) (groups : list KeywordGroup) :
  List.NoDup (mapKeys (extractKeywords text groups))
  /\ (forall key, In key (mapKeys (extractKeywords text groups)) <->
                  exists g, In g groups /\ matches text g = true /\ canonical g = key)
  /\ (forall g, In g groups -> matches text g = true ->
                weight g <= orZero (mapGet (canonical g) (extractKeywords text groups))).
Proof.
  unfold extractKeywords.
  induction groups as [|g groups (Hnd & Hkeys & Hw)] using rev_ind.
  - simpl. split; [constructor|]. split; [|intros g []].
    intros key. split; [intros [] | intros (g & [] & _)].
  - rewrite fold_left_app. cbn [fold_left].
    set (found := fold_left _ groups []) in *.
    rewrite scanSynonyms_matches. fold (matches text g).
    destruct (matches text g) eqn:Em.
    + split; [apply mapKeys_mapSet_NoDup, Hnd|]. split.
      * intros key. rewrite mapKeys_mapSet_In, Hkeys. split.
        -- intros [->|(h & Hh & Hm & Hc)].
           ++ exists g. split; [apply in_or_app; right; left; reflexivity | auto].
           ++ exists h. split; [apply in_or_app; left; exact Hh | auto].
        -- intros (h & Hh & Hm & Hc). apply in_app_iff in Hh as [Hh|[Hh|[]]].
           ++ right. exists h. auto.
           ++ left. subst h. symmetry. exact Hc.
      * intros h Hh Hm.
        destruct (string_dec (canonical g) (canonical h)) as [E|E].
        -- rewrite <- E, mapGet_mapSet_eq. cbn [orZero].
           apply in_app_iff in Hh as [Hh|[Hh|[]]].
           ++ apply Qle_trans with (orZero (mapGet (canonical g) found)).
              ** rewrite E. apply Hw; assumption.
              ** apply Q.le_max_l.
           ++ subst h. apply Q.le_max_r.
        -- rewrite mapGet_mapSet_ne by exact E.
           apply in_app_iff in Hh as [Hh|[Hh|[]]]; [apply Hw; assumption|].
           subst h. contradiction.
    + split; [exact Hnd|]. split.
      * intros key. rewrite Hkeys. split.
        -- intros (h & Hh & Hm & Hc). exists h.
           split; [apply in_or_app; left; exact Hh | auto].
        -- intros (h & Hh & Hm & Hc). apply in_app_iff in Hh as [Hh|[Hh|[]]].
           ++ exists h. auto.
           ++ subst h. rewrite Em in Hm. discriminate Hm.
      * intros h Hh Hm. apply in_app_iff in Hh as [Hh|[Hh|[]]]; [apply Hw; assumption|].
        subst h. rewrite Em in Hm. discriminate Hm.
Qed.

Lemma extractKeywords_keys_witness :
  0.85 <= orZero (mapGet "end_of_year"
                    (extractKeywords "Will Bitcoin close above $100k on December 31, 2024?"
                       (POLITICAL_KEYWORDS ++ CRYPTO_KEYWORDS))).
Proof.
  refine (proj2 (proj2 (extractKeywords_keys
            "Will Bitcoin close above $100k on December 31, 2024?"
            (POLITICAL_KEYWORDS ++ CRYPTO_KEYWORDS)))
            {| canonical := "end_of_year";
               synonyms := ["end of year"; "eoy"; "december"; "dec"; "year end";
                            "end of 2024"; "end of 2025"]%string;
               weight := 0.85 |} _ _).
  - vm_compute. auto 20.
  - reflexivity.
Defined.


(** ** More on best-match selection *)

(** A result of [findBestMatch] is marked as matched, and carries exactly
    one of the two marks: [shouldTrade] is the negation of [needsReview];
    its overall score lies between 0.60 and 1.  An empty candidate list
    gives no result. *)
Theorem findBestMatch_marks (p : Poly.t) (ks : list Kalshi.t) (r : MatchResult) :
  findBestMatch p [] = None
  /\ (findBestMatch p ks = Some r ->
      matched r = true
      /\ shouldTrade r = negb (Matching.needsReview r)
      /\ 0.60 <= overall (score r) /\ overall (score r) <= 1).
Proof.
  split; [reflexivity|]. intros H.
  apply findBestMatch_Some in H as (i & k & _ & -> & Hthr & _).
  cbn [matched shouldTrade Matching.needsReview score].
  split; [reflexivity|]. split; [|split; [exact Hthr | apply overall_bounds]].
  unfold Qltb. rewrite negb_involutive. reflexivity.
Qed.

Lemma findBestMatch_marks_witness :
  exists r, findBestMatch poly1 kalshi1 = Some r
            /\ shouldTrade r = negb (Matching.needsReview r).
Proof.
  eexists. split; [vm_compute; reflexivity|].
  refine (proj1 (proj2 (proj2 (findBestMatch_marks poly1 kalshi1 _) _))).
  vm_compute. reflexivity.
Defined.

Lemma Permutation_In_iff {A : Type} (l l' : list A) (x : A) :
  Permutation l l' -> (In x l <-> In x l').
Proof.
  intros H. split; [apply Permutation_in, H | apply Permutation_in; symmetry; exact H].
Qed.

(** Reordering the candidates never changes whether [findBestMatch] finds a
    match, nor the overall score and the marks of the match it finds. *)
Theorem findBestMatch_Permutation (p : Poly.t) (ks ks' : list Kalshi.t) :
  Permutation ks ks' ->
  match findBestMatch p ks, findBestMatch p ks' with
  | Some r, Some r' =>
      overall (score r) == overall (score r')
      /\ shouldTrade r = shouldTrade r'
      /\ Matching.needsReview r = Matching.needsReview r'
  | None, None => True
  | _, _ => False
  end.
Proof.
  intros Hperm.
  destruct (findBestMatch p ks) as [r|] eqn:E; destruct (findBestMatch p ks') as [r'|] eqn:E'.
  - apply findBestMatch_Some in E as (i & k & Hi & -> & _ & Hall & _).
    apply findBestMatch_Some in E' as (i' & k' & Hi' & -> & _ & Hall' & _).
    assert (Hk : In k ks) by (apply list_elem_of_In; eapply list_elem_of_lookup_2, Hi).
    assert (Hk' : In k' ks') by (apply list_elem_of_In; eapply list_elem_of_lookup_2, Hi').
    assert (Heq : overall (cms p k) == overall (cms p k')).
    { apply Qle_antisym.
      - apply Hall'. apply (Permutation_In_iff _ _ _ Hperm), Hk.
      - apply Hall. apply (Permutation_In_iff _ _ _ Hperm), Hk'. }
    cbn [score shouldTrade Matching.needsReview].
    split; [exact Heq|]. split.
    + apply Qleb_comp; [reflexivity | exact Heq].
    + unfold Qltb. f_equal. apply Qleb_comp; [reflexivity | exact Heq].
  - apply findBestMatch_Some in E as (i & k & Hi & -> & Hthr & _).
    assert (Hk : In k ks') by
      (apply (Permutation_In_iff _ _ _ Hperm), list_elem_of_In;
       eapply list_elem_of_lookup_2, Hi).
    exact (Qlt_not_le _ _ (findBestMatch_None p ks' E' k Hk) Hthr).
  - apply findBestMatch_Some in E' as (i & k & Hi & -> & Hthr & _).
    assert (Hk : In k ks) by
      (apply (Permutation_In_iff _ _ _ Hperm), list_elem_of_In;
       eapply list_elem_of_lookup_2, Hi).
    exact (Qlt_not_le _ _ (findBestMatch_None p ks E k Hk) Hthr).
  - exact I.
Qed.

Lemma findBestMatch_Permutation_witness :
  match findBestMatch poly1 kalshi1, findBestMatch poly1 (rev kalshi1) with
  | Some r, Some r' =>
      overall (score r) == overall (score r')
      /\ shouldTrade r = shouldTrade r'
      /\ Matching.needsReview r = Matching.needsReview r'
  | None, None => True
  | _, _ => False
  end.
Proof.
  apply findBestMatch_Permutation. apply Permutation_rev.
Defined.

(** The first index of a highest score is unique. *)
Lemma first_best_unique (p : Poly.t) (ks : list Kalshi.t) (i i' : nat) (k k' : Kalshi.t) :
  ks !! i = Some k -> ks !! i' = Some k' ->
  (forall c, In c ks -> overall (cms p c) <= overall (cms p k)) ->
  (forall j c, (j < i)%nat -> ks !! j = Some c -> overall (cms p c) < overall (cms p k)) ->
  (forall c, In c ks -> overall (cms p c) <= overall (cms p k')) ->
  (forall j c, (j < i')%nat -> ks !! j = Some c -> overall (cms p c) < overall (cms p k')) ->
  k = k'.
Proof.
  intros Hi Hi' Hall Hlt Hall' Hlt'.
  assert (Hk : In k ks) by (apply list_elem_of_In; eapply list_elem_of_lookup_2, Hi).
  assert (Hk' : In k' ks) by (apply list_elem_of_In; eapply list_elem_of_lookup_2, Hi').
  destruct (Nat.lt_trichotomy i i') as [H|[H|H]].
  - exfalso. apply (Qlt_not_le _ _ (Hlt' i k H Hi)). apply Hall, Hk'.
  - subst i'. congruence.
  - exfalso. apply (Qlt_not_le _ _ (Hlt i' k' H Hi')). apply Hall', Hk.
Qed.

(** [findBestMatch] and [findKalshiEquivalent] agree: with a review
    threshold of 0.60 and no active cached mapping, the matcher creates a
    mapping exactly when [findBestMatch] returns a result, for the same
    candidate, with the result's overall score as confidence, its method
    and its breakdown. *)
Theorem findKalshiEquivalent_findBestMatch (config : MatchingConfig) (st : State)
    (p : Poly.t) (ks : list Kalshi.t) :
  noActiveCached st p ->
  reviewConfidenceThreshold config == 0.60 ->
  match findBestMatch p ks, fst (findKalshiEquivalent config st p ks) with
  | Some r, Some m =>
      Matcher.kalshiTicker m = Matching.kalshiTicker r
      /\ matchConfidence m = overall (score r)
      /\ matchMethod m = scored (method (score r))
      /\ scoreBreakdown m = Some (breakdown (score r))
  | None, None => True
  | _, _ => False
  end.
Proof.
  intros Hno Hthr.
  destruct (findKalshiEquivalent_search config st p ks Hno)
    as [(Hn & Hall) | (i & k & Hi & Hr & Hk & Hall & Hlt)].
  - rewrite Hn. cbn [fst].
    destruct (findBestMatch p ks) as [r|] eqn:E; [|exact I].
    apply findBestMatch_Some in E as (i & k & Hi & _ & Hk & _).
    assert (Hin : In k ks) by (apply list_elem_of_In; eapply list_elem_of_lookup_2, Hi).
    specialize (Hall k Hin). rewrite Hthr in Hall. exact (Qlt_not_le _ _ Hall Hk).
  - rewrite Hr. cbn [fst].
    assert (Hin : In k ks) by (apply list_elem_of_In; eapply list_elem_of_lookup_2, Hi).
    destruct (findBestMatch p ks) as [r|] eqn:E.
    + apply findBestMatch_Some in E as (i' & k' & Hi' & -> & _ & Hall' & Hlt').
      assert (k = k') by (eapply first_best_unique; eassumption). subst k'.
      unfold mappingFor.
      cbn [Matcher.kalshiTicker Matching.kalshiTicker matchConfidence matchMethod
           scoreBreakdown score].
      repeat split; reflexivity.
    + pose proof (findBestMatch_None p ks E k Hin) as Hlow.
      rewrite Hthr in Hk. exact (Qlt_not_le _ _ Hlow Hk).
Qed.

Lemma findKalshiEquivalent_findBestMatch_witness :
  match findBestMatch poly1 kalshi1,
        fst (findKalshiEquivalent defaultConfig emptyState poly1 kalshi1) with
  | Some r, Some m =>
      Matcher.kalshiTicker m = Matching.kalshiTicker r
      /\ matchConfidence m = overall (score r)
      /\ matchMethod m = scored (method (score r))
      /\ scoreBreakdown m = Some (breakdown (score r))
  | None, None => True
  | _, _ => False
  end.
Proof.
  apply findKalshiEquivalent_findBestMatch.
  - intros c H. vm_compute in H. discriminate H.
  - reflexivity.
Defined.


(** ** The mapping store *)

Lemma generateId_maps (st : State) :
  cachedMappings (snd (generateId st)) = cachedMappings st
  /\ manualMappings (snd (generateId st)) = manualMappings st
  /\ dbUp (snd (generateId st)) = dbUp st
  /\ table (snd (generateId st)) = table st
  /\ clock (snd (generateId st)) = clock st.
Proof. repeat split; reflexivity. Qed.

(** *** The column of the confidence *)

Lemma decimal32_nonneg (x : Q) :
  0 <= x -> decimal32 x = inject_Z (Qfloor (x * 100 + (1 # 2))) / 100.
Proof.
  intros H. unfold decimal32. apply Qle_bool_iff in H as Hb. rewrite Hb.
  f_equal. f_equal. apply Qfloor_comp. rewrite Qabs_pos by exact H. reflexivity.
Qed.

Lemma decimal32_neg (x : Q) :
  x < 0 -> decimal32 x = inject_Z (- Qfloor (- x * 100 + (1 # 2))) / 100.
Proof.
  intros H. unfold decimal32.
  assert (Hb : Qle_bool 0 x = false) by (apply Qle_bool_lt, H). rewrite Hb.
  f_equal. f_equal. f_equal. apply Qfloor_comp.
  rewrite Qabs_neg by (apply Qlt_le_weak, H). reflexivity.
Qed.

(** Rounding moves a value by at most half a hundredth. *)
Lemma decimal32_close (x : Q) : Qabs (decimal32 x - x) <= 1 # 200.
Proof.
  apply Qabs_Qle_condition.
  destruct (Qlt_le_dec x 0) as [Hx|Hx].
  - rewrite (decimal32_neg x Hx).
    pose proof (Qfloor_le (- x * 100 + (1 # 2))) as Hl.
    pose proof (Qlt_floor (- x * 100 + (1 # 2))) as Hu.
    rewrite inject_Z_plus in Hu. rewrite inject_Z_opp.
    revert Hl Hu. generalize (inject_Z (Qfloor (- x * 100 + (1 # 2)))) as n.
    intros n Hl Hu. change (inject_Z 1) with 1 in Hu.
    unfold Qdiv. change (/ 100) with (1 # 100). split; lra.
  - rewrite (decimal32_nonneg x Hx).
    pose proof (Qfloor_le (x * 100 + (1 # 2))) as Hl.
    pose proof (Qlt_floor (x * 100 + (1 # 2))) as Hu.
    rewrite inject_Z_plus in Hu.
    revert Hl Hu. generalize (inject_Z (Qfloor (x * 100 + (1 # 2)))) as n.
    intros n Hl Hu. change (inject_Z 1) with 1 in Hu.
    unfold Qdiv. change (/ 100) with (1 # 100). split; lra.
Qed.



(** *** Saving *)

Lemma saveMapping_down (st : State) (m : EventMapping) :
  dbUp st = false -> saveMapping st m = st.
Proof. intros H. unfold saveMapping. rewrite H. reflexivity. Qed.



Lemma saveMapping_up (st : State) (m : EventMapping) :
  dbUp st = true -> fitsDecimal32 (matchConfidence m) = true ->
  cachedMappings (saveMapping st m)
  = <[polymarketConditionId m := m]> (cachedMappings st)
  /\ manualMappings (saveMapping st m) = manualMappings st
  /\ table (saveMapping st m) = upsert (clock st) m (table st)
  /\ dbUp (saveMapping st m) = true.
Proof. intros H Hf. unfold saveMapping. rewrite H, Hf. repeat split; auto. Qed.




(** A manual mapping.  With a reachable database, the mapping returned by
    [addManualMapping] is what [findKalshiEquivalent] returns from then on
    for a question with that condition id, whatever the candidates and the
    thresholds, and it passes [canTradeOnMapping] for every threshold up to
    1.  When the query throws, only [manualMappings] learns of the pair:
    the cache, which is all that [findKalshiEquivalent] and [getMapping]
    read, is as before. *)
Theorem addManualMapping_found (st : State) (cond ticker : string)
    (descr : option string) :
  let m := fst (addManualMapping st cond ticker descr) in
  let st' := snd (addManualMapping st cond ticker descr) in
  manualMappings st' !! cond = Some ticker
  /\ (dbUp st = true ->
      forall config p ks,
        Poly.conditionId p = cond ->
        findKalshiEquivalent config st' p ks = (Some m, st')
        /\ (minConfidenceThreshold config <= 1 -> canTradeOnMapping config m = true))
  /\ (dbUp st = false -> cachedMappings st' = cachedMappings st /\ table st' = table st).
Proof.
  intros m st'. subst m st'. unfold addManualMapping.
  cbn [generateId fst snd].
  set (st1 := snd (generateId st)).
  set (m := {| id := nextId st; polymarketConditionId := cond |}).
  change {| manualMappings := manualMappings st; cachedMappings := cachedMappings st;
            table := table st; dbUp := dbUp st; jsonFile := jsonFile st;
            nextId := Datatypes.S (nextId st); clock := clock st |} with st1.
  split; [cbn [setMaps manualMappings]; apply lookup_insert_eq|]. split.
  - intros Hup config p ks Hp.
    destruct (saveMapping_up st1 m Hup eq_refl) as (Hc & _).
    split.
    + unfold findKalshiEquivalent. cbn [setMaps cachedMappings].
      rewrite Hp, Hc. change (polymarketConditionId m) with cond.
      rewrite lookup_insert_eq. reflexivity.
    + intros Hthr. unfold canTradeOnMapping. change (matchConfidence m) with 1.
      destruct (Qltb 1 (minConfidenceThreshold config)) eqn:E; [|reflexivity].
      apply Qltb_lt in E. exfalso. exact (Qlt_not_le _ _ E Hthr).
  - intros Hdown. rewrite (saveMapping_down st1 m Hdown). split; reflexivity.
Qed.

Lemma addManualMapping_found_witness :
  findKalshiEquivalent defaultConfig
    (snd (addManualMapping emptyState "0x123" "PRES-2024-OTHER" None)) poly1 kalshi1
  = (Some (fst (addManualMapping emptyState "0x123" "PRES-2024-OTHER" None)),
     snd (addManualMapping emptyState "0x123" "PRES-2024-OTHER" None)).
Proof.
  refine (proj1 (proj1 (proj2 (addManualMapping_found emptyState "0x123"
            "PRES-2024-OTHER" None)) _ defaultConfig poly1 kalshi1 _)); reflexivity.
Defined.


Lemma fold_loadRow_other (rows : list Row) (st : State) (key : string) :
  (forall row, In row rows -> polymarket_condition_id row <> key) ->
  cachedMappings (fold_left loadRow rows st) !! key = cachedMappings st !! key
  /\ manualMappings (fold_left loadRow rows st) !! key = manualMappings st !! key.
Proof.
  revert st. induction rows as [|r rows IH]; intros st H; simpl; [auto|].
  destruct (IH (loadRow st r)) as [Hc Hm]; [intros row Hr; apply H; right; exact Hr|].
  rewrite Hc, Hm. unfold loadRow. cbn [setMaps cachedMappings manualMappings].
  assert (Hne : polymarket_condition_id r <> key) by (apply H; left; reflexivity).
  rewrite !lookup_insert_ne by exact Hne. auto.
Qed.

Lemma fold_loadRow_fixed (rows : list Row) (st : State) :
  table (fold_left loadRow rows st) = table st
  /\ dbUp (fold_left loadRow rows st) = dbUp st.
Proof.
  revert st. induction rows as [|r rows IH]; intros st; simpl; [auto|].
  destruct (IH (loadRow st r)) as [Ht Hd]. rewrite Ht, Hd. auto.
Qed.






(** ** An invariant of the cache *)

Lemma keysAgree_insert (st : State) (manual : gmap string string) (m : EventMapping) :
  keysAgree st ->
  keysAgree (setMaps st manual (<[polymarketConditionId m := m]> (cachedMappings st))).
Proof.
  intros H key m' Hl. cbn [setMaps cachedMappings] in Hl.
  destruct (decide (polymarketConditionId m = key)) as [E|E].
  - subst key. rewrite lookup_insert_eq in Hl. congruence.
  - rewrite lookup_insert_ne in Hl by exact E. apply H, Hl.
Qed.

Lemma keysAgree_cache (st st' : State) :
  cachedMappings st' = cachedMappings st -> keysAgree st -> keysAgree st'.
Proof. intros E H key m Hl. rewrite E in Hl. apply H, Hl. Qed.

Lemma keysAgree_saveMapping (st : State) (m : EventMapping) :
  keysAgree st -> keysAgree (saveMapping st m).
Proof.
  intros H. unfold saveMapping.
  destruct (dbUp st && fitsDecimal32 (matchConfidence m)); [|exact H].
  apply (keysAgree_insert (setTable st _) _ m). exact H.
Qed.

Lemma keysAgree_findKalshiEquivalent (config : MatchingConfig) (st : State)
    (p : Poly.t) (ks : list Kalshi.t) :
  keysAgree st -> keysAgree (snd (findKalshiEquivalent config st p ks)).
Proof.
  intros H. unfold findKalshiEquivalent.
  destruct (match cachedMappings st !! Poly.conditionId p with
            | Some c => isActive c
            | None => false
            end); [exact H|].
  destruct (fold_left (equivalentStep config p) ks None) as [[k s]|]; [|exact H].
  cbn [createMapping generateId snd]. apply keysAgree_saveMapping. exact H.
Qed.

Lemma keysAgree_buildMappings (config : MatchingConfig) (ps : list Poly.t)
    (ks : list Kalshi.t) (st : State) :
  keysAgree st -> keysAgree (snd (buildMappings config st ps ks)).
Proof.
  unfold buildMappings.
  match goal with |- _ -> keysAgree (snd (fold_left ?f _ _)) => set (F := f) end.
  assert (G : forall a, keysAgree (snd a) -> keysAgree (snd (fold_left F ps a))).
  { induction ps as [|p ps IH]; intros a Ha; [exact Ha|].
    cbn [fold_left]. apply IH. unfold F.
    pose proof (keysAgree_findKalshiEquivalent config (snd a) p ks Ha) as H'.
    destruct (findKalshiEquivalent config (snd a) p ks) as [[m|] st']; exact H'. }
  intros H. apply G. exact H.
Qed.

Lemma keysAgree_loadMappings (st : State) : keysAgree st -> keysAgree (loadMappings st).
Proof.
  intros H. unfold loadMappings. destruct (dbUp st).
  - generalize (filter (fun row => is_active row) (table st)) as rows.
    intros rows. revert st H. induction rows as [|r rows IH]; intros st H; [exact H|].
    apply IH. unfold loadRow.
    match goal with |- keysAgree (setMaps _ _ (<[_ := ?m]> _)) =>
      apply (keysAgree_insert st _ m) end. exact H.
  - destruct (jsonFile st) as [[generated rows]|]; [|exact H].
    revert st H. induction rows as [|r rows IH]; intros st H; [exact H|].
    apply IH. unfold loadJsonRow.
    match goal with |- keysAgree (setMaps _ _ (<[_ := ?m]> _)) =>
      apply (keysAgree_insert st _ m) end. exact H.
Qed.

(** Every operation of the matcher keeps each cached mapping under its own
    condition id, so that the active mappings handed out by
    [getActiveMappings] never hold two mappings for one Polymarket
    question. *)
Theorem keysAgree_invariant (st : State) :
  keysAgree st ->
  keysAgree (loadMappings st)
  /\ (forall m, keysAgree (saveMapping st m))
  /\ (forall cond ticker descr, keysAgree (snd (addManualMapping st cond ticker descr)))
  /\ (forall cond, keysAgree (removeMapping st cond))
  /\ (forall config p ks, keysAgree (snd (findKalshiEquivalent config st p ks)))
  /\ (forall config ps ks, keysAgree (snd (buildMappings config st ps ks)))
  /\ (forall m m', In m (getActiveMappings st) -> In m' (getActiveMappings st) ->
                   polymarketConditionId m = polymarketConditionId m' -> m = m').
Proof.
  intros H. split; [apply keysAgree_loadMappings, H|].
  split; [intros m; apply keysAgree_saveMapping, H|]. split; [|split; [|split; [|split]]].
  - intros cond ticker descr. unfold addManualMapping. cbn [generateId snd].
    match goal with |- keysAgree (setMaps (saveMapping ?s ?m) _ _) =>
      apply (keysAgree_cache (saveMapping s m)); [reflexivity|];
      apply keysAgree_saveMapping; apply (keysAgree_cache st); [reflexivity | exact H]
    end.
  - intros cond. unfold removeMapping. destruct (dbUp st); [|exact H].
    intros key m Hl. cbn [setMaps setTable cachedMappings] in Hl.
    apply lookup_delete_Some in Hl as [_ Hl]. apply H, Hl.
  - intros config p ks. apply keysAgree_findKalshiEquivalent, H.
  - intros config ps ks. apply keysAgree_buildMappings, H.
  - intros m m' Hm Hm' E.
    assert (Hget : forall x, In x (getActiveMappings st) ->
                     cachedMappings st !! polymarketConditionId x = Some x).
    { intros x Hx. unfold getActiveMappings in Hx.
      apply list_elem_of_In, list_elem_of_filter in Hx as [_ Hx].
      apply list_elem_of_fmap in Hx as ([key y] & -> & Hx).
      apply elem_of_map_to_list in Hx. cbn [snd].
      rewrite (H key y Hx). exact Hx. }
    apply Hget in Hm, Hm'. rewrite E in Hm. congruence.
Qed.

Lemma keysAgree_invariant_witness :
  keysAgree (snd (findKalshiEquivalent defaultConfig emptyState poly1 kalshi1)).
Proof.
  refine (proj1 (proj2 (proj2 (proj2 (proj2 (keysAgree_invariant emptyState _)))))
            defaultConfig poly1 kalshi1).
  intros key m H. vm_compute in H. discriminate H.
Defined.


(** ** Saving and loading again *)

Lemma upsert_fresh (now : Z) (m : EventMapping) (rows : list Row) :
  (forall row, In row rows -> polymarket_condition_id row <> polymarketConditionId m) ->
  upsert now m rows
  = (rows ++ [ {| r_id := id m; polymarket_condition_id := polymarketConditionId m;
                  kalshi_ticker := kalshiTicker m; description := eventDescription m;
                  match_confidence := decimal32 (matchConfidence m);
                  match_method := matchMethod m;
                  resolution_date := resolutionDate m; is_active := isActive m;
                  created_at := now; updated_at := now |} ])%list.
Proof.
  induction rows as [|r rows IH]; intros H; simpl; [reflexivity|].
  assert (E : String.eqb (polymarket_condition_id r) (polymarketConditionId m) = false)
    by (apply String.eqb_neq, H; left; reflexivity).
  rewrite E. cbn [andb]. rewrite IH; [reflexivity|].
  intros row Hr. apply H. right. exact Hr.
Qed.

(** Round trip through the table.  A mapping saved for a question that has
    no row yet, and loaded again by a matcher that starts with empty maps,
    comes back under its condition id with the same id, ticker,
    description, method and resolution date, but with its confidence
    rounded to the two decimals of the column, which moves it by at most
    0.005, with an empty outcome correspondence and without its breakdown
    and review mark; an inactive mapping does not come back. *)
Theorem saveMapping_reload (st : State) (m : EventMapping) :
  dbUp st = true -> fitsDecimal32 (matchConfidence m) = true ->
  (forall row, In row (table st) ->
               polymarket_condition_id row <> polymarketConditionId m) ->
  getMapping (loadMappings (freshMaps (saveMapping st m))) (polymarketConditionId m)
  = (if isActive m then Some (reloaded (clock st) m) else None)
  /\ Qabs (matchConfidence (reloaded (clock st) m) - matchConfidence m) <= 1 # 200.
Proof.
  intros Hup Hfit Hfresh. split; [|apply decimal32_close].
  destruct (saveMapping_up st m Hup Hfit) as (_ & _ & Ht & Hd).
  unfold loadMappings, freshMaps, getMapping. cbn [setMaps dbUp table].
  rewrite Hd, Ht, (upsert_fresh _ _ _ Hfresh), filter_app, fold_left_app.
  set (rows := filter (fun row => is_active row) (table st)).
  set (s0 := setMaps (saveMapping st m) ∅ ∅).
  assert (Hother : cachedMappings (fold_left loadRow rows s0)
                     !! polymarketConditionId m = None).
  { destruct (fold_loadRow_other rows s0 (polymarketConditionId m)) as [Hc _].
    - intros row Hin. apply list_elem_of_In, list_elem_of_filter in Hin as [_ Hin].
      apply Hfresh, list_elem_of_In, Hin.
    - rewrite Hc. reflexivity. }
  destruct (isActive m) eqn:Ea.
  - rewrite filter_cons_True by exact I.
    cbn [filter list_filter fold_left]. unfold loadRow at 1.
    cbn [setMaps cachedMappings polymarket_condition_id]. rewrite lookup_insert_eq.
    unfold reloaded. cbn. rewrite Ea. reflexivity.
  - rewrite filter_cons_False by (intros []).
    cbn [filter list_filter fold_left]. exact Hother.
Qed.

(** A mapping below the trading threshold comes back at the threshold. *)
Lemma saveMapping_reload_witness :
  getMapping (loadMappings (freshMaps (saveMapping emptyState nearMapping))) "0x748"
  = Some (reloaded 1700000000000 nearMapping)
  /\ canTradeOnMapping defaultConfig nearMapping = false
  /\ canTradeOnMapping defaultConfig (reloaded 1700000000000 nearMapping) = true.
Proof.
  split; [|split; vm_compute; reflexivity].
  refine (proj1 (saveMapping_reload emptyState nearMapping _ _ _)).
  - reflexivity.
  - vm_compute. reflexivity.
  - intros row [].
Defined.

Lemma fold_loadJsonRow_other (generated : Z) (rows : list JsonRow) (st : State)
    (key : string) :
  (forall row, In row rows -> j_polymarketConditionId row <> key) ->
  cachedMappings (fold_left (loadJsonRow generated) rows st) !! key
  = cachedMappings st !! key.
Proof.
  revert st. induction rows as [|r rows IH]; intros st H; simpl; [reflexivity|].
  rewrite IH by (intros row Hr; apply H; right; exact Hr).
  unfold loadJsonRow. cbn [setMaps cachedMappings].
  apply lookup_insert_ne. apply H. left. reflexivity.
Qed.

Lemma fold_loadJsonRow_In (generated : Z) (l : list EventMapping) (st : State)
    (m : EventMapping) :
  List.NoDup (map polymarketConditionId l) -> In m l ->
  cachedMappings (fold_left (loadJsonRow generated) (map toJsonRow l) st)
    !! polymarketConditionId m
  = Some (rereadJson generated m).
Proof.
  revert st. induction l as [|x l IH]; intros st Hnd; [intros []|].
  intros [Hin|Hin]; inversion Hnd as [|? ? Hnotin Hnd']; subst; cbn [map fold_left].
  - rewrite fold_loadJsonRow_other.
    + unfold loadJsonRow. cbn [setMaps cachedMappings toJsonRow j_polymarketConditionId].
      rewrite lookup_insert_eq. reflexivity.
    + intros row Hr E. apply in_map_iff in Hr as (y & <- & Hy).
      cbn [toJsonRow j_polymarketConditionId] in E.
      apply Hnotin. rewrite <- E. apply in_map, Hy.
  - apply IH; assumption.
Qed.

(** Round trip through the JSON file.  When the database is down and the
    file is the one [build-mappings] wrote from mappings with distinct
    condition ids, [loadMappings] caches every mapping of confidence 0.60
    or more with its id, ticker, description, confidence, method,
    resolution date and outcome correspondence as they were, active, and
    dated with the file's [generated]. *)
Theorem outputFile_reload (st : State) (generated : Z) (mappings : list EventMapping)
    (m : EventMapping) :
  dbUp st = false ->
  jsonFile st = Some (outputFile generated mappings) ->
  List.NoDup (map polymarketConditionId (goodMappings mappings)) ->
  In m mappings -> 0.60 <= matchConfidence m ->
  getMapping (loadMappings st) (polymarketConditionId m) = Some (rereadJson generated m).
Proof.
  intros Hdown Hfile Hnd Hin Hconf.
  unfold loadMappings, getMapping. rewrite Hdown, Hfile. unfold outputFile.
  apply fold_loadJsonRow_In; [exact Hnd|].
  unfold goodMappings. apply List.filter_In. split; [exact Hin|].
  apply Qle_bool_iff, Hconf.
Qed.

Lemma outputFile_reload_witness :
  getMapping
    (loadMappings
       {| manualMappings := ∅; cachedMappings := ∅; table := []; dbUp := false;
          jsonFile := Some (outputFile 5 [mappingFor defaultConfig emptyState tieQuestion tieFirst]);
          nextId := 0; clock := 9 |})
    "0xabc"
  = Some (rereadJson 5 (mappingFor defaultConfig emptyState tieQuestion tieFirst)).
Proof.
  refine (outputFile_reload _ 5 [mappingFor defaultConfig emptyState tieQuestion tieFirst]
            (mappingFor defaultConfig emptyState tieQuestion tieFirst) _ _ _ _ _).
  - reflexivity.
  - reflexivity.
  - assert (E : goodMappings [mappingFor defaultConfig emptyState tieQuestion tieFirst]
                = [mappingFor defaultConfig emptyState tieQuestion tieFirst]).
    { unfold goodMappings. cbn [List.filter].
      assert (Hq : Qle_bool 0.60 (matchConfidence
                     (mappingFor defaultConfig emptyState tieQuestion tieFirst)) = true)
        by (vm_compute; reflexivity).
      rewrite Hq. reflexivity. }
    rewrite E. cbn [map]. constructor; [intros [] | constructor].
  - left. reflexivity.
  - vm_compute. discriminate.
Defined.


(** ** Building the mappings and sorting them in tiers *)

Lemma findKalshiEquivalent_confident (config : MatchingConfig) (st : State)
    (p : Poly.t) (ks : list Kalshi.t) :
  (forall key m, cachedMappings st !! key = Some m -> isActive m = true ->
                 reviewConfidenceThreshold config <= matchConfidence m) ->
  (forall key m, cachedMappings (snd (findKalshiEquivalent config st p ks)) !! key = Some m ->
                 isActive m = true -> reviewConfidenceThreshold config <= matchConfidence m)
  /\ (forall m, fst (findKalshiEquivalent config st p ks) = Some m ->
                reviewConfidenceThreshold config <= matchConfidence m
                /\ isActive m = true).
Proof.
  intros Hst.
  destruct (cachedMappings st !! Poly.conditionId p) as [c|] eqn:Ec;
    [destruct (isActive c) eqn:Ea|].
  - assert (Hr : findKalshiEquivalent config st p ks = (Some c, st))
      by (unfold findKalshiEquivalent; rewrite Ec, Ea; reflexivity).
    rewrite Hr. cbn [fst snd]. split; [exact Hst|].
    intros m Hm. assert (c = m) by congruence. subst m. split; [eapply Hst; eauto | exact Ea].
  - assert (Hno : noActiveCached st p) by (intros c' Hc'; congruence).
    destruct (findKalshiEquivalent_search config st p ks Hno)
      as [(Hn & _) | (i & k & _ & Hr & Hthr & _)]; rewrite ?Hn, ?Hr; cbn [fst snd].
    + split; [exact Hst | intros m Hm; discriminate Hm].
    + split.
      * intros key m. unfold saveMapping. cbn [generateId snd dbUp].
        destruct (dbUp st && fitsDecimal32 (matchConfidence (mappingFor config st p k)));
          [|apply Hst].
        cbn [setMaps setTable cachedMappings].
        change (polymarketConditionId (mappingFor config st p k)) with (Poly.conditionId p).
        destruct (decide (Poly.conditionId p = key)) as [E|E].
        -- subst key. rewrite lookup_insert_eq. intros Hm _.
           assert (mappingFor config st p k = m) by congruence. subst m. exact Hthr.
        -- rewrite lookup_insert_ne by exact E. apply Hst.
      * intros m Hm. assert (mappingFor config st p k = m) by congruence. subst m.
        split; [exact Hthr | reflexivity].
  - assert (Hno : noActiveCached st p) by (intros c' Hc'; congruence).
    destruct (findKalshiEquivalent_search config st p ks Hno)
      as [(Hn & _) | (i & k & _ & Hr & Hthr & _)]; rewrite ?Hn, ?Hr; cbn [fst snd].
    + split; [exact Hst | intros m Hm; discriminate Hm].
    + split.
      * intros key m. unfold saveMapping. cbn [generateId snd dbUp].
        destruct (dbUp st && fitsDecimal32 (matchConfidence (mappingFor config st p k)));
          [|apply Hst].
        cbn [setMaps setTable cachedMappings].
        change (polymarketConditionId (mappingFor config st p k)) with (Poly.conditionId p).
        destruct (decide (Poly.conditionId p = key)) as [E|E].
        -- subst key. rewrite lookup_insert_eq. intros Hm _.
           assert (mappingFor config st p k = m) by congruence. subst m. exact Hthr.
        -- rewrite lookup_insert_ne by exact E. apply Hst.
      * intros m Hm. assert (mappingFor config st p k = m) by congruence. subst m.
        split; [exact Hthr | reflexivity].
Qed.

Lemma filter_all {A : Type} (f : A -> bool) (l : list A) :
  (forall x, In x l -> f x = true) -> List.filter f l = l.
Proof.
  induction l as [|x l IH]; intros H; simpl; [reflexivity|].
  rewrite (H x) by (left; reflexivity). rewrite IH; [reflexivity|].
  intros y Hy. apply H. right. exact Hy.
Qed.

(** A mapping returned for a market carries the market's condition id,
    provided the cache keeps every mapping under its own id. *)
Lemma findKalshiEquivalent_condition (config : MatchingConfig) (st : State)
    (p : Poly.t) (ks : list Kalshi.t) (m : EventMapping) :
  keysAgree st -> fst (findKalshiEquivalent config st p ks) = Some m ->
  polymarketConditionId m = Poly.conditionId p.
Proof.
  intros Hk H.
  destruct (cachedMappings st !! Poly.conditionId p) as [c|] eqn:Ec;
    [destruct (isActive c) eqn:Ea|].
  - unfold findKalshiEquivalent in H. rewrite Ec, Ea in H. cbn [fst] in H.
    assert (c = m) by congruence. subst c. apply (Hk _ _ Ec).
  - assert (Hno : noActiveCached st p) by (intros c' Hc'; congruence).
    destruct (findKalshiEquivalent_search config st p ks Hno)
      as [(Hn & _) | (i & k & _ & Hr & _)]; rewrite ?Hn, ?Hr in H; cbn [fst] in H;
      [discriminate H|].
    assert (mappingFor config st p k = m) by congruence. subst m. reflexivity.
  - assert (Hno : noActiveCached st p) by (intros c' Hc'; congruence).
    destruct (findKalshiEquivalent_search config st p ks Hno)
      as [(Hn & _) | (i & k & _ & Hr & _)]; rewrite ?Hn, ?Hr in H; cbn [fst] in H;
      [discriminate H|].
    assert (mappingFor config st p k = m) by congruence. subst m. reflexivity.
Qed.

(** The condition ids of the mappings [buildMappings] returns are, in
    order, condition ids of the markets it was given, each entry of the
    list of markets being used at most once. *)
Lemma buildMappings_markets (config : MatchingConfig) (ps : list Poly.t)
    (ks : list Kalshi.t) (st : State) :
  keysAgree st ->
  map polymarketConditionId (fst (buildMappings config st ps ks))
    `sublist_of` map Poly.conditionId ps.
Proof.
  unfold buildMappings.
  match goal with |- context [fold_left ?f _ _] => set (F := f) end.
  assert (G : forall a, keysAgree (snd a) ->
            exists l, fst (fold_left F ps a) = (fst a ++ l)%list
                      /\ map polymarketConditionId l `sublist_of` map Poly.conditionId ps).
  { induction ps as [|p ps IH]; intros a Ha; cbn [fold_left map].
    - exists []. rewrite app_nil_r. split; [reflexivity | constructor].
    - pose proof (keysAgree_findKalshiEquivalent config (snd a) p ks Ha) as Hk.
      pose proof (findKalshiEquivalent_condition config (snd a) p ks) as Hc.
      assert (Hstep : (exists m, fst (F a p) = (fst a ++ [m])%list
                                 /\ polymarketConditionId m = Poly.conditionId p)
                      \/ fst (F a p) = fst a).
      { unfold F. destruct (findKalshiEquivalent config (snd a) p ks) as [[m|] st'];
          cbn [fst]; [left | right; reflexivity].
        exists m. split; [reflexivity|]. apply Hc; [exact Ha | reflexivity]. }
      assert (Hk' : keysAgree (snd (F a p))).
      { unfold F. destruct (findKalshiEquivalent config (snd a) p ks) as [[m|] st'];
          exact Hk. }
      destruct (IH (F a p) Hk') as (l & Hl & Hsub). rewrite Hl.
      destruct Hstep as [(m & Hm & Hid) | Hm]; rewrite Hm.
      + exists (m :: l). rewrite <- app_assoc. split; [reflexivity|].
        cbn [map]. rewrite Hid. apply sublist_skip, Hsub.
      + exists l. split; [reflexivity|]. apply sublist_cons, Hsub. }
  intros H. destruct (G ([], st) H) as (l & Hl & Hsub).
  rewrite Hl. exact Hsub.
Qed.

(** [buildMappings] goes through the markets in order and returns at most
    one mapping for each entry of the list.  When every cached mapping is
    kept under its own condition id, each mapping returned carries the
    condition id of its market, so that markets with pairwise distinct
    condition ids never get two mappings.  If every active mapping cached
    beforehand has a confidence of at least the review threshold (an empty
    cache does), then so has every mapping returned, and each is active;
    with a review threshold of 0.60 or more the filter
    [matchConfidence >= 0.60] of [build-mappings] then drops nothing. *)
Theorem buildMappings_confident (config : MatchingConfig) (st : State)
    (ps : list Poly.t) (ks : list Kalshi.t) :
  (length (fst (buildMappings config st ps ks)) <= length ps)%nat
  /\ (keysAgree st ->
      map polymarketConditionId (fst (buildMappings config st ps ks))
        `sublist_of` map Poly.conditionId ps
      /\ (List.NoDup (map Poly.conditionId ps) ->
          List.NoDup (map polymarketConditionId (fst (buildMappings config st ps ks)))))
  /\ ((forall key m, cachedMappings st !! key = Some m -> isActive m = true ->
                     reviewConfidenceThreshold config <= matchConfidence m) ->
      (forall m, In m (fst (buildMappings config st ps ks)) ->
                 reviewConfidenceThreshold config <= matchConfidence m
                 /\ isActive m = true)
      /\ (0.60 <= reviewConfidenceThreshold config ->
          goodMappings (fst (buildMappings config st ps ks))
          = fst (buildMappings config st ps ks))).
Proof.
  unfold buildMappings.
  match goal with |- context [fold_left ?f _ _] => set (F := f) end.
  assert (Glen : forall a, (length (fst (fold_left F ps a)) <= length (fst a) + length ps)%nat).
  { induction ps as [|p ps IH]; intros a; cbn [fold_left length]; [lia|].
    specialize (IH (F a p)).
    assert (Hstep : (length (fst (F a p)) <= length (fst a) + 1)%nat).
    { unfold F. destruct (findKalshiEquivalent config (snd a) p ks) as [[m|] st'];
        cbn [fst]; [rewrite length_app; cbn [length]|]; lia. }
    lia. }
  split; [specialize (Glen ([], st)); cbn [fst length] in Glen; lia|].
  clear Glen. split.
  { intros Hk. pose proof (buildMappings_markets config ps ks st Hk) as Hsub.
    unfold buildMappings in Hsub. fold F in Hsub. split; [exact Hsub|].
    intros Hnd. apply NoDup_ListNoDup. apply NoDup_ListNoDup in Hnd.
    exact (sublist_NoDup _ _ Hnd Hsub). }
  intros Hst.
  assert (G : forall a,
            (forall key m, cachedMappings (snd a) !! key = Some m -> isActive m = true ->
                           reviewConfidenceThreshold config <= matchConfidence m) ->
            (forall m, In m (fst a) ->
                       reviewConfidenceThreshold config <= matchConfidence m
                       /\ isActive m = true) ->
            forall m, In m (fst (fold_left F ps a)) ->
                      reviewConfidenceThreshold config <= matchConfidence m
                      /\ isActive m = true).
  { induction ps as [|p ps IH]; intros a Hc Ha; [exact Ha|].
    cbn [fold_left].
    destruct (findKalshiEquivalent_confident config (snd a) p ks Hc) as [Hc' Hm'].
    apply IH.
    - unfold F. destruct (findKalshiEquivalent config (snd a) p ks) as [[m|] st'];
        exact Hc'.
    - unfold F. destruct (findKalshiEquivalent config (snd a) p ks) as [[m|] st'];
        cbn [fst snd] in *; [|exact Ha].
      intros x Hx. apply in_app_iff in Hx. destruct Hx as [Hx|Hx]; [apply Ha, Hx|].
      destruct Hx as [Hx|[]]. subst x. apply Hm'. reflexivity. }
  specialize (G ([], st) Hst (fun m (H : In m []) => match H with end)).
  split; [exact G|].
  intros Hthr. unfold goodMappings. apply filter_all. intros m Hm.
  apply Qle_bool_iff. apply Qle_trans with (reviewConfidenceThreshold config); [exact Hthr|].
  apply G, Hm.
Qed.

Lemma buildMappings_confident_witness :
  goodMappings (fst (buildMappings defaultConfig emptyState [poly1; tieQuestion] kalshi1))
  = fst (buildMappings defaultConfig emptyState [poly1; tieQuestion] kalshi1).
Proof.
  refine (proj2 (proj2 (proj2 (buildMappings_confident defaultConfig emptyState
            [poly1; tieQuestion] kalshi1)) _) _).
  - intros key m H. vm_compute in H. discriminate H.
  - vm_compute. discriminate.
Defined.

Lemma filter_split_length {A : Type} (f g : A -> bool) (l : list A) :
  (forall x, In x l -> g x = negb (f x)) ->
  length l = (length (List.filter f l) + length (List.filter g l))%nat.
Proof.
  induction l as [|x l IH]; intros H; simpl; [reflexivity|].
  rewrite (H x) by (left; reflexivity).
  rewrite (IH (fun y Hy => H y (or_intror Hy))).
  destruct (f x); simpl; lia.
Qed.

(** The tiers of [build-mappings].  Every mapping kept has a confidence of
    at least 0.60 and falls in exactly one of the two tiers, so that
    [totalMatches] is [tier1Count + tier2Count]. *)
Theorem tiers_partition (mappings : list EventMapping) :
  let good := goodMappings mappings in
  length good = (length (tier1 good) + length (tier2 good))%nat
  /\ (forall m, In m good <-> In m (tier1 good) \/ In m (tier2 good))
  /\ (forall m, In m (tier1 good) -> In m (tier2 good) -> False)
  /\ (forall m, In m good <-> In m mappings /\ 0.60 <= matchConfidence m).
Proof.
  intros good.
  assert (Hgood : forall m, In m good <-> In m mappings /\ 0.60 <= matchConfidence m).
  { intros m. unfold good, goodMappings. rewrite List.filter_In, Qle_bool_iff. tauto. }
  assert (Hneg : forall m, In m good ->
            Qle_bool 0.60 (matchConfidence m) && Qltb (matchConfidence m) 0.75
            = negb (Qle_bool 0.75 (matchConfidence m))).
  { intros m Hm. apply Hgood in Hm as [_ Hm]. apply Qle_bool_iff in Hm.
    rewrite Hm. reflexivity. }
  split; [apply filter_split_length, Hneg|]. split; [|split; [|exact Hgood]].
  - intros m. unfold tier1, tier2. rewrite !List.filter_In. split.
    + intros Hm. rewrite (Hneg m Hm).
      destruct (Qle_bool 0.75 (matchConfidence m)); auto.
    + tauto.
  - intros m H1 H2. unfold tier1, tier2 in *.
    apply List.filter_In in H1 as [Hm H1]. apply List.filter_In in H2 as [_ H2].
    rewrite (Hneg m Hm), H1 in H2. discriminate H2.
Qed.


(** ** Loading from the table *)

Lemma loadRow_maps (st : State) (r : Row) :
  manualMappings (loadRow st r)
  = <[polymarket_condition_id r := kalshi_ticker r]> (manualMappings st)
  /\ exists m, cachedMappings (loadRow st r)
               = <[polymarket_condition_id r := m]> (cachedMappings st)
               /\ kalshiTicker m = kalshi_ticker r
               /\ matchConfidence m = match_confidence r
               /\ isActive m = is_active r
               /\ outcomeMapping m = [].
Proof.
  split; [reflexivity|]. eexists. split; [reflexivity|]. repeat split; reflexivity.
Qed.

Lemma fold_loadRow_last (rows : list Row) (st : State) (row : Row) :
  In row rows ->
  exists row', In row' rows
    /\ polymarket_condition_id row' = polymarket_condition_id row
    /\ manualMappings (fold_left loadRow rows st) !! polymarket_condition_id row
       = Some (kalshi_ticker row')
    /\ exists m, cachedMappings (fold_left loadRow rows st) !! polymarket_condition_id row
                 = Some m
                 /\ kalshiTicker m = kalshi_ticker row'
                 /\ matchConfidence m = match_confidence row'
                 /\ isActive m = is_active row'
                 /\ outcomeMapping m = [].
Proof.
  revert st. induction rows as [|r rows IH] using rev_ind; intros st Hin; [destruct Hin|].
  rewrite fold_left_app. cbn [fold_left].
  destruct (loadRow_maps (fold_left loadRow rows st) r) as (Hman & m0 & Hcache & Hm0).
  rewrite Hman, Hcache.
  destruct (string_dec (polymarket_condition_id r) (polymarket_condition_id row)) as [E|E].
  - exists r. split; [apply in_or_app; right; left; reflexivity|]. split; [exact E|].
    rewrite E, !lookup_insert_eq. split; [reflexivity|].
    exists m0. split; [reflexivity | exact Hm0].
  - apply in_app_iff in Hin. destruct Hin as [Hin|Hin];
      [|destruct Hin as [Hin|[]]; subst r; contradiction].
    destruct (IH st Hin) as (row' & Hin' & Hc & Hm & m & Hl & H).
    exists row'. split; [apply in_or_app; left; exact Hin'|]. split; [exact Hc|].
    rewrite !lookup_insert_ne by exact E. split; [exact Hm|].
    exists m. split; [exact Hl | exact H].
Qed.

(** [loadMappings] with a reachable database caches, for every active row
    of the table, a mapping under the row's condition id: the one made of
    an active row for that id, with that row's ticker and confidence and an
    empty outcome correspondence, and records the ticker in
    [manualMappings].  Inactive rows are not read, and what was cached
    under the other ids stays.  With the database down and no JSON file
    nothing is loaded. *)
Theorem loadMappings_rows (st : State) :
  (dbUp st = true ->
   (forall row, In row (table st) -> is_active row = true ->
      exists row', In row' (table st) /\ is_active row' = true
        /\ polymarket_condition_id row' = polymarket_condition_id row
        /\ manualMappings (loadMappings st) !! polymarket_condition_id row
           = Some (kalshi_ticker row')
        /\ exists m, getMapping (loadMappings st) (polymarket_condition_id row) = Some m
                     /\ kalshiTicker m = kalshi_ticker row'
                     /\ matchConfidence m = match_confidence row'
                     /\ isActive m = true
                     /\ outcomeMapping m = [])
   /\ (forall key,
         (forall row, In row (table st) -> is_active row = true ->
                      polymarket_condition_id row <> key) ->
         getMapping (loadMappings st) key = getMapping st key))
  /\ (dbUp st = false -> jsonFile st = None -> loadMappings st = st).
Proof.
  split.
  - intros Hup. unfold loadMappings, getMapping. rewrite Hup.
    set (rows := filter (fun row => is_active row) (table st)).
    assert (Hrows : forall row, In row rows <-> In row (table st) /\ is_active row = true).
    { intros row. unfold rows. rewrite <- !list_elem_of_In, list_elem_of_filter.
      rewrite Is_true_true. tauto. }
    split.
    + intros row Hin Hact.
      destruct (fold_loadRow_last rows st row) as (row' & Hin' & Hc & Hm & m & Hl & H1 & H2 & H3 & H4);
        [apply Hrows; auto|].
      apply Hrows in Hin' as [Hin' Hact'].
      exists row'. split; [exact Hin'|]. split; [exact Hact'|]. split; [exact Hc|].
      split; [exact Hm|]. exists m. rewrite H3, Hact'. auto.
    + intros key Hkey.
      destruct (fold_loadRow_other rows st key) as [Hc _]; [|exact Hc].
      intros row Hin. apply Hrows in Hin as [Hin Hact]. apply Hkey; assumption.
  - intros Hdown Hfile. unfold loadMappings. rewrite Hdown, Hfile. reflexivity.
Qed.

Lemma loadMappings_rows_witness :
  getMapping (loadMappings
                {| manualMappings := ∅; cachedMappings := ∅; table := [staleRow];
                   dbUp := true; jsonFile := None; nextId := 8; clock := 0 |}) "0xother"
  = None.
Proof.
  refine (proj2 (proj1 (loadMappings_rows _) _) "0xother" _).
  - reflexivity.
  - intros row [<-|[]] _. discriminate.
Defined.

(** The review mark that [findKalshiEquivalent] stores with a mapping it
    creates is the negation of what [canTradeOnMapping] answers for that
    mapping under the same configuration. *)
Theorem needsReview_canTrade (config : MatchingConfig) (st st' : State)
    (p : Poly.t) (ks : list Kalshi.t) (m : EventMapping) :
  noActiveCached st p ->
  findKalshiEquivalent config st p ks = (Some m, st') ->
  Matcher.needsReview m = Some (negb (canTradeOnMapping config m)).
Proof.
  intros Hno H.
  destruct (findKalshiEquivalent_search config st p ks Hno)
    as [(Hn & _) | (i & k & _ & Hr & _)]; [rewrite Hn in H; discriminate H|].
  rewrite Hr in H. assert (mappingFor config st p k = m) by congruence. subst m.
  unfold canTradeOnMapping, mappingFor. cbn [Matcher.needsReview matchConfidence].
  destruct (Qltb (overall (cms p k)) (minConfidenceThreshold config)); reflexivity.
Qed.

Lemma needsReview_canTrade_witness :
  exists m st', findKalshiEquivalent defaultConfig emptyState poly1 kalshi1 = (Some m, st')
                /\ Matcher.needsReview m = Some (negb (canTradeOnMapping defaultConfig m)).
Proof.
  assert (Hno : noActiveCached emptyState poly1).
  { intros c H. vm_compute in H. discriminate H. }
  assert (Hr : findKalshiEquivalent defaultConfig emptyState poly1 kalshi1
               = (Some (mappingFor defaultConfig emptyState poly1
                          (Kalshi.mk "PRES-2024-TRUMP"
                             "Will the Republican candidate win the 2024 presidential election?"
                             1730851200000 (Some "Politics"%string))),
                  saveMapping (snd (generateId emptyState))
                    (mappingFor defaultConfig emptyState poly1
                       (Kalshi.mk "PRES-2024-TRUMP"
                          "Will the Republican candidate win the 2024 presidential election?"
                          1730851200000 (Some "Politics"%string))))).
  { vm_compute. reflexivity. }
  do 2 eexists. split; [exact Hr|].
  exact (needsReview_canTrade defaultConfig emptyState _ poly1 kalshi1 _ Hno Hr).
Defined.
